(** * statement-miner: the text pipeline of [scripts/statement-miner.py]

    A shallow embedding of the HTML text extractor, the regular-expression
    normaliser, the special-character transliterator, the dataset driver
    and the metrics aggregator of the script, followed by the properties
    established about them.

    Python strings are sequences of Unicode code points; they are modelled
    as lists of [N].  The regular expressions of the [config] dictionary are
    given as syntax trees and run by a backtracking matcher that follows the
    priority order of Python's [re] module (leftmost match, alternatives from
    left to right, greedy and lazy repetition). *)

From Stdlib Require Import List NArith Bool Ascii String Arith Lia.
Import ListNotations.

Set Implicit Arguments.
Set Warnings "-register-all".

(** ** Python strings *)

Module Py.

(** One Unicode code point. *)
Abbreviation char := N (only parsing).

(** A Python [str]. *)
Abbreviation str := (list char) (only parsing).

Definition char_eqb (a b : char) : bool := N.eqb a b.

Fixpoint str_eqb (a b : str) : bool :=
  match a, b with
  | [], [] => true
  | x :: a', y :: b' => char_eqb x y && str_eqb a' b'
  | _, _ => false
  end.

(** Decoding of the UTF-8 bytes of a source literal into code points; only a
    notation aid for writing the literals of the script. *)
Fixpoint utf8_decode (bs : list N) (acc : N) (need : nat) : str :=
  match bs with
  | [] => []
  | b :: bs' =>
      match need with
      | O =>
          if (b <? 128)%N then b :: utf8_decode bs' 0%N 0
          else if (b <? 224)%N then utf8_decode bs' (b - 192)%N 1
          else if (b <? 240)%N then utf8_decode bs' (b - 224)%N 2
          else utf8_decode bs' (b - 240)%N 3
      | S n =>
          let acc' := (acc * 64 + (b - 128))%N in
          match n with
          | O => acc' :: utf8_decode bs' 0%N 0
          | S _ => utf8_decode bs' acc' n
          end
      end
  end.

Fixpoint bytes_of (s : string) : list N :=
  match s with
  | EmptyString => []
  | String a s' => N_of_ascii a :: bytes_of s'
  end.

(** [u "texto"] is the Python string written "texto". *)
Definition u (s : string) : str := utf8_decode (bytes_of s) 0%N 0.

Arguments u s%_string.

(** [Py_UNICODE_ISSPACE]: the characters removed by [str.strip()] and matched
    by [\s] in a [str] pattern. *)
Definition isspace (c : char) : bool :=
  ((9 <=? c) && (c <=? 13) || (28 <=? c) && (c <=? 32)
   || (c =? 133) || (c =? 160) || (c =? 5760)
   || (8192 <=? c) && (c <=? 8202)
   || (c =? 8232) || (c =? 8233) || (c =? 8239) || (c =? 8287)
   || (c =? 12288))%N.

Fixpoint lstrip (s : str) : str :=
  match s with
  | c :: s' => if isspace c then lstrip s' else s
  | [] => []
  end.

Definition rstrip (s : str) : str := rev (lstrip (rev s)).

(** [s.strip()] *)
Definition strip (s : str) : str := rstrip (lstrip s).

(** [sep.join(parts)] *)
Fixpoint join (sep : str) (parts : list str) : str :=
  match parts with
  | [] => []
  | [p] => p
  | p :: rest => p ++ sep ++ join sep rest
  end.

(** [s.replace(c, new)] for a one-character [c], the only form the script
    uses: every occurrence of [c] becomes [new]. *)
Definition replace_char (c : char) (new : str) (s : str) : str :=
  flat_map (fun x => if char_eqb x c then new else [x]) s.

Fixpoint starts_with (sep s : str) : bool :=
  match sep, s with
  | [], _ => true
  | a :: sep', b :: s' => char_eqb a b && starts_with sep' s'
  | _ :: _, [] => false
  end.

(** The scan of [s.split(sep)] for a non-empty [sep]: [cur] is the field being
    read (reversed) and [skip] counts the characters of a separator that was
    recognised and is still to be passed over. *)
Fixpoint split_scan (sep : str) (s : str) (cur : str) (skip : nat) : list str :=
  match s with
  | [] => [rev cur]
  | c :: s' =>
      match skip with
      | S k => split_scan sep s' cur k
      | O =>
          if starts_with sep s
          then rev cur :: split_scan sep s' [] (List.length sep - 1)
          else split_scan sep s' (c :: cur) 0
      end
  end.

(** [s.split(sep)] *)
Definition split (s sep : str) : list str := split_scan sep s [] 0.

(** [set(s)]: the distinct characters of [s], here in order of first
    occurrence.  Python fixes no iteration order for a set; functions that
    iterate over one take the order as an argument. *)
Fixpoint distinct (s : str) : list char :=
  match s with
  | [] => []
  | c :: s' => c :: filter (fun x => negb (char_eqb x c)) (distinct s')
  end.

(** [order] is a possible iteration order of [set(s)]. *)
Definition iteration_of (s : str) (order : list char) : Prop :=
  NoDup order /\ forall c, In c order <-> In c s.

End Py.

Import Py.

(** ** The Unicode character database

    [str.lower()], the classes [\d] and [\w] and case-insensitive matching
    read the Unicode tables of the interpreter, which are not part of the
    script.  The embedding takes them as a record; the properties below
    hold for every database, or for every database that agrees with the
    tabulated one on the code points below 256. *)

Module Unicode.

Record database : Type := {
  (** [Py_UNICODE_ISDECIMAL], the class [\d] *)
  isdecimal : char -> bool;
  (** [Py_UNICODE_ISALNUM]; with the underscore, the class [\w] *)
  isalnum : char -> bool;
  (** [Py_UNICODE_TOLOWER], used by [re] under [re.I] *)
  tolower : char -> char;
  (** [_sre.unicode_iscased]: the character has another case *)
  iscased : char -> bool;
  (** [re._casefix._EXTRA_CASES]: further characters that match a lower-case
      character under [re.I] *)
  extra_cases : char -> list char;
  (** [str.lower()] *)
  lower : str -> str
}.

Section Derived.
Variable db : database.

(** The class [\w]. *)
Definition isword (c : char) : bool := isalnum db c || char_eqb c 95%N.

End Derived.

Definition between (lo hi c : N) : bool := ((lo <=? c) && (c <=? hi))%N.

Definition ref_isdecimal (c : char) : bool := between 48 57 c.

Definition ref_isalnum (c : char) : bool :=
  between 48 57 c || between 65 90 c || between 97 122 c
  || existsb (N.eqb c) [170; 178; 179; 181; 185; 186; 188; 189; 190]%N
  || between 192 214 c || between 216 246 c || between 248 383 c
  || between 913 929 c || between 931 937 c || between 945 969 c
  || existsb (N.eqb c) [7868; 7869; 8467]%N.

Definition ref_tolower (c : char) : char :=
  (if between 65 90 c then c + 32
   else if between 192 222 c && negb (c =? 215) then c + 32
   else if c =? 304 then 105
   else if between 256 311 c && N.even c then c + 1
   else if between 313 328 c && N.odd c then c + 1
   else if between 330 375 c && N.even c then c + 1
   else if c =? 376 then 255
   else if between 377 382 c && N.odd c then c + 1
   else if between 913 929 c || between 931 937 c then c + 32
   else if c =? 7868 then 7869
   else c)%N.

Definition ref_toupper (c : char) : char :=
  (if between 97 122 c then c - 32
   else if between 224 254 c && negb (c =? 247) then c - 32
   else if c =? 181 then 924
   else if c =? 223 then 83
   else if c =? 255 then 376
   else if c =? 305 then 73
   else if c =? 329 then 700
   else if between 257 311 c && N.odd c then c - 1
   else if between 314 328 c && N.even c then c - 1
   else if between 331 375 c && N.odd c then c - 1
   else if between 378 382 c && N.even c then c - 1
   else if c =? 383 then 83
   else if between 945 961 c || between 963 969 c then c - 32
   else if c =? 962 then 931
   else if c =? 7869 then 7868
   else c)%N.

Definition ref_iscased (c : char) : bool :=
  negb (char_eqb c (ref_tolower c)) || negb (char_eqb c (ref_toupper c)).

Definition ref_extra_cases (c : char) : list char :=
  (if c =? 105 then [305] else if c =? 305 then [105]
   else if c =? 115 then [383] else if c =? 383 then [115]
   else if c =? 181 then [956] else if c =? 956 then [181]
   else if c =? 946 then [976] else if c =? 949 then [1013]
   else if c =? 952 then [977] else if c =? 953 then [837; 8126]
   else if c =? 954 then [1008] else if c =? 960 then [982]
   else if c =? 961 then [1009] else if c =? 962 then [963]
   else if c =? 963 then [962] else if c =? 966 then [981]
   else [])%N.

Definition ref_lower (s : str) : str :=
  flat_map (fun c => if (c =? 304)%N then [105; 775]%N else [ref_tolower c]) s.

(** The tabulated database: Basic Latin, Latin-1 Supplement, Latin
    Extended-A, the Greek letters U+0391 to U+03A9 and U+03B1 to U+03C9, and
    U+1EBC, U+1EBD and U+2113 (which the script names).  Elsewhere it is a
    stand-in that treats a code point as a caseless symbol; it is used only to
    evaluate the functions on strings of tabulated characters. *)
Definition ref : database :=
  {| isdecimal := ref_isdecimal;
     isalnum := ref_isalnum;
     tolower := ref_tolower;
     iscased := ref_iscased;
     extra_cases := ref_extra_cases;
     lower := ref_lower |}.

(** [db] agrees with the tabulated database on Basic Latin and Latin-1. *)
Definition latin1 (db : database) : Prop :=
  forall c, (c < 256)%N ->
    isdecimal db c = ref_isdecimal c /\
    isalnum db c = ref_isalnum c /\
    tolower db c = ref_tolower c /\
    iscased db c = ref_iscased c /\
    extra_cases db c = ref_extra_cases c.

End Unicode.

(** ** Regular expressions of the [re] module *)

Module Re.

Import Unicode.

Inductive category : Type :=
| CATEGORY_DIGIT   (* \d *)
| CATEGORY_SPACE   (* \s *)
| CATEGORY_WORD.   (* \w *)

(** The members of a bracketed set. *)
Inductive set_item : Type :=
| SetLit (c : char)
| SetRange (lo hi : char)
| SetCat (k : category).

(** Parsed patterns, named after the opcodes of [re._parser].  A capturing
    group is transparent (no pattern of the script refers back to one) and
    is written as its body. *)
Inductive regex : Type :=
| LITERAL (c : char)
| ANY                                   (* [.]: any character but newline *)
| CATEGORY (k : category)
| IN (negate : bool) (items : list set_item)
| AT_BOUNDARY                           (* [\b] *)
| EMPTY
| SEQ (r1 r2 : regex)
| BRANCH (r1 r2 : regex)                (* [r1|r2] *)
| MAX_REPEAT (lo : nat) (hi : option nat) (r : regex)   (* greedy *)
| MIN_REPEAT (lo : nat) (hi : option nat) (r : regex)   (* lazy *)
| ASSERT_NOT_AHEAD (r : regex)          (* [(?!r)] *)
| ASSERT_NOT_BEHIND (width : nat) (r : regex).  (* [(?<!r)], [r] of fixed width *)

(** A position in the subject: the text before it, nearest character first,
    and the text from it on. *)
Abbreviation state := (str * str)%type (only parsing).

Definition step (st : state) : option (char * state) :=
  match snd st with
  | c :: rest => Some (c, (c :: fst st, rest))
  | [] => None
  end.

(** Move [n] characters back, if there are that many. *)
Fixpoint back (n : nat) (st : state) : option state :=
  match n with
  | O => Some st
  | S n' =>
      match fst st with
      | c :: before => back n' (before, c :: snd st)
      | [] => None
      end
  end.

Definition shorter (st' st : state) : bool :=
  List.length (snd st') <? List.length (snd st).

Definition below (n : nat) (hi : option nat) : bool :=
  match hi with
  | Some h => n <? h
  | None => true
  end.

(** The code points from [lo] to [hi]. *)
Definition char_range (lo hi : char) : list char :=
  map (fun i => (lo + N.of_nat i)%N) (seq 0 (N.to_nat (hi + 1 - lo))).

Section Matcher.

Variable db : database.

(** [re.I] (or the inline [(?i)]) is set. *)
Variable ignorecase : bool.

Definition in_category (k : category) (c : char) : bool :=
  match k with
  | CATEGORY_DIGIT => isdecimal db c
  | CATEGORY_SPACE => isspace c
  | CATEGORY_WORD => isword db c
  end.

(** The characters equivalent to [c] when case is ignored: its lower case
    and the extra cases of that. *)
Definition folded (c : char) : list char :=
  tolower db c :: extra_cases db (tolower db c).

(** A literal of the pattern against a character of the subject. *)
Definition literal_matches (c t : char) : bool :=
  if ignorecase && iscased db c
  then existsb (char_eqb (tolower db t)) (folded c)
  else char_eqb c t.

Definition item_cased (it : set_item) : bool :=
  match it with
  | SetLit c => iscased db c
  | SetRange lo hi => existsb (iscased db) (char_range lo hi)
  | SetCat _ => false
  end.

Definition item_matches (t : char) (it : set_item) : bool :=
  match it with
  | SetLit c => char_eqb c t
  | SetRange lo hi => between lo hi t
  | SetCat k => in_category k t
  end.

(** The test of a set compiled for [re.I]: on the lower case of the subject
    character, against the folded members. *)
Definition item_matches_folded (x : char) (it : set_item) : bool :=
  match it with
  | SetLit c => existsb (char_eqb x) (folded c)
  | SetRange lo hi =>
      existsb (fun i => existsb (char_eqb x) (folded i)) (char_range lo hi)
  | SetCat k => in_category k x
  end.

Definition set_matches (negate : bool) (items : list set_item) (t : char)
  : bool :=
  xorb negate
    (if ignorecase && existsb item_cased items
     then existsb (item_matches_folded (tolower db t)) items
     else existsb (item_matches t) items).

Definition word_before (st : state) : bool :=
  match fst st with
  | c :: _ => isword db c
  | [] => false
  end.

Definition word_here (st : state) : bool :=
  match snd st with
  | c :: _ => isword db c
  | [] => false
  end.

Definition at_boundary (st : state) : bool :=
  xorb (word_before st) (word_here st).

Definition one (ok : char -> bool) (st : state) (k : state -> option state)
  : option state :=
  match step st with
  | Some (c, st') => if ok c then k st' else None
  | None => None
  end.

(** The rounds of a greedy repetition of [body], [n] of them made so far:
    the first [lo] rounds are made unconditionally; each later round is
    tried, while fewer than [hi] are made, before the continuation, and
    counts only if it consumes a character. *)
Fixpoint max_loop (body : state -> (state -> option state) -> option state)
  (lo : nat) (hi : option nat) (k : state -> option state)
  (fuel n : nat) (st : state) {struct fuel} : option state :=
  match fuel with
  | O => None
  | S fuel' =>
      if n <? lo
      then body st (fun st' => max_loop body lo hi k fuel' (S n) st')
      else
        match (if below n hi
               then body st (fun st' =>
                      if shorter st' st
                      then max_loop body lo hi k fuel' (S n) st'
                      else None)
               else None) with
        | Some e => Some e
        | None => k st
        end
  end.

(** The rounds of a lazy repetition: once [lo] rounds are made the
    continuation is tried before each further round. *)
Fixpoint min_loop (body : state -> (state -> option state) -> option state)
  (lo : nat) (hi : option nat) (k : state -> option state)
  (fuel n : nat) (st : state) {struct fuel} : option state :=
  match fuel with
  | O => None
  | S fuel' =>
      if n <? lo
      then body st (fun st' => min_loop body lo hi k fuel' (S n) st')
      else
        match k st with
        | Some e => Some e
        | None =>
            if below n hi
            then body st (fun st' =>
                   if shorter st' st
                   then min_loop body lo hi k fuel' (S n) st'
                   else None)
            else None
        end
  end.

(** The backtracking matcher: [exec r st k] matches [r] at [st] and hands
    each way of doing so, in priority order, to the continuation [k], until
    one succeeds; the result is the position where the whole match ends.
    A repetition at a position with [m] characters left makes at most
    [lo + m] rounds, so the fuel [lo + m + 1] is never used up. *)
Fixpoint exec (r : regex) (st : state) (k : state -> option state)
  {struct r} : option state :=
  match r with
  | LITERAL c => one (literal_matches c) st k
  | ANY => one (fun t => negb (char_eqb t 10%N)) st k
  | CATEGORY c => one (in_category c) st k
  | IN negate items => one (set_matches negate items) st k
  | AT_BOUNDARY => if at_boundary st then k st else None
  | EMPTY => k st
  | SEQ r1 r2 => exec r1 st (fun st' => exec r2 st' k)
  | BRANCH r1 r2 =>
      match exec r1 st k with
      | Some e => Some e
      | None => exec r2 st k
      end
  | MAX_REPEAT lo hi r' =>
      max_loop (exec r') lo hi k (lo + List.length (snd st) + 1) 0 st
  | MIN_REPEAT lo hi r' =>
      min_loop (exec r') lo hi k (lo + List.length (snd st) + 1) 0 st
  | ASSERT_NOT_AHEAD r' =>
      match exec r' st (fun e => Some e) with
      | Some _ => None
      | None => k st
      end
  | ASSERT_NOT_BEHIND width r' =>
      match back width st with
      | Some st0 =>
          match exec r' st0 (fun e => Some e) with
          | Some _ => None
          | None => k st
          end
      | None => k st
      end
  end.

(** [pattern.match] at a position: where the match ends, if there is one. *)
Definition match_at (r : regex) (st : state) : option state :=
  exec r st (fun e => Some e).

(** The scan of [re.sub]: [before] is the text already passed and [skip] the
    number of characters of the current match still to pass over.  A match
    is replaced by [repl]; a character at which no match starts is copied.
    After an empty match the next character is copied; none of the patterns
    of the script matches the empty string. *)
Fixpoint sub_scan (r : regex) (repl : str) (before s : str) (skip : nat)
  {struct s} : str :=
  match skip with
  | S n =>
      match s with
      | c :: s' => sub_scan r repl (c :: before) s' n
      | [] => []
      end
  | O =>
      match match_at r (before, s) with
      | Some e =>
          repl ++
          match s with
          | c :: s' =>
              match List.length s - List.length (snd e) with
              | O => c :: sub_scan r repl (c :: before) s' 0
              | S n => sub_scan r repl (c :: before) s' n
              end
          | [] => []
          end
      | None =>
          match s with
          | c :: s' => c :: sub_scan r repl (c :: before) s' 0
          | [] => []
          end
      end
  end.

(** [re.sub(r, repl, text)] for a replacement without backslashes. *)
Definition sub (r : regex) (repl text : str) : str :=
  sub_scan r repl [] text 0.

End Matcher.

(** Notation for writing patterns. *)
Fixpoint seq_of (rs : list regex) : regex :=
  match rs with
  | [] => EMPTY
  | [r] => r
  | r :: rs' => SEQ r (seq_of rs')
  end.

Fixpoint branch_of (rs : list regex) : regex :=
  match rs with
  | [] => EMPTY
  | [r] => r
  | r :: rs' => BRANCH r (branch_of rs')
  end.

(** A run of literal characters. *)
Definition lit (s : str) : regex := seq_of (map LITERAL s).

Definition star (r : regex) : regex := MAX_REPEAT 0 None r.
Definition plus (r : regex) : regex := MAX_REPEAT 1 None r.
Definition opt (r : regex) : regex := MAX_REPEAT 0 (Some 1) r.
Definition lazy_star (r : regex) : regex := MIN_REPEAT 0 None r.
Definition lazy_plus (r : regex) : regex := MIN_REPEAT 1 None r.
Definition times (lo hi : nat) (r : regex) : regex := MAX_REPEAT lo (Some hi) r.

End Re.

(** ** The parse tree of BeautifulSoup *)

Module Bs4.

(** The classes of string nodes; [Comment] and the others below it are
    subclasses of [NavigableString]. *)
Inductive string_class : Type :=
| NavigableString
| Comment
| CData
| ProcessingInstruction
| Declaration
| Doctype
| Stylesheet
| Script
| TemplateString.

Inductive node : Type :=
| Text (cls : string_class) (s : str)
| Tag (name : str) (children : list node).

(** The [BeautifulSoup] object: the children of the root, whose [name] is
    "[document]". *)
Definition soup : Type := list node.

Definition document_name : str := u "[document]".

(** A string node as [find_all] returns it: with its class and the name of
    its parent. *)
Record element : Type := {
  parent_name : str;
  element_class : string_class;
  element_text : str
}.

Fixpoint strings_under (parent : str) (n : node) : list element :=
  match n with
  | Text cls s =>
      [{| parent_name := parent; element_class := cls; element_text := s |}]
  | Tag name children => flat_map (strings_under name) children
  end.

(** [soup.findAll(text=True)]: every string node, in document order. *)
Definition findAll_text (doc : soup) : list element :=
  flat_map (strings_under document_name) doc.

Definition is_comment (e : element) : bool :=
  match element_class e with
  | Comment => true
  | _ => false
  end.

End Bs4.

(** ** The script *)

Import Unicode Re Bs4.

Definition ch (a : ascii) : char := N_of_ascii a.

Arguments ch a%_char.

Definition lits (s : str) : list set_item := map SetLit s.

Definition nl_tab : str := [10; 9]%N.

Definition digit : regex := CATEGORY CATEGORY_DIGIT.
Definition space : regex := CATEGORY CATEGORY_SPACE.

(** *** [to_replace] *)

(** The one-byte key written with a double quote. *)
Definition double_quote : string := String (ascii_of_N 34) EmptyString.

(** The dictionary, keyed by the bytes of the escaped character. *)
Definition to_replace : list (string * str) :=
  [ ("\u0131", u "i");
    ("\u0155", u "r");
    ("\u03b1", u " alfa ");
    ("@", u " arroba ");
    ("#", u " cerquilha ");
    ("\u2206", u " delta ");
    ("$", u " dólar ");
    ("\xb0", u " graus ");
    ("\u221e", u " infinito ");
    ("\u0142", u " libra ");
    ("\u2113", u " litro ");
    ("\u03c9", u " ohm ");
    ("\xb2", u " ao quadrado ");
    ("\xb3", u " ao cubo ");
    ("\u221a", u " raiz quadrada ");
    ("+", u " mais ");
    ("\2212", u " menos ");
    ("\xd7", u " multiplicação ");
    ("=", u " igual ");
    ("\u2264", u " menor ou igual ");
    ("\u2265", u " maior ou igual que ");
    ("\u22c5", u " ");
    ("\u2219", u " ");
    ("\xb7", u " ");
    (">", u " maior que ");
    ("\u03c0", u " pi ");
    ("\xf7", u " divisão ");
    ("<", u " menor que ");
    ("/", u " ");
    ("\\", u " ");
    ("|", u " ");
    ("\u2192", u " ");
    ("\u2013", u " ");
    ("'", u " ");
    ("\u2019", u " ");
    ("\u2018", u " ");
    (double_quote, u " ");
    ("\u201c", u " ");
    ("\u201d", u " ");
    ("\xb4", u " ");
    ("`", u " ");
    ("^", u " ");
    ("&", u " ");
    (";", u ". ");
    ("_", u " ");
    ("\u2026", u " ") ]%string.

(** [key in d] and [d[key]] *)
Fixpoint dict_get (key : string) (d : list (string * str)) : option str :=
  match d with
  | [] => None
  | (k, v) :: d' => if String.eqb k key then Some v else dict_get key d'
  end.

Definition hex_digit (n : N) : ascii :=
  if (n <? 10)%N then ascii_of_N (48 + n) else ascii_of_N (87 + n).

(** The [width] low hexadecimal digits of [n], most significant first. *)
Fixpoint hex (width : nat) (n : N) : string :=
  match width with
  | O => EmptyString
  | S w => (hex w (n / 16) ++ String (hex_digit (n mod 16)) EmptyString)%string
  end.

(** [c.encode('unicode-escape')] for a one-character string. *)
Definition unicode_escape (c : char) : string :=
  if (c =? 92)%N then "\\"%string
  else if (c =? 9)%N then "\t"%string
  else if (c =? 10)%N then "\n"%string
  else if (c =? 13)%N then "\r"%string
  else if (32 <=? c)%N && (c <? 127)%N then String (ascii_of_N c) EmptyString
  else if (c <? 256)%N then ("\x" ++ hex 2 c)%string
  else if (c <? 65536)%N then ("\u" ++ hex 4 c)%string
  else ("\U" ++ hex 8 c)%string.

(** *** [config] *)

(** The text of the alternatives of a top-level-domain group, line by line
    as the pattern has it: the pattern is a raw triple-quoted string broken
    over several lines, so each line break puts a newline and a tab into an
    alternative. *)
Definition tld_source : str :=
  nl_tab ++ u "?:com|net|org|edu|gov|mil|aero|asia|biz|cat|coop|info|int|jobs|mobi|museum|name|post|pro|tel|travel|xxx|ac|ad|ae"
  ++ nl_tab ++ u "|af|ag|ai|al|am|an|ao|aq|ar|as|at|au|aw|ax|az|ba|bb|bd|be|bf|bg|bh|bi|bj|bm|bn|bo|br|bs|bt|bv|bw|by|bz|ca|cc|cd"
  ++ nl_tab ++ u "|cf|cg|ch|ci|ck|cl|cm|cn|co|cr|cs|cu|cv|cx|cy|cz|dd|de|dj|dk|dm|do|dz|ec|ee|eg|eh|er|es|et|eu|fi|fj|fk|fm|fo|fr"
  ++ nl_tab ++ u "|ga|gb|gd|ge|gf|gg|gh|gi|gl|gm|gn|gp|gq|gr|gs|gt|gu|gw|gy|hk|hm|hn|hr|ht|hu|id|ie|il|im|in|io|iq|ir|is|it|je|jm"
  ++ nl_tab ++ u "|jo|jp|ke|kg|kh|ki|km|kn|kp|kr|kw|ky|kz|la|lb|lc|li|lk|lr|ls|lt|lu|lv|ly|ma|mc|md|me|mg|mh|mk|ml|mm|mn|mo|mp|mq"
  ++ nl_tab ++ u "|mr|ms|mt|mu|mv|mw|mx|my|mz|na|nc|ne|nf|ng|ni|nl|no|np|nr|nu|nz|om|pa|pe|pf|pg|ph|pk|pl|pm|pn|pr|ps|pt|pw|py|qa"
  ++ nl_tab ++ u "|re|ro|rs|ru|rw|sa|sb|sc|sd|se|sg|sh|si|sj|Ja|sk|sl|sm|sn|so|sr|ss|st|su|sv|sx|sy|sz|tc|td|tf|tg|th|tj|tk|tl|tm"
  ++ nl_tab ++ u "|tn|to|tp|tr|tt|tv|tw|tz|ua|ug|uk|us|uy|uz|va|vc|ve|vg|vi|vn|vu|wf|ws|ye|yt|yu|za|zm|zw".

(** The group of top-level domains.  Its first alternative reads: a newline,
    an optional tab (the [?] of the intended [(?:] now applies to the tab)
    and [:com]; every other alternative is literal text. *)
Definition tld : regex :=
  match split tld_source (u "|") with
  | _ :: rest =>
      branch_of
        (seq_of [LITERAL 10%N; opt (LITERAL 9%N); lit (u ":com")] :: map lit rest)
  | [] => EMPTY
  end.

Definition alnum_set : list set_item :=
  [SetRange (ch "a") (ch "z"); SetRange (ch "0") (ch "9")].

(** [(?:...)+] over the three forms of a path segment; the second form
    starts with the set [[\n\t^\s()]], which the line break left without its
    leading [^]. *)
Definition url_path : regex :=
  plus (branch_of
    [ plus (IN true (SetCat CATEGORY_SPACE :: lits (u "()<>{}[]")));
      seq_of [ LITERAL (ch "(");
               lazy_star (IN false (lits nl_tab ++ [SetLit (ch "^");
                                    SetCat CATEGORY_SPACE] ++ lits (u "()")));
               LITERAL (ch "(");
               plus (IN true (SetCat CATEGORY_SPACE :: lits (u "()")));
               LITERAL (ch ")");
               lazy_star (IN true (SetCat CATEGORY_SPACE :: lits (u "()")));
               LITERAL (ch ")") ];
      seq_of [ LITERAL (ch "(");
               lazy_plus (IN true [SetCat CATEGORY_SPACE]);
               LITERAL (ch ")") ] ]).

Definition url_end : regex :=
  branch_of
    [ seq_of [ LITERAL (ch "(");
               lazy_star (IN true (SetCat CATEGORY_SPACE :: lits (u "()")));
               LITERAL (ch "(");
               plus (IN true (SetCat CATEGORY_SPACE :: lits (u "()")));
               LITERAL (ch ")");
               lazy_star (IN true (SetCat CATEGORY_SPACE :: lits (u "()")));
               LITERAL (ch ")") ];
      seq_of [ LITERAL (ch "(");
               lazy_plus (IN true [SetCat CATEGORY_SPACE]);
               LITERAL (ch ")") ];
      IN true (SetCat CATEGORY_SPACE :: lits (u "`!()[]{") ++ lits nl_tab
               ++ lits (u "};:'") ++ [SetLit 34%N]
               ++ lits (u ".,<>?«»“”‘’")) ].

(** [config['url_pattern']]; its inline [(?i)] is the [ignorecase] flag. *)
Definition url_pattern : regex :=
  seq_of
    [ AT_BOUNDARY;
      branch_of
        [ seq_of
            [ branch_of
                [ seq_of [ lit (u "http"); opt (LITERAL (ch "s"));
                           LITERAL (ch ":");
                           branch_of
                             [ times 1 3 (LITERAL (ch "/"));
                               IN false (alnum_set ++ [SetLit (ch "%")]) ] ];
                  seq_of [ plus (IN false (alnum_set ++ lits (u ".-")));
                           IN false [SetLit (ch ".")];
                           tld;
                           LITERAL (ch "/") ] ];
              url_path;
              url_end ];
          seq_of
            [ ASSERT_NOT_BEHIND 1 (LITERAL (ch "@"));
              plus (IN false alnum_set);
              star (seq_of [ IN false (lits (u ".-"));
                             plus (IN false alnum_set) ]);
              IN false [SetLit (ch ".")];
              tld;
              AT_BOUNDARY;
              opt (LITERAL (ch "/"));
              ASSERT_NOT_AHEAD (LITERAL (ch "@")) ] ] ].

Definition word_set : list set_item :=
  [SetCat CATEGORY_WORD; SetCat CATEGORY_DIGIT; SetLit (ch "_")].

(** The three patterns of [config['latex_patterns']]; the first two differ
    in their brackets only. *)
Definition latex_delimited (opening closing : char) : regex :=
  seq_of [ LITERAL 92%N; LITERAL opening; lazy_plus ANY;
           LITERAL 92%N; LITERAL closing ].

Definition latex_display : regex := latex_delimited (ch "[") (ch "]").

Definition latex_inline : regex := latex_delimited (ch "(") (ch ")").

Definition latex_frac : regex :=
  seq_of [ LITERAL 92%N; lit (u "frac");
           LITERAL (ch "{"); plus (IN false word_set); LITERAL (ch "}");
           LITERAL (ch "{"); plus (IN false word_set); LITERAL (ch "}") ].

(** [config['latex_patterns']] *)
Definition latex_patterns : list regex :=
  [latex_display; latex_inline; latex_frac].

(** The two patterns of [config['numerical_patterns']]; the dot of the
    second is not escaped in the script. *)
Definition percent_pattern : regex :=
  seq_of [ plus digit;
           opt (seq_of [LITERAL (ch ","); plus digit]);
           LITERAL (ch "%") ].

Definition number_pattern : regex :=
  seq_of [ plus digit;
           opt (seq_of [ANY; times 3 3 digit]);
           opt (seq_of [LITERAL (ch ","); plus digit]) ].

(** [config['numerical_patterns']] *)
Definition numerical_patterns : list regex :=
  [percent_pattern; number_pattern].

(** The pattern of [config['currency_patterns']]. *)
Definition currency_pattern : regex :=
  seq_of [ LITERAL (ch "r"); LITERAL (ch "$"); opt space;
           times 1 3 digit;
           star (seq_of [LITERAL (ch "."); times 3 3 digit]);
           seq_of [LITERAL (ch ","); plus digit] ].

(** [config['currency_patterns']] *)
Definition currency_patterns : list regex := [currency_pattern].

(** The pattern [\s+] of the two whitespace substitutions. *)
Definition spaces : regex := plus space.

(** The set [[\w\dáéíóúàèìòùâêîôûãẽĩõũç]] of [remove_special_chars]. *)
Definition kept_set : list set_item :=
  [SetCat CATEGORY_WORD; SetCat CATEGORY_DIGIT]
  ++ lits (u "áéíóúàèìòùâêîôûãẽĩõũç").

Definition kept_chars : regex := IN false kept_set.

(** *** The world of the driver *)

Inductive entry : Type :=
| RegularFile (content : str)
| Directory.

(** What the driver sees and changes: the files, the texts submitted to the
    page, and the controls the page offers. *)
Record world : Type := {
  files : list (str * entry);
  submitted : list str;
  has_text_area : bool;
  has_export_button : bool
}.

Inductive error : Type :=
| ValueError
| NoSuchElementException.

(** A run ends normally, with an exception, or polls for ever. *)
Inductive outcome (A : Type) : Type :=
| Done (a : A)
| Raised (e : error)
| Waiting.

Arguments Done {A} a.
Arguments Raised {A} e.
Arguments Waiting {A}.

Definition bind {A B : Type} (m : outcome A) (f : A -> outcome B)
  : outcome B :=
  match m with
  | Done a => f a
  | Raised e => Raised e
  | Waiting => Waiting
  end.

(** *** The functions of the script *)

Section Script.

Variable db : database.

(** [BeautifulSoup(html, 'html.parser')]: the parser is a library. *)
Variable html_parser : str -> soup.

(** [tag_visible(element)] *)
Definition tag_visible (element : element) : bool :=
  if existsb (str_eqb (parent_name element))
       [u "style"; u "script"; u "head"; u "title"; u "meta"; document_name]
  then false
  else if is_comment element then false
  else true.

(** The body of [text_from_html] once the markup is parsed. *)
Definition text_from_soup (doc : soup) : str :=
  let elements := findAll_text doc in
  join (u " ") (map (fun element => strip (element_text element)) elements).

(** [text_from_html(html)] *)
Definition text_from_html (html : str) : str :=
  text_from_soup (html_parser html).

(** [replace_by_patterns(patterns, replace, text)]; every call passes
    [flags=re.I]. *)
Definition replace_by_patterns (patterns : list regex) (replace text : str)
  : str :=
  fold_left (fun text pattern => sub db true pattern replace text)
            patterns text.

(** The part of [clean_enunciado] that follows the extraction. *)
Definition clean_text (text : str) : str :=
  let text := replace_by_patterns [url_pattern] [] (lower db text) in
  let text := replace_by_patterns latex_patterns (u " latex ") text in
  let text := replace_by_patterns currency_patterns (u " BRL ") text in
  let text := replace_by_patterns numerical_patterns (u " número ") text in
  let text := sub db false spaces (u " ") text in
  strip text.

(** [clean_enunciado(html)] *)
Definition clean_enunciado (html : str) : str :=
  clean_text (text_from_html html).

(** The characters of [text] left by
    [re.sub(r"[\w\d...]", "", text, flags=re.I)]. *)
Definition special_chars (text : str) : str :=
  sub db true kept_chars [] text.

(** One round of the loop of [remove_special_chars]. *)
Definition replace_special (text : str) (c : char) : str :=
  match dict_get (unicode_escape c) to_replace with
  | Some new => replace_char c new text
  | None => text
  end.

(** [remove_special_chars(text)], the set [caracteres] being iterated in the
    order [caracteres]. *)
Definition remove_special_chars_in (caracteres : list char) (text : str)
  : str :=
  let text := fold_left replace_special caracteres text in
  let text := sub db true spaces (u " ") text in
  strip text.

(** [remove_special_chars(text)] with the set iterated in order of first
    occurrence. *)
Definition remove_special_chars (text : str) : str :=
  remove_special_chars_in (distinct (special_chars text)) text.

(** *** The driver ([__main__]) *)

Fixpoint lookup_path (path : str) (fs : list (str * entry)) : option entry :=
  match fs with
  | [] => None
  | (p, e) :: fs' => if str_eqb p path then Some e else lookup_path path fs'
  end.

Definition remove_path (path : str) (fs : list (str * entry))
  : list (str * entry) :=
  filter (fun pe => negb (str_eqb (fst pe) path)) fs.

(** [os.path.exists(path)] *)
Definition path_exists (w : world) (path : str) : bool :=
  match lookup_path path (files w) with
  | Some _ => true
  | None => false
  end.

Definition with_files (w : world) (fs : list (str * entry)) : world :=
  {| files := fs; submitted := submitted w;
     has_text_area := has_text_area w;
     has_export_button := has_export_button w |}.

(** [open(path, 'w')] followed by [write(content)] *)
Definition write_file (w : world) (path content : str) : world :=
  with_files w ((path, RegularFile content) :: remove_path path (files w)).

(** [rename_downloaded_file(original_file, new_file)]: nothing but the
    driver changes the files, so the wait for a missing file never ends. *)
Definition rename_downloaded_file (w : world) (original_file new_file : str)
  : outcome world :=
  match lookup_path original_file (files w) with
  | None => Waiting
  | Some (RegularFile content) =>
      Done (with_files w
              ((new_file, RegularFile content)
               :: remove_path new_file (remove_path original_file (files w))))
  | Some Directory => Raised ValueError
  end.

(** The settings of [config] that the driver reads. *)
Variable cwd : str.

(** The metrics file the page produces for a submitted text. *)
Variable metrics_of : str -> str.

Definition download_dir : str := cwd ++ u "/enunciados/coh-metrix".
Definition filename : str := u "data.csv".
Definition txt_dir : str := cwd ++ u "/enunciados/txt".

(** The path tested before a statement is processed. *)
Definition metrics_path (id_questao : str) : str :=
  download_dir ++ u "/" ++ id_questao ++ u ".csv".

(** The path the downloaded file is renamed to. *)
Definition renamed_path (id_questao : str) : str :=
  download_dir ++ u "/" ++ id_questao.

Definition txt_path (id_questao : str) : str :=
  txt_dir ++ u "/" ++ id_questao ++ u ".txt".

(** [inputText.clear(); inputText.send_keys(enunciado); inputText.submit()] *)
Definition submit (w : world) (enunciado : str) : outcome world :=
  if has_text_area w
  then Done {| files := files w;
               submitted := submitted w ++ [enunciado];
               has_text_area := has_text_area w;
               has_export_button := has_export_button w |}
  else Raised NoSuchElementException.

(** [exportButton.click()]: the browser saves the metrics of the text
    submitted last under the fixed name. *)
Definition click_export (w : world) (enunciado : str) : outcome world :=
  if has_export_button w
  then Done (write_file w (download_dir ++ u "/" ++ filename)
                        (metrics_of enunciado))
  else Raised NoSuchElementException.

(** The body of the loop over [questoes]. *)
Definition process (w : world) (q : str) : outcome world :=
  if 0 <? List.length (strip q) then
    match split q (u "#;#;#") with
    | [id_questao; enunciado] =>
        let id_questao := strip id_questao in
        if negb (path_exists w (metrics_path id_questao)) then
          let enunciado := clean_enunciado enunciado in
          let enunciado := remove_special_chars enunciado in
          let w := write_file w (txt_path id_questao) enunciado in
          bind (submit w enunciado) (fun w =>
          bind (click_export w enunciado) (fun w =>
          rename_downloaded_file w (download_dir ++ u "/" ++ filename)
                                 (renamed_path id_questao)))
        else Done w
    | _ => Raised ValueError
    end
  else Done w.

Fixpoint process_all (w : world) (questoes : list str) : outcome world :=
  match questoes with
  | [] => Done w
  | q :: rest => bind (process w q) (fun w => process_all w rest)
  end.

(** The loop of the driver over the content of the dataset file. *)
Definition run (w : world) (dataset : str) : outcome world :=
  process_all w (split dataset (u "#!#!#")).

End Script.

(** ** The pattern normaliser as the specification words it

    An ordered list of rewrite rules, each a set of patterns with one
    replacement, applied by a single fold over the list; every substitution
    is global and ignores case. *)

Record rewrite_rule : Type := {
  rule_patterns : list regex;
  rule_replacement : str
}.

Definition url_removal : rewrite_rule :=
  {| rule_patterns := [url_pattern]; rule_replacement := [] |}.

Definition latex_substitution : rewrite_rule :=
  {| rule_patterns := latex_patterns; rule_replacement := u " latex " |}.

Definition currency_substitution : rewrite_rule :=
  {| rule_patterns := currency_patterns; rule_replacement := u " BRL " |}.

Definition numeric_substitution : rewrite_rule :=
  {| rule_patterns := numerical_patterns; rule_replacement := u " número " |}.

Definition apply_rule (db : database) (text : str) (rule : rewrite_rule)
  : str :=
  fold_left
    (fun text pattern => sub db true pattern (rule_replacement rule) text)
    (rule_patterns rule) text.

Definition whitespace_collapse (db : database) (text : str) : str :=
  strip (sub db true spaces (u " ") text).

Definition pattern_normalizer (db : database) (text : str) : str :=
  whitespace_collapse db
    (fold_left (apply_rule db)
       [url_removal; latex_substitution; currency_substitution;
        numeric_substitution]
       text).

(** One stage applied to a text, for the statements about single stages. *)
Definition stage (db : database) (rule : rewrite_rule) (text : str) : str :=
  replace_by_patterns db (rule_patterns rule) (rule_replacement rule) text.

(** ** The transliterator, character by character *)

(** The character is matched by the set of [remove_special_chars], with
    [re.I]: it never enters [caracteres]. *)
Definition kept (db : database) (c : char) : bool :=
  set_matches db true false kept_set c.

(** What becomes of one character: a kept character and a character without
    an entry stay; any other character becomes its entry. *)
Definition transliterate (db : database) (c : char) : str :=
  if kept db c then [c]
  else match dict_get (unicode_escape c) to_replace with
       | Some new => new
       | None => [c]
       end.

(** What the loop of [remove_special_chars] has made of one character once
    the characters [done] have had their round. *)
Definition transliterate_in (done : list char) (c : char) : str :=
  if existsb (char_eqb c) done
  then match dict_get (unicode_escape c) to_replace with
       | Some new => new
       | None => [c]
       end
  else [c].

(** Every run of whitespace becomes one blank; [in_run] tells that the
    previous character was whitespace. *)
Fixpoint squeeze (in_run : bool) (s : str) : str :=
  match s with
  | [] => []
  | c :: s' =>
      if isspace c
      then if in_run then squeeze true s' else 32%N :: squeeze true s'
      else c :: squeeze false s'
  end.

(** The characters of [s] that are not whitespace. *)
Definition visible (s : str) : str :=
  filter (fun c => negb (isspace c)) s.

(** ** What the matcher computes, as a relation

    [matches r st st'] says that [r] can match from the position [st] to the
    position [st']; the matcher [exec] finds the first such [st'], in
    priority order, that its continuation accepts. *)

Section Semantics.

Variable db : database.
Variable ignorecase : bool.

(** The rounds of a repetition from round [n] on: a round before [lo] is
    made whatever it consumes, a later round only below [hi] and only if it
    consumes a character. *)
Inductive reps (R : state -> state -> Prop) (lo : nat) (hi : option nat)
  : nat -> state -> state -> Prop :=
| reps_stop : forall n st, lo <= n -> reps R lo hi n st st
| reps_forced : forall n st mid st',
    n < lo -> R st mid -> reps R lo hi (S n) mid st' ->
    reps R lo hi n st st'
| reps_more : forall n st mid st',
    lo <= n -> below n hi = true -> R st mid -> shorter mid st = true ->
    reps R lo hi (S n) mid st' ->
    reps R lo hi n st st'.

(** One character that passes [ok]. *)
Definition takes (ok : char -> bool) (st st' : state) : Prop :=
  exists t, step st = Some (t, st') /\ ok t = true.

Fixpoint matches (r : regex) (st st' : state) {struct r} : Prop :=
  match r with
  | LITERAL c => takes (literal_matches db ignorecase c) st st'
  | ANY => takes (fun t => negb (char_eqb t 10%N)) st st'
  | CATEGORY k => takes (in_category db k) st st'
  | IN negate items => takes (set_matches db ignorecase negate items) st st'
  | AT_BOUNDARY => at_boundary db st = true /\ st' = st
  | EMPTY => st' = st
  | SEQ r1 r2 => exists mid, matches r1 st mid /\ matches r2 mid st'
  | BRANCH r1 r2 => matches r1 st st' \/ matches r2 st st'
  | MAX_REPEAT lo hi r' => reps (matches r') lo hi 0 st st'
  | MIN_REPEAT lo hi r' => reps (matches r') lo hi 0 st st'
  | ASSERT_NOT_AHEAD r' => st' = st /\ forall e, ~ matches r' st e
  | ASSERT_NOT_BEHIND width r' =>
      st' = st /\
      forall st0, back width st = Some st0 -> forall e, ~ matches r' st0 e
  end.

(** [r] matches the word [w] wherever [w] stands. *)
Definition consumes (r : regex) (w : str) : Prop :=
  forall before s, matches r (before, w ++ s) (rev w ++ before, s).

(** [r] matches at the start of [s]. *)
Definition matches_prefix (r : regex) (s : str) : Prop :=
  exists w rest, s = w ++ rest /\ consumes r w.

(** Every character that an atom of [r] accepts passes [P]. *)
Fixpoint accepts_only (P : char -> bool) (r : regex) {struct r} : Prop :=
  match r with
  | LITERAL c =>
      forall t, literal_matches db ignorecase c t = true -> P t = true
  | ANY => forall t, negb (char_eqb t 10%N) = true -> P t = true
  | CATEGORY k => forall t, in_category db k t = true -> P t = true
  | IN negate items =>
      forall t, set_matches db ignorecase negate items t = true -> P t = true
  | AT_BOUNDARY => True
  | EMPTY => True
  | SEQ r1 r2 => accepts_only P r1 /\ accepts_only P r2
  | BRANCH r1 r2 => accepts_only P r1 /\ accepts_only P r2
  | MAX_REPEAT _ _ r' => accepts_only P r'
  | MIN_REPEAT _ _ r' => accepts_only P r'
  | ASSERT_NOT_AHEAD _ => True
  | ASSERT_NOT_BEHIND _ _ => True
  end.

End Semantics.

(** The pattern looks at nothing but the characters it consumes. *)
Fixpoint context_free (r : regex) : bool :=
  match r with
  | LITERAL _ | ANY | CATEGORY _ | IN _ _ | EMPTY => true
  | AT_BOUNDARY | ASSERT_NOT_AHEAD _ | ASSERT_NOT_BEHIND _ _ => false
  | SEQ r1 r2 | BRANCH r1 r2 => context_free r1 && context_free r2
  | MAX_REPEAT _ _ r' | MIN_REPEAT _ _ r' => context_free r'
  end.

(** The pattern can match without consuming a character. *)
Fixpoint nullable (r : regex) : bool :=
  match r with
  | LITERAL _ | ANY | CATEGORY _ | IN _ _ => false
  | AT_BOUNDARY | EMPTY | ASSERT_NOT_AHEAD _ | ASSERT_NOT_BEHIND _ _ => true
  | SEQ r1 r2 => nullable r1 && nullable r2
  | BRANCH r1 r2 => nullable r1 || nullable r2
  | MAX_REPEAT lo _ r' | MIN_REPEAT lo _ r' => (lo =? 0) || nullable r'
  end.

(** [st'] is [st] moved over the word [w]. *)
Definition moved (w : str) (st st' : state) : Prop :=
  snd st = w ++ snd st' /\ fst st' = rev w ++ fst st.

(** A word that is not empty and made of characters that pass [P]. *)
Definition word_of (P : char -> bool) (w : str) : Prop :=
  w <> [] /\ forallb P w = true.

(** The last component of a sequence. *)
Fixpoint last_part (r : regex) : regex :=
  match r with
  | SEQ _ r2 => last_part r2
  | _ => r
  end.

(** The characters that a match of the currency pattern can hold. *)
Definition currency_char (db : database) (t : char) : bool :=
  char_eqb (tolower db t) 114%N || char_eqb t 36%N || isspace t
  || isdecimal db t || char_eqb t 46%N || char_eqb t 44%N.

Definition not_blank (t : char) : bool := negb (char_eqb t 32%N).

Definition not_newline (t : char) : bool := negb (char_eqb t 10%N).

(** The non-empty suffixes of a string. *)
Fixpoint tails (l : str) : list str :=
  match l with
  | [] => []
  | _ :: l' => l :: tails l'
  end.

(** Further on in [o], with no newline on the way, stands a backslash
    followed by [closing]. *)
Definition closes (closing : char) (o : str) : Prop :=
  exists y rest,
    o = y ++ 92%N :: closing :: rest /\ forallb not_newline y = true.

(** [s] starts with a backslash and [opening], then at least one character,
    and is closed in the same line. *)
Definition delimited (opening closing : char) (s : str) : Prop :=
  exists c rest,
    s = 92%N :: opening :: c :: rest /\ not_newline c = true /\
    closes closing rest.

(** [o] is [s] with some words that pass [W] replaced by [repl]; a character
    that is kept stands where [M] does not hold. *)
Inductive rewritten (M W : str -> Prop) (repl : str) : str -> str -> Prop :=
| rewritten_nil : rewritten M W repl [] []
| rewritten_keep : forall c s o,
    ~ M (c :: s) -> rewritten M W repl s o ->
    rewritten M W repl (c :: s) (c :: o)
| rewritten_word : forall w s o,
    W w -> rewritten M W repl s o ->
    rewritten M W repl (w ++ s) (repl ++ o).

(** The text is rewritten with the token " latex " in place of words made
    of one line. *)
Definition latexed (M : str -> Prop) (s o : str) : Prop :=
  rewritten M (word_of not_newline) (u " latex ") s o.

(** A character that can stand in a match of the fraction pattern. *)
Definition in_formula (t : char) : bool := not_blank t && not_newline t.

(** [M] holds at no position of [text]. *)
Definition nowhere (M : str -> Prop) (text : str) : Prop :=
  forall pre suf, text = pre ++ suf -> ~ M suf.

(** The three LaTeX patterns, as properties of the text at a position. *)
Definition display_at (db : database) : str -> Prop :=
  matches_prefix db true latex_display.
Definition inline_at (db : database) : str -> Prop :=
  matches_prefix db true latex_inline.
Definition frac_at (db : database) : str -> Prop :=
  matches_prefix db true latex_frac.

(** Boolean goals that a trailing [true] of a disjunction settles. *)
Ltac orb_true :=
  repeat rewrite ?orb_true_r, ?orb_true_l; reflexivity.

(** ** Sample data for the evaluations *)

Module Sample.

(** A page holding a script, a style sheet, a comment and a paragraph, as
    [html.parser] builds it from
    [<script>alert(1)</script><style>p{}</style><!--nota--><p>Oi</p>]. *)
Definition page : soup :=
  [ Tag (u "script") [Text Script (u "alert(1)")];
    Tag (u "style") [Text Stylesheet (u "p{}")];
    Text Comment (u "nota");
    Tag (u "p") [Text NavigableString (u "Oi")] ].

Definition paragraph_html : str := u "<p>Calcule 2+2</p>".

(** A parser that knows the one fragment of the sample dataset. *)
Definition parser (html : str) : soup :=
  if str_eqb html paragraph_html
  then [Tag (u "p") [Text NavigableString (u "Calcule 2+2")]]
  else [].

Definition dataset : str := u "q1#;#;#<p>Calcule 2+2</p>#!#!#".

(** An empty download directory and a page with both controls. *)
Definition fresh : world :=
  {| files := []; submitted := [];
     has_text_area := true; has_export_button := true |}.

Definition run_once (w : world) : outcome world :=
  run Unicode.ref parser (u "/home") (fun text => text) w dataset.

Definition submitted_after (o : outcome world) : list str :=
  match o with
  | Done w => submitted w
  | _ => []
  end.

End Sample.

(** ** Single-spaced texts *)

(** A text with no whitespace at either end, in which every whitespace
    character is a blank and no two of them are adjacent. *)
Definition single_spaced (t : str) : Prop :=
  (forall c, In c t -> isspace c = true -> c = 32%N) /\
  (forall pre a b suf,
     t = pre ++ a :: b :: suf -> isspace a = true -> isspace b = false) /\
  (forall c rest, t = c :: rest -> isspace c = false) /\
  (forall pre c, t = pre ++ [c] -> isspace c = false).

(** The number of occurrences of [c] in [s]. *)
Definition occurrences (c : char) (s : str) : nat :=
  List.length (filter (char_eqb c) s).

(** ** The metrics aggregator *)

Module Aggregator.

(** A [DataFrame] as [read_csv] returns it: its columns in order, each with
    its label and its cells; all columns have the same number of cells. *)
Definition frame : Type := list (str * list str).

(** The exceptions of the aggregator; [OSError] stands for whatever
    [read_csv] raises on a path it cannot read as a table. *)
Inductive error : Type :=
| KeyError
| AttributeError
| ValueError
| OSError.

Inductive result (A : Type) : Type :=
| Ok (a : A)
| Err (e : error).

Arguments Ok {A} a.
Arguments Err {A} e.

Definition bind {A B : Type} (m : result A) (f : A -> result B) : result B :=
  match m with
  | Ok a => f a
  | Err e => Err e
  end.

(** [s.replace(old, new)] for a non-empty [old]. *)
Definition replace (s old new : str) : str := join new (split s old).

Fixpoint column (label : str) (df : frame) : option (list str) :=
  match df with
  | [] => None
  | (l, cells) :: df' => if str_eqb l label then Some cells else column label df'
  end.

Definition has_column (df : frame) (label : str) : bool :=
  match column label df with
  | Some _ => true
  | None => false
  end.

(** [df.drop(columns=labels, inplace=True)] *)
Definition drop (labels : list str) (df : frame) : result frame :=
  if forallb (has_column df) labels
  then Ok (filter (fun col => negb (existsb (str_eqb (fst col)) labels)) df)
  else Err KeyError.

(** [df.label]: the column as an attribute. *)
Definition attribute (label : str) (df : frame) : result (list str) :=
  match column label df with
  | Some cells => Ok cells
  | None => Err AttributeError
  end.

(** The frame that collects the metrics: the index made of the metric names
    and one column for each question. *)
Record collected : Type := {
  index : list str;
  columns : list (str * list str)
}.

(** The columns after [df[label] = values]: a column of that label is
    overwritten where it stands, a new one is put last. *)
Fixpoint set_column (label : str) (values : list str)
         (cols : list (str * list str)) : list (str * list str) :=
  match cols with
  | [] => [(label, values)]
  | (l, old) :: cols' =>
      if str_eqb l label then (l, values) :: cols'
      else (l, old) :: set_column label values cols'
  end.

(** The decimal digits of [n] before [acc]. *)
Fixpoint digits (fuel : nat) (n : N) (acc : str) : str :=
  match fuel with
  | O => acc
  | S fuel' =>
      let acc' := (48 + n mod 10)%N :: acc in
      if (n / 10 =? 0)%N then acc' else digits fuel' (n / 10) acc'
  end.

(** The labels of a [RangeIndex] of [n] positions. *)
Definition positions (n : nat) : list str :=
  map (fun i => digits (S i) (N.of_nat i) []) (seq 0 n).

(** A cell without a value ([NaN]), which [to_csv] writes as an empty
    cell. *)
Definition missing : str := [].

(** [df[label] = values] for an array [values].  A frame whose index is
    empty takes the positions of a non-empty array as its index, and the
    columns it has are filled with missing cells
    ([DataFrame._ensure_valid_index]); otherwise the array must be as long as
    the index. *)
Definition assign (label : str) (values : list str) (df : collected)
  : result collected :=
  if (List.length (index df) =? 0) && (0 <? List.length values)
  then Ok {| index := positions (List.length values);
             columns :=
               set_column label values
                 (map (fun col : str * list str =>
                         (fst col, repeat missing (List.length values)))
                      (columns df)) |}
  else if List.length values =? List.length (index df)
  then Ok {| index := index df;
             columns := set_column label values (columns df) |}
  else Err ValueError.

(** The table written by [to_csv] after the transposition: the metric names
    as the header and one row for each question. *)
Record table : Type := {
  header : list str;
  rows : list (str * list str)
}.

Definition transpose (df : collected) : table :=
  {| header := index df; rows := columns df |}.

(** Every column has as many cells as the index, and no two columns share
    a label. *)
Definition rectangular (d : collected) : Prop :=
  (forall l v, In (l, v) (columns d) -> List.length v = List.length (index d))
  /\ NoDup (map fst (columns d)).

(** The label of the column of an entry: [entry.name.replace('.csv', '')] *)
Definition question (name : str) : str := replace name (u ".csv") [].

Section Merge.

(** [os.scandir(path)]: the names of the entries, in the order the system
    lists them. *)
Variable scandir : str -> list str.

(** [pd.read_csv(path)] *)
Variable read_csv : str -> result frame.

(** One round of the loop over the entries. *)
Definition merge_entry (path : str) (df : option collected) (name : str)
  : result (option collected) :=
  bind (read_csv (path ++ u "/" ++ name)) (fun df_cohmetrix =>
  bind (drop [u "Unnamed: 0"; u "Group"] df_cohmetrix) (fun df_cohmetrix =>
  bind (match df with
        | None =>
            bind (attribute (u "Metric") df_cohmetrix) (fun metric =>
            Ok {| index := metric; columns := [] |})
        | Some df => Ok df
        end) (fun df =>
  bind (attribute (u "Value") df_cohmetrix) (fun values =>
  bind (assign (question name) values df) (fun df =>
  Ok (Some df)))))).

(** The entry [name] of [path] is a table that has the two columns to drop
    and the column [Value], with the cells [values]. *)
Definition well_formed (path name : str) (csv : frame) (values : list str)
  : Prop :=
  read_csv (path ++ u "/" ++ name) = Ok csv /\
  has_column csv (u "Unnamed: 0") = true /\
  has_column csv (u "Group") = true /\
  column (u "Value") csv = Some values.

Fixpoint merge_entries (path : str) (df : option collected)
         (entries : list str) : result (option collected) :=
  match entries with
  | [] => Ok df
  | name :: rest =>
      bind (merge_entry path df name) (fun df => merge_entries path df rest)
  end.

(** [merge_metrix_files(path, merged_filename)]: the file written, as its
    name and its table; [None.T] raises [AttributeError]. *)
Definition merge_metrix_files (path merged_filename : str)
  : result (str * table) :=
  bind (merge_entries path None (scandir path)) (fun df =>
  match df with
  | None => Err AttributeError
  | Some df => Ok (merged_filename, transpose df)
  end).

End Merge.

End Aggregator.

(** ** Further sample data *)

Module Examples.

(** A download directory in which the question [q1] has its metrics file. *)
Definition resumed : world :=
  {| files := [(u "/home/enunciados/coh-metrix/q1.csv",
                RegularFile (u "metrics"))];
     submitted := [];
     has_text_area := true; has_export_button := true |}.

(** Two metrics files of two rows each. *)
Definition metrics_file (a b : str) : Aggregator.frame :=
  [ (u "Unnamed: 0", [u "0"; u "1"]);
    (u "Metric", [u "words"; u "sentences"]);
    (u "Value", [a; b]);
    (u "Group", [u "basic"; u "basic"]) ].

Definition scandir (path : str) : list str :=
  if str_eqb path (u "/m") then [u "q1"; u "q2.csv"] else [].

Definition read_csv (path : str) : Aggregator.result Aggregator.frame :=
  if str_eqb path (u "/m/q1") then Aggregator.Ok (metrics_file (u "10") (u "2"))
  else if str_eqb path (u "/m/q2.csv")
  then Aggregator.Ok (metrics_file (u "7") (u "1"))
  else Aggregator.Err Aggregator.OSError.

(** The table of the two files. *)
Definition merged : Aggregator.table :=
  {| Aggregator.header := [u "words"; u "sentences"];
     Aggregator.rows := [(u "q1", [u "10"; u "2"]);
                         (u "q2", [u "7"; u "1"])] |}.

End Examples.

(** * Properties *)

Unset Implicit Arguments.

(** ** The extractor *)

(** C1.  [text_from_html] joins the text of every string node: on a page
    with a script, a style sheet and a comment, the three bodies are in the
    output, although [tag_visible] rejects each of them.  The function
    [tag_visible] is defined by the script and never called. *)
Theorem text_from_soup_keeps_invisible_text :
  text_from_soup Sample.page = u "alert(1) p{} nota Oi" /\
  map tag_visible (findAll_text Sample.page) = [false; false; false; true].
Proof. split; vm_compute; reflexivity. Qed.

(** ** The currency and numeric stages on the sample sentence *)

(** C3, as stated: the two stages alone do not give the single-spaced
    sentence; each token comes with a blank on either side. *)
Lemma currency_numeric_stages_leave_padding :
  stage Unicode.ref numeric_substitution
    (stage Unicode.ref currency_substitution
       (u "Valor: R$ 1.234,56 e 10% de 50"))
  <> u "Valor: BRL e número de número".
Proof. vm_compute. discriminate. Qed.

(** C3, amended.  The currency stage followed by the numeric stage turns the
    sentence into "Valor:  BRL  e  número  de  número " (the money amount is
    one BRL token, the percentage one token, the last integer one token);
    the whitespace collapse and trim of [clean_enunciado] then give
    "Valor: BRL e número de número". *)
Theorem currency_numeric_stages_then_collapse :
  let staged :=
    stage Unicode.ref numeric_substitution
      (stage Unicode.ref currency_substitution
         (u "Valor: R$ 1.234,56 e 10% de 50")) in
  staged = u "Valor:  BRL  e  número  de  número " /\
  stage Unicode.ref currency_substitution (u "Valor: R$ 1.234,56 e 10% de 50")
    = u "Valor:  BRL  e 10% de 50" /\
  sub Unicode.ref true (hd EMPTY numerical_patterns) (u " número ")
      (u "Valor:  BRL  e 10% de 50")
    = u "Valor:  BRL  e  número  de 50" /\
  strip (sub Unicode.ref false spaces (u " ") staged)
    = u "Valor: BRL e número de número".
Proof. repeat split; vm_compute; reflexivity. Qed.

(** ** The driver *)

(** C8, as stated: a block that is not blank and has no id/markup delimiter
    is not skipped; the unpacking of [q.split('#;#;#')] raises. *)
Lemma process_raises_on_block_without_delimiter :
  process Unicode.ref Sample.parser (u "/home") (fun text => text)
          Sample.fresh (u "sem delimitador")
  = Raised ValueError.
Proof. vm_compute. reflexivity. Qed.

(** C8, amended.  A block that is blank after trimming is skipped and leaves
    the world as it is; a block that is not blank and does not split into
    exactly two parts at the delimiter makes the driver raise [ValueError]. *)
Theorem process_blank_skipped_malformed_raises :
  forall db parser cwd metrics_of w q,
    (strip q = [] -> process db parser cwd metrics_of w q = Done w) /\
    (strip q <> [] -> List.length (split q (u "#;#;#")) <> 2 ->
     process db parser cwd metrics_of w q = Raised ValueError).
Proof.
  intros db parser cwd metrics_of w q. split.
  - intros Hblank. unfold process. rewrite Hblank. reflexivity.
  - intros Hnonblank Hparts. unfold process.
    destruct (strip q) as [|c rest] eqn:Hs; [congruence|].
    cbn [List.length Nat.ltb Nat.leb].
    destruct (split q (u "#;#;#")) as [|a [|b [|c' l]]]; try reflexivity.
    exfalso. apply Hparts. reflexivity.
Qed.

Lemma process_blank_skipped_malformed_raises_witness :
  process Unicode.ref Sample.parser (u "/home") (fun text => text)
          Sample.fresh [32; 10]%N = Done Sample.fresh /\
  process Unicode.ref Sample.parser (u "/home") (fun text => text)
          Sample.fresh (u "a#;#;#b#;#;#c") = Raised ValueError.
Proof.
  split.
  - apply (proj1 (process_blank_skipped_malformed_raises
                    Unicode.ref Sample.parser (u "/home") (fun text => text)
                    Sample.fresh [32; 10]%N)).
    reflexivity.
  - apply (proj2 (process_blank_skipped_malformed_raises
                    Unicode.ref Sample.parser (u "/home") (fun text => text)
                    Sample.fresh (u "a#;#;#b#;#;#c"))).
    + vm_compute. discriminate.
    + vm_compute. discriminate.
Defined.

(** C9.  The test made before a statement is processed looks for
    [<download_dir>/<id>.csv]; the rename after the download produces
    [<download_dir>/<id>].  After a complete first run over the sample
    dataset the tested path does not exist, and a second run submits the
    same statement again. *)
Theorem rerun_submits_completed_statement_again :
  exists w1,
    Sample.run_once Sample.fresh = Done w1 /\
    path_exists w1 (renamed_path (u "/home") (u "q1")) = true /\
    path_exists w1 (metrics_path (u "/home") (u "q1")) = false /\
    submitted w1 = [u "calcule número mais número"] /\
    Sample.submitted_after (Sample.run_once w1)
      = [u "calcule número mais número"; u "calcule número mais número"].
Proof.
  eexists. split; [vm_compute; reflexivity|].
  repeat split; vm_compute; reflexivity.
Qed.

(** ** General facts about [re.sub] *)

Section SubFacts.

Variable db : database.
Variable ignorecase : bool.
Variable r : regex.
Variable repl : str.

Lemma sub_scan_nil :
  forall before,
    sub_scan db ignorecase r repl before [] 0
    = match match_at db ignorecase r (before, []) with
      | Some _ => repl ++ []
      | None => []
      end.
Proof. reflexivity. Qed.

Lemma sub_scan_cons :
  forall before c s,
    sub_scan db ignorecase r repl before (c :: s) 0
    = match match_at db ignorecase r (before, c :: s) with
      | Some e =>
          repl ++
          match List.length (c :: s) - List.length (snd e) with
          | O => c :: sub_scan db ignorecase r repl (c :: before) s 0
          | S n => sub_scan db ignorecase r repl (c :: before) s n
          end
      | None => c :: sub_scan db ignorecase r repl (c :: before) s 0
      end.
Proof. reflexivity. Qed.

Lemma sub_scan_skip1 :
  forall before c s n,
    sub_scan db ignorecase r repl before (c :: s) (S n)
    = sub_scan db ignorecase r repl (c :: before) s n.
Proof. reflexivity. Qed.

(** Every character of the result comes from the replacement or from the
    subject. *)
Lemma sub_scan_In :
  forall s before skip c,
    In c (sub_scan db ignorecase r repl before s skip) ->
    In c repl \/ In c s.
Proof.
  induction s as [|x s IH]; intros before skip c.
  - destruct skip; [rewrite sub_scan_nil|cbn; auto].
    destruct (match_at db ignorecase r (before, [])); cbn;
      rewrite ?app_nil_r; auto.
  - destruct skip as [|n]; [rewrite sub_scan_cons|rewrite sub_scan_skip1].
    + destruct (match_at db ignorecase r (before, x :: s)) as [e|].
      * intros Hin. apply in_app_or in Hin. destruct Hin as [Hin|Hin]; auto.
        destruct (List.length (x :: s) - List.length (snd e)).
        -- destruct Hin as [->|Hin]; [right; left; reflexivity|].
           apply IH in Hin. destruct Hin; auto. right; right; assumption.
        -- apply IH in Hin. destruct Hin; auto. right; right; assumption.
      * intros [->|Hin]; [right; left; reflexivity|].
        apply IH in Hin. destruct Hin; auto. right; right; assumption.
    + intros Hin. apply IH in Hin. destruct Hin; auto.
      right; right; assumption.
Qed.

Lemma sub_In :
  forall text c, In c (sub db ignorecase r repl text) ->
                 In c repl \/ In c text.
Proof. intros text c. apply sub_scan_In. Qed.

End SubFacts.

(** The scan depends on the pattern only through [match_at]. *)
Lemma sub_scan_ext :
  forall db ic r db' ic' r' repl,
    (forall st, match_at db ic r st = match_at db' ic' r' st) ->
    forall s before skip,
      sub_scan db ic r repl before s skip
      = sub_scan db' ic' r' repl before s skip.
Proof.
  intros db ic r db' ic' r' repl Hm s.
  induction s as [|c s IH]; intros before skip.
  - destruct skip; [|reflexivity].
    rewrite !sub_scan_nil, Hm. reflexivity.
  - destruct skip as [|n].
    + rewrite !sub_scan_cons, Hm.
      destruct (match_at db' ic' r' (before, c :: s)) as [e|].
      * destruct (List.length (c :: s) - List.length (snd e));
          rewrite IH; reflexivity.
      * rewrite IH. reflexivity.
    + rewrite !sub_scan_skip1. apply IH.
Qed.

(** [re.I] makes no difference to [\s+]. *)
Lemma spaces_ignore_case :
  forall db repl text,
    sub db false spaces repl text = sub db true spaces repl text.
Proof.
  intros db repl text. unfold sub. apply sub_scan_ext.
  intros st. reflexivity.
Qed.

(** ** The order of the rewrite stages *)

(** C2.  [clean_enunciado] is the pattern normaliser of the specification
    applied to the lower-cased extracted text: URL removal (replacement
    empty), then the LaTeX patterns (" latex "), then the currency pattern
    (" BRL "), then the numeric patterns (" número "), each a case-blind
    global substitution run over the whole text before the next starts,
    and last the whitespace collapse and trim. *)
Theorem clean_enunciado_applies_stages_in_order :
  forall db parser html,
    clean_enunciado db parser html
    = pattern_normalizer db (lower db (text_from_html parser html)) /\
    pattern_normalizer db (lower db (text_from_html parser html))
    = strip (sub db true spaces (u " ")
        (stage db numeric_substitution
          (stage db currency_substitution
            (stage db latex_substitution
              (stage db url_removal
                 (lower db (text_from_html parser html))))))).
Proof.
  intros db parser html. split.
  - unfold clean_enunciado, clean_text, pattern_normalizer,
      whitespace_collapse.
    rewrite spaces_ignore_case. reflexivity.
  - reflexivity.
Qed.

(** ** Whitespace: [strip] and the substitution of [\s+] *)

Lemma lstrip_app_one :
  forall a c,
    lstrip (a ++ [c])
    = if forallb isspace a
      then (if isspace c then [] else [c])
      else lstrip a ++ [c].
Proof.
  induction a as [|x a IH]; intros c; cbn.
  - destruct (isspace c); reflexivity.
  - destruct (isspace x) eqn:Hx; cbn; [apply IH|reflexivity].
Qed.

Lemma lstrip_nil_iff :
  forall s, lstrip s = [] <-> forallb isspace s = true.
Proof.
  induction s as [|x s IH]; cbn; [tauto|].
  destruct (isspace x); cbn; [exact IH|].
  split; discriminate.
Qed.

Lemma forallb_isspace_rev :
  forall s, forallb isspace (rev s) = forallb isspace s.
Proof.
  induction s as [|x s IH]; [reflexivity|].
  cbn. rewrite forallb_app, IH. cbn.
  rewrite andb_true_r. apply andb_comm.
Qed.

(** [rstrip] read from the left. *)
Lemma rstrip_cons :
  forall c s,
    rstrip (c :: s)
    = if forallb isspace (c :: s) then [] else c :: rstrip s.
Proof.
  intros c s. unfold rstrip. cbn [rev].
  rewrite lstrip_app_one, forallb_isspace_rev. cbn [forallb].
  destruct (forallb isspace s) eqn:Hs.
  - rewrite andb_true_r.
    assert (Hn : lstrip (rev s) = []).
    { apply lstrip_nil_iff. rewrite forallb_isspace_rev. exact Hs. }
    rewrite Hn. destruct (isspace c); reflexivity.
  - rewrite andb_false_r, rev_app_distr. reflexivity.
Qed.

Lemma rstrip_nil : rstrip [] = [].
Proof. reflexivity. Qed.

Lemma lstrip_all_space :
  forall s, forallb isspace s = true -> lstrip s = [].
Proof. intros s. apply lstrip_nil_iff. Qed.

Lemma rstrip_all_space :
  forall s, forallb isspace s = true -> rstrip s = [].
Proof.
  intros [|c s] H; [reflexivity|]. rewrite rstrip_cons, H. reflexivity.
Qed.

Lemma In_lstrip : forall s c, In c (lstrip s) -> In c s.
Proof.
  induction s as [|x s IH]; intros c; cbn; [tauto|].
  destruct (isspace x); cbn; auto.
Qed.

Lemma In_rstrip : forall s c, In c (rstrip s) -> In c s.
Proof.
  intros s c H. unfold rstrip in H.
  apply in_rev in H. apply In_lstrip in H. apply in_rev in H. exact H.
Qed.

Lemma In_strip : forall s c, In c (strip s) -> In c s.
Proof. intros s c H. apply In_lstrip, In_rstrip, H. Qed.

Lemma visible_cons :
  forall x s,
    visible (x :: s) = if isspace x then visible s else x :: visible s.
Proof. intros x s. unfold visible. cbn. destruct (isspace x); reflexivity. Qed.

Lemma visible_app : forall a b, visible (a ++ b) = visible a ++ visible b.
Proof. intros a b. apply filter_app. Qed.

Lemma visible_lstrip : forall s, visible (lstrip s) = visible s.
Proof.
  induction s as [|x s IH]; [reflexivity|].
  rewrite visible_cons. cbn [lstrip].
  destruct (isspace x) eqn:Hx; [exact IH|].
  rewrite visible_cons, Hx. reflexivity.
Qed.

Lemma visible_all_space :
  forall s, forallb isspace s = true -> visible s = [].
Proof.
  induction s as [|x s IH]; [reflexivity|].
  rewrite visible_cons. cbn [forallb].
  destruct (isspace x); cbn; [exact IH|discriminate].
Qed.

Lemma visible_rstrip : forall s, visible (rstrip s) = visible s.
Proof.
  induction s as [|x s IH]; [reflexivity|].
  rewrite rstrip_cons.
  destruct (forallb isspace (x :: s)) eqn:H.
  - symmetry. apply visible_all_space. exact H.
  - rewrite !visible_cons, IH. reflexivity.
Qed.

Lemma visible_strip : forall s, visible (strip s) = visible s.
Proof.
  intros s. unfold strip. rewrite visible_rstrip. apply visible_lstrip.
Qed.

Lemma lstrip_idem : forall s, lstrip (lstrip s) = lstrip s.
Proof.
  induction s as [|x s IH]; [reflexivity|].
  cbn. destruct (isspace x) eqn:Hx; [exact IH|].
  cbn. rewrite Hx. reflexivity.
Qed.

Lemma forallb_isspace_rstrip :
  forall s, forallb isspace (rstrip s) = forallb isspace s.
Proof.
  induction s as [|x s IH]; [reflexivity|].
  rewrite rstrip_cons.
  destruct (forallb isspace (x :: s)) eqn:H; [reflexivity|].
  cbn [forallb] in *. rewrite IH. exact H.
Qed.

Lemma rstrip_idem : forall s, rstrip (rstrip s) = rstrip s.
Proof.
  induction s as [|x s IH]; [reflexivity|].
  rewrite rstrip_cons.
  destruct (forallb isspace (x :: s)) eqn:H; [reflexivity|].
  rewrite rstrip_cons. cbn [forallb] in *.
  rewrite forallb_isspace_rstrip, H, IH. reflexivity.
Qed.

(** A string that does not start with whitespace still does not after
    [rstrip], unless nothing is left. *)
Lemma lstrip_rstrip_fixed :
  forall s, lstrip s = s -> lstrip (rstrip s) = rstrip s.
Proof.
  intros [|x s] H; [reflexivity|].
  rewrite rstrip_cons.
  destruct (forallb isspace (x :: s)) eqn:Ha; [reflexivity|].
  cbn in H |- *. destruct (isspace x) eqn:Hx; [|reflexivity].
  exfalso.
  assert (Hlen : List.length (lstrip s) <= List.length s).
  { clear. induction s as [|y s IH]; cbn; [lia|].
    destruct (isspace y); cbn; lia. }
  rewrite H in Hlen. cbn in Hlen. lia.
Qed.

Lemma strip_idem : forall s, strip (strip s) = strip s.
Proof.
  intros s. unfold strip.
  rewrite (lstrip_rstrip_fixed (lstrip s) (lstrip_idem s)).
  apply rstrip_idem.
Qed.

Lemma length_lstrip : forall s, List.length (lstrip s) <= List.length s.
Proof.
  induction s as [|y s IH]; cbn; [lia|].
  destruct (isspace y); cbn; lia.
Qed.

(** The greedy run of [\s] under the final continuation stops at the first
    character that is not whitespace. *)
Lemma max_loop_spaces :
  forall s before fuel n,
    1 <= n -> List.length s < fuel ->
    exists before',
      max_loop (one isspace) 1 None (fun e => Some e) fuel n (before, s)
      = Some (before', lstrip s).
Proof.
  induction s as [|c s IH]; intros before fuel n Hn Hfuel.
  - destruct fuel as [|fuel]; [cbn in Hfuel; lia|].
    exists before. cbn [max_loop].
    replace (n <? 1) with false by (symmetry; apply Nat.ltb_ge; lia).
    reflexivity.
  - destruct fuel as [|fuel]; [cbn in Hfuel; lia|].
    cbn [max_loop].
    replace (n <? 1) with false by (symmetry; apply Nat.ltb_ge; lia).
    cbn [below one step snd fst lstrip].
    destruct (isspace c) eqn:Hc.
    + assert (Hsh : shorter (c :: before, s) (before, c :: s) = true).
      { unfold shorter, snd. apply Nat.ltb_lt. cbn [List.length]. lia. }
      rewrite Hsh.
      destruct (IH (c :: before) fuel (S n)) as [b' Hb'];
        [lia|cbn in Hfuel; lia|].
      exists b'.
      match goal with
      | |- match ?x with _ => _ end = _ =>
          replace x with (Some (b', lstrip s)) by (symmetry; exact Hb')
      end.
      reflexivity.
    + exists before. reflexivity.
Qed.

Lemma match_at_spaces :
  forall db ic before s,
    match s with
    | c :: s' =>
        if isspace c
        then exists before',
               match_at db ic spaces (before, s) = Some (before', lstrip s')
        else match_at db ic spaces (before, s) = None
    | [] => match_at db ic spaces (before, s) = None
    end.
Proof.
  intros db ic before [|c s]; [reflexivity|].
  unfold match_at, spaces, plus, space. cbn [exec snd].
  replace (1 + List.length (c :: s) + 1) with (S (S (S (List.length s))))
    by (cbn; lia).
  cbn [max_loop Nat.ltb Nat.leb exec one step snd fst in_category].
  destruct (isspace c) eqn:Hc; [|reflexivity].
  apply (max_loop_spaces s (c :: before) (S (S (List.length s))) 1); lia.
Qed.

(** The substitution of [\s+] by one blank is [squeeze]. *)
Lemma sub_scan_spaces :
  forall db ic s,
    (forall before,
       sub_scan db ic spaces (u " ") before s 0 = squeeze false s) /\
    (forall before,
       sub_scan db ic spaces (u " ") before s
                (List.length s - List.length (lstrip s))
       = squeeze true s).
Proof.
  intros db ic. induction s as [|c s [IH0 IH1]].
  - split; intros before; reflexivity.
  - assert (H0 : forall before,
               sub_scan db ic spaces (u " ") before (c :: s) 0
               = squeeze false (c :: s)).
    { intros before. rewrite sub_scan_cons.
      pose proof (match_at_spaces db ic before (c :: s)) as Hm.
      cbn beta iota in Hm. cbn [squeeze].
      destruct (isspace c) eqn:Hc.
      - destruct Hm as [b' Hm]. rewrite Hm. cbn [snd].
        pose proof (length_lstrip s) as Hl.
        replace (List.length (c :: s) - List.length (lstrip s))
          with (S (List.length s - List.length (lstrip s)))
          by (cbn [List.length]; lia).
        rewrite IH1. reflexivity.
      - rewrite Hm, IH0. reflexivity. }
    split; [exact H0|].
    intros before. cbn [lstrip squeeze].
    destruct (isspace c) eqn:Hc.
    + pose proof (length_lstrip s) as Hl.
      replace (List.length (c :: s) - List.length (lstrip s))
        with (S (List.length s - List.length (lstrip s)))
        by (cbn [List.length]; lia).
      rewrite sub_scan_skip1. apply IH1.
    + rewrite Nat.sub_diag, H0. cbn [squeeze]. rewrite Hc. reflexivity.
Qed.

Lemma sub_spaces :
  forall db ic text, sub db ic spaces (u " ") text = squeeze false text.
Proof. intros db ic text. apply (sub_scan_spaces db ic text). Qed.

(** *** [squeeze] and [strip] *)

Lemma isspace_blank : isspace 32%N = true.
Proof. reflexivity. Qed.

Lemma squeeze_squeeze :
  forall s,
    squeeze false (squeeze false s) = squeeze false s /\
    squeeze true (squeeze true s) = squeeze true s.
Proof.
  induction s as [|c s [IHf IHt]]; [split; reflexivity|].
  cbn [squeeze]. destruct (isspace c) eqn:Hc; cbn [squeeze].
  - split; [|exact IHt].
    rewrite isspace_blank. rewrite IHt. reflexivity.
  - rewrite Hc, IHf. split; reflexivity.
Qed.

Lemma lstrip_squeeze :
  forall s b, lstrip (squeeze b s) = squeeze true s.
Proof.
  induction s as [|c s IH]; intros b; [reflexivity|].
  cbn [squeeze]. destruct (isspace c) eqn:Hc.
  - destruct b; [apply IH|].
    cbn [lstrip]. rewrite isspace_blank. apply IH.
  - cbn [lstrip]. rewrite Hc. reflexivity.
Qed.

Lemma squeeze_lstrip :
  forall s b, squeeze b (lstrip s) = squeeze true s.
Proof.
  induction s as [|c s IH]; intros b.
  - destruct b; reflexivity.
  - cbn [lstrip squeeze]. destruct (isspace c) eqn:Hc; [apply IH|].
    cbn [squeeze]. rewrite Hc. reflexivity.
Qed.

Lemma forallb_isspace_squeeze :
  forall s b, forallb isspace (squeeze b s) = forallb isspace s.
Proof.
  induction s as [|c s IH]; intros b; [reflexivity|].
  cbn [squeeze forallb]. destruct (isspace c) eqn:Hc; cbn [andb].
  - destruct b; [apply IH|].
    cbn [forallb]. rewrite isspace_blank. apply IH.
  - cbn [forallb]. rewrite Hc. reflexivity.
Qed.

Lemma squeeze_all_space :
  forall s, forallb isspace s = true -> squeeze true s = [].
Proof.
  induction s as [|c s IH]; [reflexivity|].
  cbn [forallb squeeze]. destruct (isspace c); cbn; [exact IH|discriminate].
Qed.

Lemma rstrip_squeeze :
  forall s b, rstrip (squeeze b s) = squeeze b (rstrip s).
Proof.
  induction s as [|c s IH]; intros b; [reflexivity|].
  rewrite rstrip_cons.
  destruct (forallb isspace (c :: s)) eqn:Ha.
  - change (squeeze b []) with (@nil char). apply rstrip_all_space.
    rewrite forallb_isspace_squeeze. exact Ha.
  - cbn [squeeze]. cbn [forallb] in Ha.
    destruct (isspace c) eqn:Hc; cbn [andb] in Ha.
    + destruct b; [apply IH|].
      rewrite rstrip_cons. cbn [forallb].
      rewrite forallb_isspace_squeeze, Ha, andb_false_r, IH. reflexivity.
    + rewrite rstrip_cons. cbn [forallb]. rewrite Hc. cbn [andb].
      rewrite IH. reflexivity.
Qed.

Lemma squeeze_strip :
  forall s, squeeze false (strip s) = strip (squeeze false s).
Proof.
  intros s. unfold strip.
  rewrite <- rstrip_squeeze, squeeze_lstrip, lstrip_squeeze. reflexivity.
Qed.

(** Collapsing whitespace and trimming is idempotent. *)
Lemma strip_squeeze_idem :
  forall s,
    strip (squeeze false (strip (squeeze false s)))
    = strip (squeeze false s).
Proof.
  intros s. rewrite squeeze_strip, strip_idem.
  destruct (squeeze_squeeze s) as [Hf _]. rewrite Hf. reflexivity.
Qed.

Lemma visible_squeeze : forall s b, visible (squeeze b s) = visible s.
Proof.
  induction s as [|c s IH]; intros b; [reflexivity|].
  cbn [squeeze]. rewrite visible_cons.
  destruct (isspace c) eqn:Hc.
  - destruct b; [apply IH|]. rewrite visible_cons.
    rewrite isspace_blank. apply IH.
  - rewrite visible_cons, Hc, IH. reflexivity.
Qed.

Lemma In_squeeze :
  forall s b c, In c (squeeze b s) -> c = 32%N \/ In c s.
Proof.
  induction s as [|x s IH]; intros b c; cbn [squeeze]; [intros []|].
  destruct (isspace x).
  - destruct b.
    + intros H. apply IH in H. destruct H; auto. right; right; assumption.
    + intros [<-|H]; [left; reflexivity|].
      apply IH in H. destruct H; auto. right; right; assumption.
  - intros [<-|H]; [right; left; reflexivity|].
    apply IH in H. destruct H; auto. right; right; assumption.
Qed.

(** ** The transliterator *)

Lemma char_eqb_eq : forall a b, char_eqb a b = true <-> a = b.
Proof. intros a b. apply N.eqb_eq. Qed.

Lemma char_eqb_refl : forall a, char_eqb a a = true.
Proof. intros a. apply N.eqb_refl. Qed.

Lemma existsb_char_eqb :
  forall c l, existsb (char_eqb c) l = true <-> In c l.
Proof.
  intros c l. rewrite existsb_exists. split.
  - intros [x [Hin Heq]]. apply char_eqb_eq in Heq. subst. exact Hin.
  - intros Hin. exists c. split; [exact Hin|apply char_eqb_refl].
Qed.

Lemma match_at_kept_chars :
  forall db before c s,
    match_at db true kept_chars (before, c :: s)
    = if kept db c then Some (c :: before, s) else None.
Proof.
  intros db before c s. unfold match_at, kept_chars, kept.
  cbn [exec one step snd fst]. reflexivity.
Qed.

(** [caracteres] holds the characters that the set does not match. *)
Lemma special_chars_filter :
  forall db text,
    special_chars db text = filter (fun c => negb (kept db c)) text.
Proof.
  intros db text. unfold special_chars, sub.
  assert (H : forall s before,
             sub_scan db true kept_chars [] before s 0
             = filter (fun c => negb (kept db c)) s).
  { induction s as [|c s IH]; intros before; [reflexivity|].
    rewrite sub_scan_cons, match_at_kept_chars. cbn [filter].
    destruct (kept db c); cbn [negb snd app].
    - replace (List.length (c :: s) - List.length s) with 1
        by (cbn [List.length]; lia).
      apply IH.
    - rewrite IH. reflexivity. }
  apply H.
Qed.

Lemma In_special_chars :
  forall db text c,
    In c (special_chars db text) <-> In c text /\ kept db c = false.
Proof.
  intros db text c. rewrite special_chars_filter, filter_In.
  rewrite negb_true_iff. tauto.
Qed.

Lemma dict_get_In :
  forall key d v, dict_get key d = Some v -> In (key, v) d.
Proof.
  intros key d v. induction d as [|[k w] d IH]; cbn; [discriminate|].
  destruct (String.eqb k key) eqn:Hk.
  - intros H. injection H as <-. apply String.eqb_eq in Hk. subst.
    left. reflexivity.
  - intros H. right. apply IH. exact H.
Qed.

(** No character of a replacement string has an entry of its own. *)
Lemma replacement_chars_have_no_entry :
  forall c new x,
    dict_get (unicode_escape c) to_replace = Some new ->
    In x new ->
    dict_get (unicode_escape x) to_replace = None.
Proof.
  intros c new x Hget Hin.
  apply dict_get_In in Hget.
  assert (Hall :
    forallb (fun kv =>
      forallb (fun y =>
        match dict_get (unicode_escape y) to_replace with
        | None => true
        | Some _ => false
        end) (snd kv)) to_replace = true) by (vm_compute; reflexivity).
  rewrite forallb_forall in Hall. specialize (Hall _ Hget).
  cbn [snd] in Hall. rewrite forallb_forall in Hall. specialize (Hall _ Hin).
  destruct (dict_get (unicode_escape x) to_replace); [discriminate|reflexivity].
Qed.

Lemma replace_char_absent :
  forall c new s, ~ In c s -> replace_char c new s = s.
Proof.
  intros c new s. unfold replace_char.
  induction s as [|x s IH]; intros Hn; [reflexivity|].
  cbn [flat_map]. destruct (char_eqb x c) eqn:Hx.
  - exfalso. apply Hn. left. apply char_eqb_eq. exact Hx.
  - cbn [app]. rewrite IH; [reflexivity|].
    intros H. apply Hn. right. exact H.
Qed.

Lemma flat_map_flat_map :
  forall (f g : char -> str) l,
    flat_map f (flat_map g l) = flat_map (fun x => flat_map f (g x)) l.
Proof.
  intros f g l. induction l as [|x l IH]; [reflexivity|].
  cbn [flat_map]. rewrite flat_map_app, IH. reflexivity.
Qed.

(** One round of the loop, on a text in which the characters [done] have
    had theirs. *)
Lemma replace_special_step :
  forall done c text,
    replace_special (flat_map (transliterate_in done) text) c
    = flat_map (transliterate_in (done ++ [c])) text.
Proof.
  intros done c text. unfold replace_special.
  destruct (dict_get (unicode_escape c) to_replace) as [new|] eqn:Hc.
  - unfold replace_char at 1. rewrite flat_map_flat_map.
    apply flat_map_ext. intros x.
    fold (replace_char c new (transliterate_in done x)).
    unfold transliterate_in. rewrite existsb_app. cbn [existsb].
    rewrite orb_false_r.
    destruct (existsb (char_eqb x) done) eqn:Hd; cbn [orb].
    + destruct (dict_get (unicode_escape x) to_replace) as [e|] eqn:Hx.
      * apply replace_char_absent. intros Hin.
        pose proof (replacement_chars_have_no_entry x e c Hx Hin). congruence.
      * apply replace_char_absent. intros [->|[]]. congruence.
    + unfold replace_char. cbn [flat_map].
      destruct (char_eqb x c) eqn:Hxc.
      * apply char_eqb_eq in Hxc. subst x. rewrite Hc. apply app_nil_r.
      * reflexivity.
  - apply flat_map_ext. intros x.
    unfold transliterate_in. rewrite existsb_app. cbn [existsb].
    rewrite orb_false_r.
    destruct (existsb (char_eqb x) done) eqn:Hd; cbn [orb]; [reflexivity|].
    destruct (char_eqb x c) eqn:Hxc; [|reflexivity].
    apply char_eqb_eq in Hxc. subst x. rewrite Hc. reflexivity.
Qed.

Lemma transliterate_in_nil :
  forall text, flat_map (transliterate_in []) text = text.
Proof.
  induction text as [|x s IH]; [reflexivity|].
  cbn [flat_map]. rewrite IH. reflexivity.
Qed.

(** The whole loop, whatever the order of the rounds. *)
Lemma fold_replace_special :
  forall order done text,
    fold_left replace_special order (flat_map (transliterate_in done) text)
    = flat_map (transliterate_in (done ++ order)) text.
Proof.
  induction order as [|c order IH]; intros done text.
  - rewrite app_nil_r. reflexivity.
  - cbn [fold_left]. rewrite replace_special_step, IH, <- app_assoc.
    reflexivity.
Qed.

Lemma flat_map_ext_In :
  forall (f g : char -> str) l,
    (forall x, In x l -> f x = g x) -> flat_map f l = flat_map g l.
Proof.
  intros f g l. induction l as [|x l IH]; intros H; [reflexivity|].
  cbn [flat_map]. rewrite (H x (or_introl eq_refl)), IH; [reflexivity|].
  intros y Hy. apply H. right. exact Hy.
Qed.

(** The transliterator, character by character: each character is
    transliterated on its own, then whitespace is collapsed and trimmed. *)
Lemma remove_special_chars_in_spec :
  forall db order text,
    iteration_of (special_chars db text) order ->
    remove_special_chars_in db order text
    = strip (squeeze false (flat_map (transliterate db) text)).
Proof.
  intros db order text [_ Horder]. unfold remove_special_chars_in.
  rewrite sub_spaces.
  rewrite <- (transliterate_in_nil text) at 1.
  rewrite fold_replace_special. cbn [app].
  do 2 f_equal. apply flat_map_ext_In. intros x Hx.
  unfold transliterate_in, transliterate.
  destruct (kept db x) eqn:Hk.
  - destruct (existsb (char_eqb x) order) eqn:He; [|reflexivity].
    apply existsb_char_eqb, Horder, In_special_chars in He.
    destruct He as [_ He]. congruence.
  - assert (He : existsb (char_eqb x) order = true).
    { apply existsb_char_eqb, Horder, In_special_chars. split; assumption. }
    rewrite He. reflexivity.
Qed.

Lemma NoDup_distinct : forall s, NoDup (distinct s).
Proof.
  induction s as [|c s IH]; cbn [distinct]; constructor.
  - rewrite filter_In, char_eqb_refl. cbn. intros [_ H]. discriminate.
  - apply NoDup_filter. exact IH.
Qed.

Lemma In_distinct : forall s c, In c (distinct s) <-> In c s.
Proof.
  induction s as [|x s IH]; intros c; cbn [distinct In]; [tauto|].
  rewrite filter_In, IH, negb_true_iff.
  destruct (char_eqb c x) eqn:Hcx.
  - apply char_eqb_eq in Hcx. subst. tauto.
  - tauto.
Qed.

(** The order of first occurrence is one of the iteration orders. *)
Lemma distinct_iteration : forall s, iteration_of s (distinct s).
Proof.
  intros s. split; [apply NoDup_distinct|].
  intros c. apply In_distinct.
Qed.

(** The result does not depend on the order in which the set is iterated. *)
Lemma remove_special_chars_any_order :
  forall db order text,
    iteration_of (special_chars db text) order ->
    remove_special_chars_in db order text = remove_special_chars db text.
Proof.
  intros db order text H. unfold remove_special_chars.
  rewrite !remove_special_chars_in_spec;
    [reflexivity|apply distinct_iteration|exact H].
Qed.

(** Where a character of a transliteration comes from. *)
Lemma In_transliterate :
  forall db x c,
    In c (transliterate db x) ->
    (c = x /\
     (kept db x = true \/ dict_get (unicode_escape x) to_replace = None))
    \/ exists new,
         dict_get (unicode_escape x) to_replace = Some new /\ In c new.
Proof.
  intros db x c. unfold transliterate.
  destruct (kept db x) eqn:Hkx.
  - intros [Hx|[]]. left. split; [symmetry; exact Hx|left; reflexivity].
  - destruct (dict_get (unicode_escape x) to_replace) as [new|] eqn:Hgx.
    + intros Hx. right. exists new. split; [reflexivity|exact Hx].
    + intros [Hx|[]]. left. split; [symmetry; exact Hx|right; reflexivity].
Qed.

Lemma blank_has_no_entry :
  dict_get (unicode_escape 32%N) to_replace = None.
Proof. vm_compute. reflexivity. Qed.

(** A character of the result that the set does not match has no entry. *)
Lemma result_chars_have_no_entry :
  forall db text c,
    In c (strip (squeeze false (flat_map (transliterate db) text))) ->
    kept db c = false ->
    dict_get (unicode_escape c) to_replace = None.
Proof.
  intros db text c Hin Hk.
  apply In_strip, In_squeeze in Hin.
  destruct Hin as [->|Hin]; [exact blank_has_no_entry|].
  apply in_flat_map in Hin. destruct Hin as [x [_ Hx]].
  apply In_transliterate in Hx.
  destruct Hx as [[-> [Hx|Hx]]|[new [Hg Hx]]].
  - congruence.
  - exact Hx.
  - apply (replacement_chars_have_no_entry x new c Hg Hx).
Qed.

Lemma fold_replace_special_no_entry :
  forall order text,
    (forall c, In c order -> dict_get (unicode_escape c) to_replace = None) ->
    fold_left replace_special order text = text.
Proof.
  induction order as [|c order IH]; intros text H; [reflexivity|].
  cbn [fold_left]. unfold replace_special at 2.
  rewrite (H c (or_introl eq_refl)). apply IH.
  intros x Hx. apply H. right. exact Hx.
Qed.

(** C5.  [remove_special_chars] is idempotent, in whatever order each of the
    two calls iterates over its set of special characters. *)
Theorem remove_special_chars_idempotent :
  forall db text order1 order2,
    iteration_of (special_chars db text) order1 ->
    iteration_of
      (special_chars db (remove_special_chars_in db order1 text)) order2 ->
    remove_special_chars_in db order2 (remove_special_chars_in db order1 text)
    = remove_special_chars_in db order1 text.
Proof.
  intros db text order1 order2 H1 H2.
  rewrite (remove_special_chars_in_spec db order1 text H1) in *.
  set (once := strip (squeeze false (flat_map (transliterate db) text))) in *.
  unfold remove_special_chars_in.
  rewrite fold_replace_special_no_entry.
  - rewrite sub_spaces. apply strip_squeeze_idem.
  - intros c Hc. destruct H2 as [_ H2].
    apply H2, In_special_chars in Hc. destruct Hc as [Hin Hk].
    apply (result_chars_have_no_entry db text c Hin Hk).
Qed.

Lemma remove_special_chars_idempotent_witness :
  remove_special_chars_in Unicode.ref [32; 46]%N
    (remove_special_chars_in Unicode.ref [59; 36; 32]%N (u "a;b $ α"))
  = remove_special_chars_in Unicode.ref [59; 36; 32]%N (u "a;b $ α").
Proof.
  apply (remove_special_chars_idempotent Unicode.ref (u "a;b $ α")
           [59; 36; 32]%N [32; 46]%N).
  - split.
    + repeat constructor; cbn; intuition discriminate.
    + intros c. vm_compute. tauto.
  - split.
    + repeat constructor; cbn; intuition discriminate.
    + intros c. vm_compute. tauto.
Defined.

(** C4.  The Greek alpha has the entry " alfa " in [to_replace], but the
    set of [remove_special_chars] starts with [\w], which matches every
    Unicode letter: alpha never enters [caracteres] and stays as it is. *)
Theorem remove_special_chars_keeps_alpha :
  dict_get (unicode_escape 945%N) to_replace = Some (u " alfa ") /\
  kept Unicode.ref 945%N = true /\
  special_chars Unicode.ref (u "o ângulo α") = u "  " /\
  remove_special_chars Unicode.ref (u "o ângulo α") = u "o ângulo α".
Proof. repeat split; vm_compute; reflexivity. Qed.

(** C7, as stated: the tab is outside the set and has no entry, yet it does
    not reach the output; the whitespace collapse turns it into a blank. *)
Lemma tab_does_not_pass_through :
  kept Unicode.ref 9%N = false /\
  dict_get (unicode_escape 9%N) to_replace = None /\
  In 9%N (u "a" ++ [9%N] ++ u "b") /\
  ~ In 9%N (remove_special_chars Unicode.ref (u "a" ++ [9%N] ++ u "b")).
Proof.
  repeat split; try (vm_compute; reflexivity).
  - right. left. reflexivity.
  - vm_compute. intuition discriminate.
Qed.

Lemma transliterate_no_entry :
  forall db c,
    dict_get (unicode_escape c) to_replace = None ->
    transliterate db c = [c].
Proof.
  intros db c H. unfold transliterate. rewrite H.
  destruct (kept db c); reflexivity.
Qed.

(** C7, amended.  A character that has no entry in the table and is not
    whitespace passes through: whitespace apart, the output is the
    transliteration of what precedes the character, the character itself,
    and the transliteration of what follows it.  The function is total, so
    nothing is raised.  (A whitespace character has no entry either; it is
    collapsed or trimmed.) *)
Theorem unknown_special_char_passes_through :
  forall db order pre c post,
    iteration_of (special_chars db (pre ++ c :: post)) order ->
    dict_get (unicode_escape c) to_replace = None ->
    isspace c = false ->
    visible (remove_special_chars_in db order (pre ++ c :: post))
    = visible (flat_map (transliterate db) pre)
      ++ c :: visible (flat_map (transliterate db) post).
Proof.
  intros db order pre c post Horder Hentry Hspace.
  rewrite (remove_special_chars_in_spec db order _ Horder).
  rewrite visible_strip, visible_squeeze, flat_map_app, visible_app.
  cbn [flat_map]. rewrite (transliterate_no_entry db c Hentry).
  cbn [app]. rewrite visible_cons, Hspace. reflexivity.
Qed.

Lemma unknown_special_char_passes_through_witness :
  visible (remove_special_chars_in Unicode.ref [46; 32; 36]%N
             (u "a" ++ 46%N :: u " b$"))
  = visible (flat_map (transliterate Unicode.ref) (u "a"))
    ++ 46%N :: visible (flat_map (transliterate Unicode.ref) (u " b$")).
Proof.
  apply (unknown_special_char_passes_through Unicode.ref [46; 32; 36]%N
           (u "a") 46%N (u " b$")).
  - split.
    + repeat constructor; cbn; intuition discriminate.
    + intros c. vm_compute. tauto.
  - vm_compute. reflexivity.
  - reflexivity.
Defined.

(** ** Letter case in the output of [clean_enunciado] *)

Lemma replace_by_patterns_In :
  forall db patterns repl text c,
    In c (replace_by_patterns db patterns repl text) ->
    In c repl \/ In c text.
Proof.
  intros db patterns repl. unfold replace_by_patterns.
  induction patterns as [|p ps IH]; intros text c; cbn [fold_left]; auto.
  intros H. apply IH in H. destruct H as [H|H]; auto.
  apply sub_In in H. exact H.
Qed.

(** Every character of the cleaned text comes from the lower-cased text or
    from one of the tokens. *)
Lemma clean_text_In :
  forall db text c,
    In c (clean_text db text) ->
    In c (lower db text) \/ In c (u " latex número") \/ In c (u "BRL").
Proof.
  intros db text c H. unfold clean_text in H.
  apply In_strip, sub_In in H.
  destruct H as [H|H]; [right; left; cbn in H |- *; tauto|].
  apply replace_by_patterns_In in H.
  destruct H as [H|H]; [right; left; cbn in H |- *; tauto|].
  apply replace_by_patterns_In in H.
  destruct H as [H|H]; [right; cbn in H |- *; tauto|].
  apply replace_by_patterns_In in H.
  destruct H as [H|H]; [right; left; cbn in H |- *; tauto|].
  apply replace_by_patterns_In in H.
  destruct H as [[]|H]. left. exact H.
Qed.

Lemma latin1_tolower :
  forall db c, latin1 db -> (c < 256)%N -> tolower db c = ref_tolower c.
Proof. intros db c H Hc. apply (H c Hc). Qed.

(** C10.  Given that the database agrees with the table on Latin-1 and that
    [str.lower()] returns only characters that lower-casing leaves alone,
    every character of the output of [clean_enunciado] is left alone by
    lower-casing, except the letters B, R and L of the currency token. *)
Theorem clean_enunciado_lowercase_except_BRL :
  forall db parser html c,
    latin1 db ->
    (forall s x, In x (lower db s) -> tolower db x = x) ->
    In c (clean_enunciado db parser html) ->
    tolower db c = c \/ In c (u "BRL").
Proof.
  intros db parser html c Hlatin Hlower Hin.
  unfold clean_enunciado in Hin. apply clean_text_In in Hin.
  destruct Hin as [Hin|[Hin|Hin]].
  - left. apply (Hlower _ _ Hin).
  - left. cbn in Hin.
    repeat (destruct Hin as [<-|Hin];
            [rewrite (latin1_tolower db _ Hlatin) by reflexivity;
             reflexivity|]).
    destruct Hin.
  - right. exact Hin.
Qed.

Lemma ref_latin1 : latin1 Unicode.ref.
Proof. intros c _. repeat split. Qed.

Lemma ref_tolower_fixed_above :
  forall y, (8000 <= y)%N -> ref_tolower y = y.
Proof.
  intros y Hy. unfold ref_tolower, between.
  repeat match goal with
         | |- context [(?a <=? ?b)%N] =>
             destruct (N.leb_spec a b); try lia; cbn [andb orb negb]
         | |- context [(?a =? ?b)%N] =>
             destruct (N.eqb_spec a b); try lia; cbn [andb orb negb]
         end.
  all: try reflexivity.
Qed.

Lemma ref_tolower_idem :
  forall y, ref_tolower (ref_tolower y) = ref_tolower y.
Proof.
  intros y. destruct (N.ltb_spec y 8000) as [Hy|Hy].
  - assert (Hall :
      forallb (fun n => N.eqb (ref_tolower (ref_tolower (N.of_nat n)))
                              (ref_tolower (N.of_nat n)))
              (seq 0 (N.to_nat 8000)) = true) by (vm_compute; reflexivity).
    rewrite forallb_forall in Hall.
    specialize (Hall (N.to_nat y)). rewrite N2Nat.id in Hall.
    apply N.eqb_eq, Hall, in_seq. lia.
  - rewrite (ref_tolower_fixed_above y Hy). apply ref_tolower_fixed_above, Hy.
Qed.

Lemma ref_lower_fixed :
  forall s x, In x (lower Unicode.ref s) -> tolower Unicode.ref x = x.
Proof.
  intros s x H. cbn [lower tolower Unicode.ref] in *. unfold ref_lower in H.
  apply in_flat_map in H. destruct H as [y [_ H]].
  destruct (y =? 304)%N.
  - destruct H as [<-|[<-|[]]]; reflexivity.
  - destruct H as [<-|[]]. apply ref_tolower_idem.
Qed.

Lemma clean_enunciado_lowercase_except_BRL_witness :
  In 66%N (clean_enunciado Unicode.ref
             (fun _ => [Tag (u "p") [Text NavigableString (u "Custa R$ 1,50")]])
             (u "<p>Custa R$ 1,50</p>")) /\
  (tolower Unicode.ref 66%N = 66%N \/ In 66%N (u "BRL")).
Proof.
  assert (Hin : In 66%N (clean_enunciado Unicode.ref
             (fun _ => [Tag (u "p") [Text NavigableString (u "Custa R$ 1,50")]])
             (u "<p>Custa R$ 1,50</p>"))).
  { vm_compute. right. right. right. right. right. right. left. reflexivity. }
  split; [exact Hin|].
  apply (clean_enunciado_lowercase_except_BRL Unicode.ref
           (fun _ => [Tag (u "p") [Text NavigableString (u "Custa R$ 1,50")]])
           (u "<p>Custa R$ 1,50</p>") 66%N ref_latin1 ref_lower_fixed Hin).
Defined.

(** ** The matcher and the relation [matches] *)

Lemma one_sound :
  forall ok st k e,
    one ok st k = Some e -> exists st', takes ok st st' /\ k st' = Some e.
Proof.
  intros ok st k e. unfold one, takes.
  destruct (step st) as [[t st']|]; [|discriminate].
  destruct (ok t) eqn:Hok; [|discriminate].
  intros H. exists st'. split; [exists t; split; [reflexivity|exact Hok]|exact H].
Qed.

Lemma one_complete :
  forall ok st st' k,
    takes ok st st' -> k st' <> None -> one ok st k <> None.
Proof.
  intros ok st st' k [t [Hstep Hok]] Hk. unfold one.
  rewrite Hstep, Hok. exact Hk.
Qed.

Lemma step_length :
  forall st t st',
    step st = Some (t, st') ->
    snd st = t :: snd st' /\ fst st' = t :: fst st.
Proof.
  intros [b s] t st'. unfold step. cbn [snd fst].
  destruct s as [|c s]; [discriminate|].
  intros H. injection H as <- <-. split; reflexivity.
Qed.

Lemma takes_le :
  forall ok st st',
    takes ok st st' -> List.length (snd st') < List.length (snd st).
Proof.
  intros ok st st' [t [Hstep _]]. apply step_length in Hstep.
  destruct Hstep as [-> _]. cbn [List.length]. lia.
Qed.

Section LoopFacts.

Variable body : state -> (state -> option state) -> option state.
Variable R : state -> state -> Prop.

Hypothesis body_sound :
  forall st k e, body st k = Some e -> exists st', R st st' /\ k st' = Some e.
Hypothesis body_complete :
  forall st st' k, R st st' -> k st' <> None -> body st k <> None.
Hypothesis R_le :
  forall st st', R st st' -> List.length (snd st') <= List.length (snd st).

Variable lo : nat.
Variable hi : option nat.
Variable k : state -> option state.

Lemma max_loop_sound :
  forall fuel n st e,
    max_loop body lo hi k fuel n st = Some e ->
    exists st', reps R lo hi n st st' /\ k st' = Some e.
Proof.
  induction fuel as [|fuel IH]; intros n st e H; cbn [max_loop] in H;
    [discriminate|].
  destruct (n <? lo) eqn:Hn.
  - apply Nat.ltb_lt in Hn.
    apply body_sound in H. destruct H as [mid [HR Hk]].
    apply IH in Hk. destruct Hk as [st' [Hreps Hk]].
    exists st'. split; [|exact Hk].
    eapply reps_forced; eassumption.
  - apply Nat.ltb_ge in Hn.
    destruct (below n hi) eqn:Hb.
    + destruct (body st (fun st' =>
                  if shorter st' st
                  then max_loop body lo hi k fuel (S n) st' else None))
        as [e'|] eqn:Hbody.
      * injection H as <-.
        apply body_sound in Hbody. destruct Hbody as [mid [HR Hk]].
        destruct (shorter mid st) eqn:Hs; [|discriminate].
        apply IH in Hk. destruct Hk as [st' [Hreps Hk]].
        exists st'. split; [|exact Hk].
        eapply reps_more; eassumption.
      * exists st. split; [apply reps_stop; exact Hn|exact H].
    + exists st. split; [apply reps_stop; exact Hn|exact H].
Qed.

Lemma min_loop_sound :
  forall fuel n st e,
    min_loop body lo hi k fuel n st = Some e ->
    exists st', reps R lo hi n st st' /\ k st' = Some e.
Proof.
  induction fuel as [|fuel IH]; intros n st e H; cbn [min_loop] in H;
    [discriminate|].
  destruct (n <? lo) eqn:Hn.
  - apply Nat.ltb_lt in Hn.
    apply body_sound in H. destruct H as [mid [HR Hk]].
    apply IH in Hk. destruct Hk as [st' [Hreps Hk]].
    exists st'. split; [|exact Hk].
    eapply reps_forced; eassumption.
  - apply Nat.ltb_ge in Hn.
    destruct (k st) as [e'|] eqn:Hk0.
    + injection H as <-. exists st. split; [apply reps_stop; exact Hn|exact Hk0].
    + destruct (below n hi) eqn:Hb; [|discriminate].
      apply body_sound in H. destruct H as [mid [HR Hk]].
      destruct (shorter mid st) eqn:Hs; [|discriminate].
      apply IH in Hk. destruct Hk as [st' [Hreps Hk]].
      exists st'. split; [|exact Hk].
      eapply reps_more; eassumption.
Qed.

Lemma reps_le :
  forall n st st',
    reps R lo hi n st st' -> List.length (snd st') <= List.length (snd st).
Proof.
  intros n st st' H.
  induction H as [n st Hn|n st mid st' Hn HR _ IH|n st mid st' Hn Hb HR Hs _ IH].
  - lia.
  - apply R_le in HR. lia.
  - apply R_le in HR. lia.
Qed.

(** The fuel suffices: a match of the repetition is found whenever the
    relation has one that the continuation accepts. *)
Lemma max_loop_complete :
  forall n st st',
    reps R lo hi n st st' -> k st' <> None ->
    forall fuel,
      (lo - n) + List.length (snd st) < fuel ->
      max_loop body lo hi k fuel n st <> None.
Proof.
  intros n st st' H.
  induction H as [n st Hn|n st mid st' Hn HR _ IH|n st mid st' Hn Hb HR Hs _ IH];
    intros Hk fuel Hfuel;
    (destruct fuel as [|fuel]; [lia|]); cbn [max_loop].
  - replace (n <? lo) with false by (symmetry; apply Nat.ltb_ge; exact Hn).
    destruct (if below n hi then _ else _); [discriminate|exact Hk].
  - replace (n <? lo) with true by (symmetry; apply Nat.ltb_lt; exact Hn).
    apply (body_complete st mid); [exact HR|].
    apply IH; [exact Hk|]. apply R_le in HR. lia.
  - replace (n <? lo) with false by (symmetry; apply Nat.ltb_ge; exact Hn).
    rewrite Hb.
    assert (Hbody :
      body st (fun st' =>
        if shorter st' st then max_loop body lo hi k fuel (S n) st' else None)
      <> None).
    { apply (body_complete st mid); [exact HR|]. rewrite Hs.
      apply IH; [exact Hk|].
      unfold shorter in Hs. apply Nat.ltb_lt in Hs. lia. }
    destruct (body st _); [discriminate|contradiction].
Qed.

Lemma min_loop_complete :
  forall n st st',
    reps R lo hi n st st' -> k st' <> None ->
    forall fuel,
      (lo - n) + List.length (snd st) < fuel ->
      min_loop body lo hi k fuel n st <> None.
Proof.
  intros n st st' H.
  induction H as [n st Hn|n st mid st' Hn HR _ IH|n st mid st' Hn Hb HR Hs _ IH];
    intros Hk fuel Hfuel;
    (destruct fuel as [|fuel]; [lia|]); cbn [min_loop].
  - replace (n <? lo) with false by (symmetry; apply Nat.ltb_ge; exact Hn).
    destruct (k st); [discriminate|contradiction].
  - replace (n <? lo) with true by (symmetry; apply Nat.ltb_lt; exact Hn).
    apply (body_complete st mid); [exact HR|].
    apply IH; [exact Hk|]. apply R_le in HR. lia.
  - replace (n <? lo) with false by (symmetry; apply Nat.ltb_ge; exact Hn).
    destruct (k st); [discriminate|]. rewrite Hb.
    apply (body_complete st mid); [exact HR|]. rewrite Hs.
    apply IH; [exact Hk|].
    unfold shorter in Hs. apply Nat.ltb_lt in Hs. lia.
Qed.

End LoopFacts.

Section ExecFacts.

Variable db : database.
Variable ic : bool.

Lemma matches_le :
  forall r st st',
    matches db ic r st st' ->
    List.length (snd st') <= List.length (snd st).
Proof.
  induction r as [c| |k|neg items| | |r1 IH1 r2 IH2|r1 IH1 r2 IH2
                 |lo hi r IH|lo hi r IH|r IH|w r IH];
    intros st st' H; cbn [matches] in H.
  - apply takes_le in H. lia.
  - apply takes_le in H. lia.
  - apply takes_le in H. lia.
  - apply takes_le in H. lia.
  - destruct H as [_ ->]. lia.
  - subst. lia.
  - destruct H as [mid [H1 H2]]. apply IH1 in H1. apply IH2 in H2. lia.
  - destruct H as [H|H]; [apply IH1 in H|apply IH2 in H]; exact H.
  - apply (reps_le (matches db ic r) IH lo hi 0 st st' H).
  - apply (reps_le (matches db ic r) IH lo hi 0 st st' H).
  - destruct H as [-> _]. lia.
  - destruct H as [-> _]. lia.
Qed.

(** The matcher is sound and complete for [matches]. *)
Lemma exec_correct :
  forall r,
    (forall st k e,
       exec db ic r st k = Some e ->
       exists st', matches db ic r st st' /\ k st' = Some e) /\
    (forall st st' k,
       matches db ic r st st' -> k st' <> None ->
       exec db ic r st k <> None).
Proof.
  induction r as [c| |k|neg items| | |r1 [S1 C1] r2 [S2 C2]
                 |r1 [S1 C1] r2 [S2 C2]
                 |lo hi r [S C]|lo hi r [S C]|r [S C]|w r [S C]];
    cbn [exec matches].
  - split; [apply one_sound|apply one_complete].
  - split; [apply one_sound|apply one_complete].
  - split; [apply one_sound|apply one_complete].
  - split; [apply one_sound|apply one_complete].
  - split.
    + intros st k e H. destruct (at_boundary db st) eqn:Hb; [|discriminate].
      exists st. auto.
    + intros st st' k [Hb ->] Hk. rewrite Hb. exact Hk.
  - split.
    + intros st k e H. exists st. auto.
    + intros st st' k -> Hk. exact Hk.
  - split.
    + intros st k e H. apply S1 in H. destruct H as [mid [H1 H]].
      apply S2 in H. destruct H as [st' [H2 H]].
      exists st'. split; [exists mid; split; assumption|exact H].
    + intros st st' k [mid [H1 H2]] Hk.
      apply (C1 st mid); [exact H1|]. apply (C2 mid st'); assumption.
  - split.
    + intros st k e H. destruct (exec db ic r1 st k) as [e1|] eqn:H1.
      * injection H as <-. apply S1 in H1. destruct H1 as [st' [H1 Hk]].
        exists st'. auto.
      * apply S2 in H. destruct H as [st' [H2 Hk]]. exists st'. auto.
    + intros st st' k [H|H] Hk.
      * pose proof (C1 st st' k H Hk) as Hne.
        destruct (exec db ic r1 st k); [discriminate|contradiction].
      * destruct (exec db ic r1 st k); [discriminate|].
        apply (C2 st st'); assumption.
  - split.
    + intros st k e H.
      apply (max_loop_sound (exec db ic r) (matches db ic r) S lo hi k _ _ _ _ H).
    + intros st st' k H Hk.
      apply (max_loop_complete (exec db ic r) (matches db ic r) C
               (matches_le r) lo hi k 0 st st' H Hk). lia.
  - split.
    + intros st k e H.
      apply (min_loop_sound (exec db ic r) (matches db ic r) S lo hi k _ _ _ _ H).
    + intros st st' k H Hk.
      apply (min_loop_complete (exec db ic r) (matches db ic r) C
               (matches_le r) lo hi k 0 st st' H Hk). lia.
  - split.
    + intros st k e H.
      destruct (exec db ic r st (fun e0 => Some e0)) as [e0|] eqn:Hr;
        [discriminate|].
      exists st. split; [|exact H]. split; [reflexivity|].
      intros e' He'.
      apply (C st e' (fun e0 => Some e0) He'); [discriminate|exact Hr].
    + intros st st' k [-> Hnot] Hk.
      destruct (exec db ic r st (fun e0 => Some e0)) as [e0|] eqn:Hr;
        [|exact Hk].
      apply S in Hr. destruct Hr as [e' [He' _]].
      exfalso. apply (Hnot e' He').
  - split.
    + intros st k e H.
      destruct (back w st) as [st0|] eqn:Hback.
      * destruct (exec db ic r st0 (fun e0 => Some e0)) as [e0|] eqn:Hr;
          [discriminate|].
        exists st. split; [|exact H]. split; [reflexivity|].
        intros st1 Hst1 e' He'. injection Hst1 as <-.
        apply (C st0 e' (fun e0 => Some e0) He'); [discriminate|exact Hr].
      * exists st. split; [|exact H]. split; [reflexivity|].
        intros st1 Hst1. discriminate.
    + intros st st' k [-> Hnot] Hk.
      destruct (back w st) as [st0|] eqn:Hback; [|exact Hk].
      destruct (exec db ic r st0 (fun e0 => Some e0)) as [e0|] eqn:Hr;
        [|exact Hk].
      apply S in Hr. destruct Hr as [e' [He' _]].
      exfalso. apply (Hnot st0 eq_refl e' He').
Qed.

Lemma match_at_sound :
  forall r st e, match_at db ic r st = Some e -> matches db ic r st e.
Proof.
  intros r st e H. unfold match_at in H.
  apply (proj1 (exec_correct r)) in H. destruct H as [st' [Hm Heq]].
  injection Heq as <-. exact Hm.
Qed.

Lemma match_at_complete :
  forall r st st', matches db ic r st st' -> match_at db ic r st <> None.
Proof.
  intros r st st' H. unfold match_at.
  apply (proj2 (exec_correct r) st st'); [exact H|discriminate].
Qed.

End ExecFacts.

(** ** The word a match consumes *)

Lemma moved_nil : forall st, moved [] st st.
Proof. intros st. split; reflexivity. Qed.

Lemma moved_app :
  forall w1 w2 st mid st',
    moved w1 st mid -> moved w2 mid st' -> moved (w1 ++ w2) st st'.
Proof.
  intros w1 w2 st mid st' [H1 H2] [H3 H4]. split.
  - rewrite H1, H3, app_assoc. reflexivity.
  - rewrite H4, H2, rev_app_distr, app_assoc. reflexivity.
Qed.

Lemma moved_length :
  forall w st st',
    moved w st st' ->
    List.length (snd st) = List.length w + List.length (snd st').
Proof.
  intros w st st' [H _]. rewrite H, length_app. reflexivity.
Qed.

Lemma takes_moved :
  forall ok st st',
    takes ok st st' -> exists t, moved [t] st st' /\ ok t = true.
Proof.
  intros ok st st' [t [Hstep Hok]]. exists t. split; [|exact Hok].
  apply step_length in Hstep. exact Hstep.
Qed.

Lemma takes_intro :
  forall (ok : char -> bool) t before s,
    ok t = true -> takes ok (before, t :: s) (t :: before, s).
Proof. intros ok t before s Hok. exists t. split; [reflexivity|exact Hok]. Qed.

Lemma moved_unique :
  forall w w' st st', moved w st st' -> moved w' st st' -> w = w'.
Proof.
  intros w w' st st' [H _] [H' _]. rewrite H in H'.
  apply app_inv_tail in H'. exact H'.
Qed.

Lemma moved_shorter :
  forall w st st', moved w st st' -> shorter st' st = true -> w <> [].
Proof.
  intros w st st' Hm Hs ->. apply moved_length in Hm.
  unfold shorter in Hs. apply Nat.ltb_lt in Hs. cbn in Hm. lia.
Qed.

Lemma shorter_moved :
  forall w before s, w <> [] -> shorter (rev w ++ before, s) (before, w ++ s) = true.
Proof.
  intros w before s Hw. unfold shorter. cbn [snd]. apply Nat.ltb_lt.
  rewrite length_app. destruct w; [contradiction|cbn; lia].
Qed.

Section RepsWord.

Variable R : state -> state -> Prop.
Variable free : Prop.
Variable only : (char -> bool) -> Prop.

Hypothesis R_word :
  forall st st',
    R st st' ->
    exists w,
      moved w st st' /\
      (free -> forall before s, R (before, w ++ s) (rev w ++ before, s)) /\
      (forall P, only P -> forallb P w = true).

Variable lo : nat.
Variable hi : option nat.

Lemma reps_word :
  forall n st st',
    reps R lo hi n st st' ->
    exists w,
      moved w st st' /\
      (free ->
       forall before s, reps R lo hi n (before, w ++ s) (rev w ++ before, s)) /\
      (forall P, only P -> forallb P w = true).
Proof.
  intros n st st' H.
  induction H as [n st Hn|n st mid st' Hn HRst _ IH|n st mid st' Hn Hb HRst Hs _ IH].
  - exists []. split; [apply moved_nil|]. split; [|reflexivity].
    intros _ before s. apply reps_stop. exact Hn.
  - destruct (R_word _ _ HRst) as [w1 [Hm1 [Hf1 Ho1]]].
    destruct IH as [w2 [Hm2 [Hf2 Ho2]]].
    exists (w1 ++ w2). split; [apply (moved_app w1 w2 st mid st' Hm1 Hm2)|].
    split.
    + intros Hfree before s. rewrite <- app_assoc.
      eapply reps_forced; [exact Hn|apply (Hf1 Hfree)|].
      rewrite rev_app_distr, <- app_assoc. apply (Hf2 Hfree).
    + intros P HP. rewrite forallb_app, (Ho1 P HP), (Ho2 P HP). reflexivity.
  - destruct (R_word _ _ HRst) as [w1 [Hm1 [Hf1 Ho1]]].
    destruct IH as [w2 [Hm2 [Hf2 Ho2]]].
    exists (w1 ++ w2). split; [apply (moved_app w1 w2 st mid st' Hm1 Hm2)|].
    split.
    + intros Hfree before s. rewrite <- app_assoc.
      eapply reps_more; [exact Hn|exact Hb|apply (Hf1 Hfree)| |].
      * apply shorter_moved. apply (moved_shorter w1 st mid Hm1 Hs).
      * rewrite rev_app_distr, <- app_assoc. apply (Hf2 Hfree).
    + intros P HP. rewrite forallb_app, (Ho1 P HP), (Ho2 P HP). reflexivity.
Qed.

End RepsWord.

Section Words.

Variable db : database.
Variable ic : bool.

Lemma takes_word :
  forall (ok : char -> bool) (only : (char -> bool) -> Prop) st st',
    (forall P, only P -> forall t, ok t = true -> P t = true) ->
    takes ok st st' ->
    exists w,
      moved w st st' /\
      (true = true ->
       forall before s, takes ok (before, w ++ s) (rev w ++ before, s)) /\
      (forall P, only P -> forallb P w = true).
Proof.
  intros ok only st st' Honly H.
  apply takes_moved in H. destruct H as [t [Hm Hok]].
  exists [t]. split; [exact Hm|]. split.
  - intros _ before s. apply takes_intro. exact Hok.
  - intros P HP. cbn. rewrite (Honly P HP t Hok). reflexivity.
Qed.

(** A match moves over a word; a context-free pattern matches that word
    anywhere; the word is made of characters the atoms accept. *)
Lemma matches_word :
  forall r st st',
    matches db ic r st st' ->
    exists w,
      moved w st st' /\
      (context_free r = true -> consumes db ic r w) /\
      (forall P, accepts_only db ic P r -> forallb P w = true).
Proof.
  unfold consumes.
  induction r as [c| |k|neg items| | |r1 IH1 r2 IH2|r1 IH1 r2 IH2
                 |lo hi r IH|lo hi r IH|r IH|wd r IH];
    intros st st' H; cbn [matches context_free accepts_only] in *.
  - apply (takes_word _ (fun P => forall t, _ = true -> P t = true));
      [intros P HP; exact HP|exact H].
  - apply (takes_word _ (fun P => forall t, _ = true -> P t = true));
      [intros P HP; exact HP|exact H].
  - apply (takes_word _ (fun P => forall t, _ = true -> P t = true));
      [intros P HP; exact HP|exact H].
  - apply (takes_word _ (fun P => forall t, _ = true -> P t = true));
      [intros P HP; exact HP|exact H].
  - destruct H as [_ ->]. exists []. split; [apply moved_nil|].
    split; [discriminate|reflexivity].
  - subst st'. exists []. split; [apply moved_nil|].
    split; [intros _ before s; reflexivity|reflexivity].
  - destruct H as [mid [H1 H2]].
    destruct (IH1 _ _ H1) as [w1 [Hm1 [Hf1 Ho1]]].
    destruct (IH2 _ _ H2) as [w2 [Hm2 [Hf2 Ho2]]].
    exists (w1 ++ w2). split; [apply (moved_app w1 w2 st mid st' Hm1 Hm2)|].
    split.
    + intros Hfree. apply andb_true_iff in Hfree. destruct Hfree as [F1 F2].
      intros before s. exists (rev w1 ++ before, w2 ++ s). split.
      * rewrite <- app_assoc. apply (Hf1 F1).
      * rewrite rev_app_distr, <- app_assoc. apply (Hf2 F2).
    + intros P [HP1 HP2].
      rewrite forallb_app, (Ho1 P HP1), (Ho2 P HP2). reflexivity.
  - destruct H as [H|H].
    + destruct (IH1 _ _ H) as [w [Hm [Hf Ho]]]. exists w.
      split; [exact Hm|]. split.
      * intros Hfree. apply andb_true_iff in Hfree.
        intros before s. left. apply (Hf (proj1 Hfree)).
      * intros P [HP1 _]. apply (Ho P HP1).
    + destruct (IH2 _ _ H) as [w [Hm [Hf Ho]]]. exists w.
      split; [exact Hm|]. split.
      * intros Hfree. apply andb_true_iff in Hfree.
        intros before s. right. apply (Hf (proj2 Hfree)).
      * intros P [_ HP2]. apply (Ho P HP2).
  - apply (reps_word (matches db ic r) (context_free r = true)
             (fun P => accepts_only db ic P r) IH lo hi 0 st st' H).
  - apply (reps_word (matches db ic r) (context_free r = true)
             (fun P => accepts_only db ic P r) IH lo hi 0 st st' H).
  - destruct H as [-> _]. exists []. split; [apply moved_nil|].
    split; [discriminate|reflexivity].
  - destruct H as [-> _]. exists []. split; [apply moved_nil|].
    split; [discriminate|reflexivity].
Qed.

(** A pattern that is not nullable consumes at least one character. *)
Lemma matches_strict :
  forall r st st',
    nullable r = false -> matches db ic r st st' -> shorter st' st = true.
Proof.
  assert (Htakes : forall ok st st', takes ok st st' -> shorter st' st = true).
  { intros ok st st' H. apply takes_le in H. apply Nat.ltb_lt. exact H. }
  assert (Hreps : forall R lo hi,
    (forall st st', R st st' -> List.length (snd st') <= List.length (snd st)) ->
    (forall st st', R st st' -> shorter st' st = true) ->
    forall n st st', reps R lo hi n st st' -> n < lo -> shorter st' st = true).
  { intros R lo hi Hle Hstrict n st st' H.
    induction H as [n st Hn|n st mid st' Hn HR Hrest IH|n st mid st' Hn Hb HR Hs _ IH];
      intros Hlt; [lia| |lia].
    apply Hstrict in HR. unfold shorter in *. apply Nat.ltb_lt in HR.
    apply (reps_le R Hle) in Hrest. apply Nat.ltb_lt. lia. }
  induction r as [c| |k|neg items| | |r1 IH1 r2 IH2|r1 IH1 r2 IH2
                 |lo hi r IH|lo hi r IH|r IH|wd r IH];
    intros st st' Hnull H; cbn [matches nullable] in *;
    try discriminate; try (apply (Htakes _ _ _ H)).
  - destruct H as [mid [H1 H2]].
    pose proof (matches_le db ic r1 _ _ H1) as L1.
    pose proof (matches_le db ic r2 _ _ H2) as L2.
    apply andb_false_iff in Hnull. unfold shorter. apply Nat.ltb_lt.
    destruct Hnull as [Hn|Hn].
    + apply (IH1 _ _ Hn) in H1. unfold shorter in H1.
      apply Nat.ltb_lt in H1. lia.
    + apply (IH2 _ _ Hn) in H2. unfold shorter in H2.
      apply Nat.ltb_lt in H2. lia.
  - apply orb_false_iff in Hnull. destruct Hnull as [Hn1 Hn2].
    destruct H as [H|H]; [apply (IH1 _ _ Hn1 H)|apply (IH2 _ _ Hn2 H)].
  - apply orb_false_iff in Hnull. destruct Hnull as [Hlo Hn].
    apply Nat.eqb_neq in Hlo.
    apply (Hreps (matches db ic r) lo hi (matches_le db ic r)
             (fun a b => IH a b Hn) 0 st st' H). lia.
  - apply orb_false_iff in Hnull. destruct Hnull as [Hlo Hn].
    apply Nat.eqb_neq in Hlo.
    apply (Hreps (matches db ic r) lo hi (matches_le db ic r)
             (fun a b => IH a b Hn) 0 st st' H). lia.
Qed.

(** For a context-free pattern, a match at a position is a property of the
    text from the position on. *)
Lemma match_at_prefix :
  forall r before s,
    context_free r = true ->
    (match_at db ic r (before, s) <> None <-> matches_prefix db ic r s).
Proof.
  intros r before s Hfree. split.
  - intros H. destruct (match_at db ic r (before, s)) as [e|] eqn:He;
      [|contradiction].
    apply match_at_sound in He.
    destruct (matches_word r _ _ He) as [w [[Hm _] [Hf _]]].
    exists w, (snd e). split; [exact Hm|apply (Hf Hfree)].
  - intros [w [rest [-> Hw]]].
    apply (match_at_complete db ic r _ _ (Hw before rest)).
Qed.

(** What a successful [match_at] consumed. *)
Lemma match_at_word :
  forall r before s e,
    match_at db ic r (before, s) = Some e ->
    exists w,
      s = w ++ snd e /\
      (context_free r = true -> consumes db ic r w) /\
      (forall P, accepts_only db ic P r -> forallb P w = true) /\
      (nullable r = false -> w <> []).
Proof.
  intros r before s e He. apply match_at_sound in He.
  destruct (matches_word r _ _ He) as [w [Hm [Hf Ho]]].
  exists w. split; [exact (proj1 Hm)|]. split; [exact Hf|]. split; [exact Ho|].
  intros Hn. apply (moved_shorter w _ _ Hm).
  apply (matches_strict r _ _ Hn He).
Qed.

End Words.

(** ** The shape of the result of [re.sub] *)

Section SubShape.

Variable db : database.
Variable ic : bool.
Variable r : regex.
Variable repl : str.

Lemma sub_scan_skip :
  forall w s before,
    sub_scan db ic r repl before (w ++ s) (List.length w)
    = sub_scan db ic r repl (rev w ++ before) s 0.
Proof.
  induction w as [|c w IH]; intros s before; [reflexivity|].
  cbn [app List.length]. rewrite sub_scan_skip1, IH.
  cbn [rev]. rewrite <- app_assoc. reflexivity.
Qed.

Variable M : str -> Prop.
Variable W : str -> Prop.

Hypothesis unmatched :
  forall before s, match_at db ic r (before, s) = None -> ~ M s.
Hypothesis matched :
  forall before s e,
    match_at db ic r (before, s) = Some e ->
    exists w, s = w ++ snd e /\ w <> [] /\ W w.

Lemma sub_scan_rewritten :
  forall n s before,
    List.length s <= n ->
    rewritten M W repl s (sub_scan db ic r repl before s 0).
Proof.
  induction n as [|n IH]; intros s before Hlen.
  - destruct s; [|cbn in Hlen; lia].
    rewrite sub_scan_nil.
    destruct (match_at db ic r (before, [])) as [e|] eqn:He.
    + apply matched in He. destruct He as [w [Hs [Hw _]]].
      symmetry in Hs. apply app_eq_nil in Hs. destruct Hs. contradiction.
    + constructor.
  - destruct s as [|c s].
    + apply (IH [] before). cbn. lia.
    + rewrite sub_scan_cons.
      destruct (match_at db ic r (before, c :: s)) as [e|] eqn:He.
      * destruct (matched _ _ _ He) as [w [Hs [Hw HW]]].
        destruct w as [|c' w]; [contradiction|].
        cbn [app] in Hs. injection Hs as <- Hs.
        replace (List.length (c :: s) - List.length (snd e))
          with (S (List.length w))
          by (rewrite Hs; cbn [List.length]; rewrite length_app; lia).
        rewrite Hs, sub_scan_skip.
        apply (@rewritten_word M W repl (c :: w) (snd e) _ HW).
        apply IH. rewrite Hs in Hlen. cbn [List.length] in Hlen.
        rewrite length_app in Hlen. lia.
      * apply rewritten_keep; [apply (unmatched _ _ He)|].
        apply IH. cbn in Hlen. lia.
Qed.

Lemma sub_rewritten :
  forall text, rewritten M W repl text (sub db ic r repl text).
Proof.
  intros text. apply (sub_scan_rewritten (List.length text)). lia.
Qed.

Hypothesis found :
  forall before s, match_at db ic r (before, s) <> None -> M s.

(** Where the pattern matches nowhere, nothing is replaced. *)
Lemma sub_nowhere :
  forall text, nowhere M text -> sub db ic r repl text = text.
Proof.
  intros text Hno. unfold sub.
  assert (H : forall s before pre,
             text = pre ++ s -> sub_scan db ic r repl before s 0 = s).
  { induction s as [|c s IH]; intros before pre Hs.
    - rewrite sub_scan_nil.
      destruct (match_at db ic r (before, [])) eqn:He; [|reflexivity].
      exfalso. apply (Hno pre [] Hs).
      refine (found before [] _). rewrite He. discriminate.
    - rewrite sub_scan_cons.
      destruct (match_at db ic r (before, c :: s)) eqn:He.
      + exfalso. apply (Hno pre (c :: s) Hs).
        refine (found before (c :: s) _). rewrite He. discriminate.
      + rewrite (IH (c :: before) (pre ++ [c])); [reflexivity|].
        rewrite <- app_assoc. exact Hs. }
  apply (H text [] []). reflexivity.
Qed.

End SubShape.

(** ** Positions of a rewritten text *)

Section Rewritten.

Variable M W : str -> Prop.
Variable repl : str.

(** A position of the result lies inside a replaced token or faces a
    position of the original. *)
Lemma rewritten_suffix :
  forall s o,
    rewritten M W repl s o ->
    forall pre suf,
      o = pre ++ suf ->
      (exists spre ssuf, s = spre ++ ssuf /\ rewritten M W repl ssuf suf) \/
      (exists k1 k2 o2, repl = k1 ++ k2 /\ k1 <> [] /\ k2 <> [] /\
                        suf = k2 ++ o2).
Proof.
  intros s o H.
  induction H as [|c s o Hc H IH|w s o Hw H IH]; intros pre suf Ho.
  - symmetry in Ho. apply app_eq_nil in Ho. destruct Ho as [-> ->].
    left. exists [], []. split; [reflexivity|constructor].
  - destruct pre as [|p pre].
    + cbn in Ho. subst suf. left. exists [], (c :: s).
      split; [reflexivity|]. apply rewritten_keep; assumption.
    + cbn in Ho. injection Ho as <- Ho.
      destruct (IH pre suf Ho) as [[spre [ssuf [-> Hr]]]|Hin].
      * left. exists (c :: spre), ssuf. split; [reflexivity|exact Hr].
      * right. exact Hin.
  - destruct pre as [|p pre].
    + cbn in Ho. subst suf. left. exists [], (w ++ s).
      split; [reflexivity|]. apply rewritten_word; assumption.
    + apply app_eq_app in Ho. destruct Ho as [l [[Hrepl Hsuf]|[Hpre Ho]]].
      * destruct l as [|x l].
        -- rewrite app_nil_r in Hrepl. cbn in Hsuf. subst suf.
           left. exists w, s. split; [reflexivity|exact H].
        -- right. exists (p :: pre), (x :: l), o.
           split; [exact Hrepl|]. split; [discriminate|].
           split; [discriminate|exact Hsuf].
      * destruct (IH l suf Ho) as [[spre [ssuf [-> Hr]]]|Hin].
        -- left. exists (w ++ spre), ssuf.
           split; [rewrite app_assoc; reflexivity|exact Hr].
        -- right. exact Hin.
Qed.

(** Every character of the result is a character of the token or a kept
    character, at which [M] does not hold. *)
Lemma rewritten_In :
  forall s o,
    rewritten M W repl s o ->
    forall c, In c o ->
      In c repl \/ exists spre ssuf, s = spre ++ c :: ssuf /\ ~ M (c :: ssuf).
Proof.
  intros s o H.
  induction H as [|x s o Hx H IH|w s o Hw H IH]; intros c Hin.
  - destruct Hin.
  - destruct Hin as [<-|Hin].
    + right. exists [], s. split; [reflexivity|exact Hx].
    + destruct (IH c Hin) as [Hr|[spre [ssuf [-> Hn]]]]; [left; exact Hr|].
      right. exists (x :: spre), ssuf. split; [reflexivity|exact Hn].
  - apply in_app_or in Hin. destruct Hin as [Hin|Hin]; [left; exact Hin|].
    destruct (IH c Hin) as [Hr|[spre [ssuf [-> Hn]]]]; [left; exact Hr|].
    right. exists (w ++ spre), ssuf.
    split; [rewrite app_assoc; reflexivity|exact Hn].
Qed.

Variable M' : str -> Prop.

(** [M'] does not hold from inside a token, nor from the start of one. *)
Hypothesis inside :
  forall k1 k2 o2, repl = k1 ++ k2 -> k2 <> [] -> ~ M' (k2 ++ o2).
(** [M'] carries over from the result to the original. *)
Hypothesis transfer :
  forall s o, rewritten M W repl s o -> M' o -> M' s.

(** If [M'] holds nowhere in the original, it holds nowhere in the result. *)
Lemma nowhere_preserved :
  forall s o, rewritten M W repl s o -> nowhere M' s -> nowhere M' o.
Proof.
  intros s o H Hno pre suf Ho HM.
  destruct (rewritten_suffix s o H pre suf Ho)
    as [[spre [ssuf [Hs Hr]]]|[k1 [k2 [o2 [Hrepl [_ [Hk2 Hsuf]]]]]]].
  - apply (Hno spre ssuf Hs). apply (transfer ssuf suf Hr HM).
  - subst suf. apply (inside k1 k2 o2 Hrepl Hk2 HM).
Qed.

Hypothesis M'_M : forall s, M' s -> M s.
Hypothesis M'_nil : ~ M' [].
Hypothesis repl_nonempty : repl <> [].

(** The result of a substitution has no match of its own pattern. *)
Lemma nowhere_after :
  forall s o, rewritten M W repl s o -> nowhere M' o.
Proof.
  intros s o H pre suf Ho HM.
  destruct (rewritten_suffix s o H pre suf Ho)
    as [[spre [ssuf [Hs Hr]]]|[k1 [k2 [o2 [Hrepl [_ [Hk2 Hsuf]]]]]]].
  - pose proof (transfer ssuf suf Hr HM) as HMs.
    destruct Hr as [|c s' o' Hc Hr|w s' o' Hw Hr].
    + exact (M'_nil HM).
    + apply Hc. apply M'_M. exact HMs.
    + apply (inside [] repl o' eq_refl repl_nonempty HM).
  - subst suf. apply (inside k1 k2 o2 Hrepl Hk2 HM).
Qed.

End Rewritten.

(** ** Literals and classes on Latin-1 *)

Section Latin1.

Variable db : database.
Hypothesis db_latin1 : latin1 db.

Lemma latin1_isdecimal :
  forall c, (c < 256)%N -> isdecimal db c = ref_isdecimal c.
Proof. intros c Hc. apply (db_latin1 c Hc). Qed.

Lemma latin1_isalnum :
  forall c, (c < 256)%N -> isalnum db c = ref_isalnum c.
Proof. intros c Hc. apply (db_latin1 c Hc). Qed.

Lemma latin1_iscased :
  forall c, (c < 256)%N -> iscased db c = ref_iscased c.
Proof. intros c Hc. apply (db_latin1 c Hc). Qed.

Lemma latin1_extra_cases :
  forall c, (c < 256)%N -> extra_cases db c = ref_extra_cases c.
Proof. intros c Hc. apply (db_latin1 c Hc). Qed.

Lemma latin1_isword :
  forall c, (c < 256)%N -> isword db c = (ref_isalnum c || char_eqb c 95%N).
Proof. intros c Hc. unfold isword. rewrite latin1_isalnum by exact Hc. reflexivity. Qed.

(** A literal without case matches itself only. *)
Lemma literal_uncased :
  forall ic c t,
    (c < 256)%N -> ref_iscased c = false ->
    literal_matches db ic c t = char_eqb c t.
Proof.
  intros ic c t Hc Hcase. unfold literal_matches.
  rewrite latin1_iscased, Hcase, andb_false_r by exact Hc. reflexivity.
Qed.

(** A cased literal whose lower case [l] has no extra cases matches the
    characters whose lower case is [l]. *)
Lemma literal_cased :
  forall c t l,
    (c < 256)%N -> ref_iscased c = true -> ref_tolower c = l ->
    (l < 256)%N -> ref_extra_cases l = [] ->
    literal_matches db true c t = char_eqb (tolower db t) l.
Proof.
  intros c t l Hc Hcase Hl Hl256 Hextra. unfold literal_matches, folded.
  rewrite latin1_iscased, Hcase by exact Hc. cbn [andb].
  rewrite (latin1_tolower db c db_latin1 Hc), Hl.
  rewrite latin1_extra_cases, Hextra by exact Hl256.
  cbn [existsb]. apply orb_false_r.
Qed.

End Latin1.

(** ** Context-free patterns that consume something *)

Section Ordinary.

Variable db : database.
Variable ic : bool.
Variable r : regex.
Hypothesis r_free : context_free r = true.
Hypothesis r_strict : nullable r = false.

Lemma matches_prefix_nil : ~ matches_prefix db ic r [].
Proof.
  intros [w [rest [Hs Hw]]]. symmetry in Hs.
  apply app_eq_nil in Hs. destruct Hs as [-> ->].
  pose proof (matches_strict db ic r _ _ r_strict (Hw [] [])) as Hs.
  cbn in Hs. discriminate.
Qed.

Lemma found_prefix :
  forall before s,
    match_at db ic r (before, s) <> None -> matches_prefix db ic r s.
Proof. intros before s. apply (match_at_prefix db ic r before s r_free). Qed.

Lemma unmatched_prefix :
  forall before s,
    match_at db ic r (before, s) = None -> ~ matches_prefix db ic r s.
Proof.
  intros before s H HM.
  apply (match_at_prefix db ic r before s r_free) in HM. contradiction.
Qed.

Variable P : char -> bool.
Hypothesis r_only : accepts_only db ic P r.

Lemma matched_word :
  forall before s e,
    match_at db ic r (before, s) = Some e ->
    exists w, s = w ++ snd e /\ w <> [] /\ word_of P w.
Proof.
  intros before s e He.
  destruct (match_at_word db ic r before s e He) as [w [Hs [_ [Ho Hn]]]].
  exists w. split; [exact Hs|]. split; [exact (Hn r_strict)|].
  split; [exact (Hn r_strict)|exact (Ho P r_only)].
Qed.

Lemma sub_rewritten_prefix :
  forall repl text,
    rewritten (matches_prefix db ic r) (word_of P) repl text
              (sub db ic r repl text).
Proof.
  intros repl text.
  apply (sub_rewritten db ic r repl (matches_prefix db ic r) (word_of P)
           unmatched_prefix matched_word).
Qed.

Lemma sub_nowhere_prefix :
  forall repl text,
    nowhere (matches_prefix db ic r) text -> sub db ic r repl text = text.
Proof.
  intros repl text.
  apply (sub_nowhere db ic r repl (matches_prefix db ic r) found_prefix).
Qed.

End Ordinary.

Lemma consumes_prefix :
  forall db ic r w rest,
    consumes db ic r w -> matches_prefix db ic r (w ++ rest).
Proof. intros db ic r w rest H. exists w, rest. split; [reflexivity|exact H]. Qed.

(** A forced first round of a repetition. *)
Lemma reps_first :
  forall (R : state -> state -> Prop) lo hi st st',
    reps R lo hi 0 st st' -> 0 < lo -> exists mid, R st mid.
Proof.
  intros R lo hi st st' H Hlo.
  inversion H as [n st0 Hn|n st0 mid st1 Hn HR Hrest|n st0 mid st1 Hn Hb HR Hs Hrest];
    subst; try lia.
  exists mid. exact HR.
Qed.

(** A run of characters that pass [ok] is a repetition of [takes ok]. *)
Lemma reps_takes_intro :
  forall (ok : char -> bool) lo y n before s,
    forallb ok y = true -> lo <= n + List.length y ->
    reps (takes ok) lo None n (before, y ++ s) (rev y ++ before, s).
Proof.
  intros ok lo y. induction y as [|t y IH]; intros n before s Hok Hlo.
  - apply reps_stop. cbn in Hlo. lia.
  - cbn [forallb] in Hok. apply andb_true_iff in Hok. destruct Hok as [Ht Hy].
    cbn [app rev]. rewrite <- app_assoc. cbn [app].
    destruct (Nat.ltb_spec n lo) as [Hn|Hn].
    + eapply reps_forced; [exact Hn|apply takes_intro; exact Ht|].
      apply IH; [exact Hy|cbn [List.length] in Hlo; lia].
    + eapply reps_more; [exact Hn|reflexivity|apply takes_intro; exact Ht| |].
      * unfold shorter. cbn [snd]. apply Nat.ltb_lt. cbn [List.length]. lia.
      * apply IH; [exact Hy|cbn [List.length] in Hlo; lia].
Qed.

(** ** The numeric stage *)

Section Numeric.

Variable db : database.
Hypothesis db_latin1 : latin1 db.

Lemma takes_head :
  forall (ok : char -> bool) before s st',
    takes ok (before, s) st' ->
    exists t s', s = t :: s' /\ ok t = true.
Proof.
  intros ok before s st' [t [Hstep Hok]].
  apply step_length in Hstep. destruct Hstep as [Hs _]. cbn [snd] in Hs.
  exists t, (snd st'). split; assumption.
Qed.

(** Both numeric patterns start with a decimal digit. *)
Lemma numeric_head :
  forall p s,
    In p numerical_patterns ->
    matches_prefix db true p s ->
    exists d s', s = d :: s' /\ isdecimal db d = true.
Proof.
  intros p s Hp [w [rest [-> Hw]]]. specialize (Hw [] rest).
  assert (H : exists mid,
            reps (takes (isdecimal db)) 1 None 0 ([], w ++ rest) mid).
  { destruct Hp as [<-|[<-|[]]];
      destruct Hw as [mid [H _]]; exists mid; exact H. }
  destruct H as [mid H].
  apply reps_first in H; [|lia]. destruct H as [mid' H].
  apply takes_head in H. exact H.
Qed.

(** A decimal digit is a match of the second pattern. *)
Lemma number_at_digit :
  forall d s,
    isdecimal db d = true -> matches_prefix db true number_pattern (d :: s).
Proof.
  intros d s Hd. apply (consumes_prefix db true number_pattern [d] s).
  intros before rest. exists (d :: before, rest). split.
  - apply (reps_takes_intro (isdecimal db) 1 [d] 0 before rest).
    + cbn. rewrite Hd. reflexivity.
    + cbn. lia.
  - exists (d :: before, rest). split; apply reps_stop; lia.
Qed.

Lemma numero_not_decimal :
  forall c, In c (u " número ") -> isdecimal db c = false.
Proof.
  intros c Hc. cbn in Hc.
  repeat (destruct Hc as [<-|Hc];
          [rewrite latin1_isdecimal by (exact db_latin1 || reflexivity);
           reflexivity|]).
  destruct Hc.
Qed.

Lemma number_pattern_ordinary :
  context_free number_pattern = true /\ nullable number_pattern = false.
Proof. split; reflexivity. Qed.

Lemma percent_pattern_ordinary :
  context_free percent_pattern = true /\ nullable percent_pattern = false.
Proof. split; reflexivity. Qed.

Lemma accepts_anything :
  forall ic r, accepts_only db ic (fun _ => true) r.
Proof.
  intros ic r.
  induction r; cbn [accepts_only]; try split; auto.
Qed.

(** After the numeric stage no decimal digit is left. *)
Lemma numeric_stage_no_digit :
  forall text c,
    In c (stage db numeric_substitution text) -> isdecimal db c = false.
Proof.
  intros text c Hin.
  change (stage db numeric_substitution text)
    with (sub db true number_pattern (u " número ")
            (sub db true percent_pattern (u " número ") text)) in Hin.
  pose proof (sub_rewritten_prefix db true number_pattern
                (proj1 number_pattern_ordinary) (proj2 number_pattern_ordinary)
                (fun _ => true) (accepts_anything true number_pattern)
                (u " número ")
                (sub db true percent_pattern (u " número ") text)) as Hr.
  destruct (rewritten_In _ _ _ _ _ Hr c Hin) as [Ht|[spre [ssuf [_ Hn]]]].
  - apply numero_not_decimal. exact Ht.
  - destruct (isdecimal db c) eqn:Hd; [|reflexivity].
    exfalso. apply Hn. apply number_at_digit. exact Hd.
Qed.

Lemma no_digit_nowhere :
  forall p text,
    In p numerical_patterns ->
    (forall c, In c text -> isdecimal db c = false) ->
    nowhere (matches_prefix db true p) text.
Proof.
  intros p text Hp Hno pre suf Htext HM.
  destruct (numeric_head p suf Hp HM) as [d [s' [-> Hd]]].
  rewrite (Hno d) in Hd; [discriminate|].
  rewrite Htext. apply in_or_app. right. left. reflexivity.
Qed.

(** The numeric stage is idempotent. *)
Lemma numeric_stage_idempotent :
  forall text,
    stage db numeric_substitution (stage db numeric_substitution text)
    = stage db numeric_substitution text.
Proof.
  intros text.
  set (once := stage db numeric_substitution text).
  assert (Hno : forall c, In c once -> isdecimal db c = false)
    by (intros c; apply numeric_stage_no_digit).
  change (stage db numeric_substitution once)
    with (sub db true number_pattern (u " número ")
            (sub db true percent_pattern (u " número ") once)).
  rewrite (sub_nowhere_prefix db true percent_pattern
             (proj1 percent_pattern_ordinary) (u " número ") once).
  - apply (sub_nowhere_prefix db true number_pattern
             (proj1 number_pattern_ordinary)).
    apply no_digit_nowhere; [right; left; reflexivity|exact Hno].
  - apply no_digit_nowhere; [left; reflexivity|exact Hno].
Qed.

End Numeric.

(** ** A match that cannot reach into a token *)

Section Prefix.

Variable M W : str -> Prop.
Variable t1 t2 : char.
Variable rest : str.

(** The characters of the word pass [P] and its last character passes [Q];
    the token starts with [t1] and [t2], and either [t1] fails [P] or [t1]
    fails [Q] and [t2] fails [P]: the word ends before any token. *)
Variable P Q : char -> bool.
Hypothesis token_stops :
  P t1 = false \/ (Q t1 = false /\ P t2 = false).

Lemma rewritten_prefix :
  forall s o,
    rewritten M W (t1 :: t2 :: rest) s o ->
    forall w o',
      o = w ++ o' ->
      forallb P w = true ->
      (w <> [] -> Q (last w 0%N) = true) ->
      exists s', s = w ++ s'.
Proof.
  intros s o H.
  induction H as [|c s o Hc H IH|x s o Hx H IH]; intros w o' Ho HP HQ.
  - symmetry in Ho. apply app_eq_nil in Ho. destruct Ho as [-> _].
    exists []. reflexivity.
  - destruct w as [|c' w]; [exists (c :: s); reflexivity|].
    cbn [app] in Ho. injection Ho as <- Ho.
    cbn [forallb] in HP. apply andb_true_iff in HP. destruct HP as [_ HP].
    destruct (IH w o' Ho HP) as [s' ->].
    + intros Hw. specialize (HQ ltac:(discriminate)).
      destruct w; [contradiction|exact HQ].
    + exists s'. reflexivity.
  - destruct w as [|c1 w]; [exists (x ++ s); reflexivity|].
    exfalso. cbn [app] in Ho. injection Ho as <- Ho.
    cbn [forallb] in HP. apply andb_true_iff in HP. destruct HP as [HP1 HP].
    destruct token_stops as [Ht|[Hq Ht]]; [congruence|].
    destruct w as [|c2 w].
    + specialize (HQ ltac:(discriminate)). cbn in HQ. congruence.
    + cbn [app] in Ho. injection Ho as <- Ho.
      cbn [forallb] in HP. apply andb_true_iff in HP. destruct HP as [HP2 _].
      congruence.
Qed.

End Prefix.

Section LastPart.

Variable db : database.
Variable ic : bool.

Lemma matches_last_part :
  forall r st st',
    matches db ic r st st' ->
    exists mid, matches db ic (last_part r) mid st'.
Proof.
  induction r; intros st st' H; try (exists st; exact H).
  cbn [matches last_part] in *. destruct H as [mid [_ H2]].
  apply (IHr2 mid st' H2).
Qed.

Lemma last_app_nonempty :
  forall (a y : str) d, y <> [] -> last (a ++ y) d = last y d.
Proof.
  intros a y d Hy.
  rewrite (app_removelast_last d Hy) at 1.
  rewrite app_assoc. apply last_last.
Qed.

Lemma forallb_last :
  forall (Q : char -> bool) y d,
    y <> [] -> forallb Q y = true -> Q (last y d) = true.
Proof.
  intros Q y d Hy HQ.
  rewrite (app_removelast_last d Hy), forallb_app in HQ.
  apply andb_true_iff in HQ. destruct HQ as [_ HQ]. cbn in HQ.
  rewrite andb_true_r in HQ. exact HQ.
Qed.

(** The last character of a word that a pattern consumes passes what the
    last component of the pattern accepts. *)
Lemma consumes_last :
  forall r w Q,
    consumes db ic r w ->
    nullable (last_part r) = false ->
    accepts_only db ic Q (last_part r) ->
    w <> [] /\ Q (last w 0%N) = true.
Proof.
  intros r w Q Hw Hnull HQ. specialize (Hw [] []).
  apply matches_last_part in Hw. destruct Hw as [mid Hl].
  destruct (matches_word db ic _ _ _ Hl) as [y [Hm [_ Ho]]].
  pose proof (moved_shorter y _ _ Hm (matches_strict db ic _ _ _ Hnull Hl))
    as Hy.
  specialize (Ho Q HQ).
  destruct Hm as [_ Hfst]. cbn [fst] in Hfst. rewrite app_nil_r in Hfst.
  assert (Hrev : w = rev (fst mid) ++ y).
  { rewrite <- (rev_involutive w), Hfst, rev_app_distr, rev_involutive.
    reflexivity. }
  split.
  - intros ->. symmetry in Hrev. apply app_eq_nil in Hrev.
    destruct Hrev as [_ ->]. contradiction.
  - rewrite Hrev, (last_app_nonempty _ y 0%N Hy).
    apply (forallb_last Q y 0%N Hy Ho).
Qed.

(** The word a pattern consumes is made of characters its atoms accept. *)
Lemma consumes_only :
  forall r w P,
    consumes db ic r w -> accepts_only db ic P r -> forallb P w = true.
Proof.
  intros r w P Hw HP. specialize (Hw [] []).
  destruct (matches_word db ic _ _ _ Hw) as [y [Hm [_ Ho]]].
  destruct Hm as [Hs _]. cbn [snd] in Hs. apply app_inv_tail in Hs.
  subst y. apply (Ho P HP).
Qed.

End LastPart.

Lemma In_tails :
  forall l k1 k2, l = k1 ++ k2 -> k2 <> [] -> In k2 (tails l).
Proof.
  intros l k1. revert l.
  induction k1 as [|x k1 IH]; intros l k2 Hl Hk2.
  - cbn in Hl. subst l. destruct k2; [contradiction|left; reflexivity].
  - subst l. cbn [app tails]. right. apply IH; [reflexivity|exact Hk2].
Qed.

(** ** The currency stage *)

Section Currency.

Variable db : database.
Hypothesis db_latin1 : latin1 db.

Lemma literal_r :
  forall t,
    literal_matches db true (ch "r") t = char_eqb (tolower db t) 114%N.
Proof.
  intros t.
  apply (literal_cased db db_latin1 (ch "r") t 114%N); reflexivity.
Qed.

Lemma literal_exact :
  forall c t,
    (c < 256)%N -> ref_iscased c = false ->
    literal_matches db true c t = true -> t = c.
Proof.
  intros c t Hc Hcase H.
  rewrite (literal_uncased db db_latin1 true c t Hc Hcase) in H.
  apply char_eqb_eq in H. symmetry. exact H.
Qed.

Lemma currency_accepts :
  accepts_only db true (currency_char db) currency_pattern.
Proof.
  unfold currency_pattern, seq_of, opt, star, times, plus, space, digit.
  cbn [accepts_only]. unfold currency_char.
  repeat split; intros t Ht.
  - rewrite literal_r in Ht. rewrite Ht. orb_true.
  - apply literal_exact in Ht; [|reflexivity|reflexivity]. subst t.
    assert (E : char_eqb (ch "$") 36%N = true) by reflexivity.
    rewrite E. orb_true.
  - cbn [in_category] in Ht. rewrite Ht. orb_true.
  - cbn [in_category] in Ht. rewrite Ht. orb_true.
  - apply literal_exact in Ht; [|reflexivity|reflexivity]. subst t.
    assert (E : char_eqb (ch ".") 46%N = true) by reflexivity.
    rewrite E. orb_true.
  - cbn [in_category] in Ht. rewrite Ht. orb_true.
  - apply literal_exact in Ht; [|reflexivity|reflexivity]. subst t.
    assert (E : char_eqb (ch ",") 44%N = true) by reflexivity.
    rewrite E. orb_true.
  - cbn [in_category] in Ht. rewrite Ht. orb_true.
Qed.

Lemma currency_ordinary :
  context_free currency_pattern = true /\ nullable currency_pattern = false.
Proof. split; reflexivity. Qed.

(** A match of the currency pattern starts with a letter whose lower case
    is [r], followed by the dollar sign. *)
Lemma currency_head :
  forall s,
    matches_prefix db true currency_pattern s ->
    exists c1 rest, s = c1 :: 36%N :: rest /\ tolower db c1 = 114%N.
Proof.
  intros s [w [rest [-> Hw]]]. specialize (Hw [] rest).
  destruct Hw as [mid1 [H1 [mid2 [H2 _]]]].
  destruct H1 as [c1 [Hstep1 Hok1]].
  destruct H2 as [c2 [Hstep2 Hok2]].
  apply step_length in Hstep1. destruct Hstep1 as [Hs1 _].
  apply step_length in Hstep2. destruct Hstep2 as [Hs2 _].
  cbn [snd] in Hs1. rewrite Hs1, Hs2.
  rewrite literal_r in Hok1. apply char_eqb_eq in Hok1.
  apply literal_exact in Hok2; [|reflexivity|reflexivity]. subst c2.
  exists c1, (snd mid2). split; [reflexivity|exact Hok1].
Qed.

Lemma currency_last :
  forall w,
    consumes db true currency_pattern w ->
    w <> [] /\ isdecimal db (last w 0%N) = true.
Proof.
  intros w Hw.
  apply (consumes_last db true currency_pattern w (isdecimal db) Hw).
  - reflexivity.
  - intros t Ht. exact Ht.
Qed.

Lemma BRL_stops :
  isdecimal db 32%N = false /\ currency_char db 66%N = false.
Proof.
  unfold currency_char.
  rewrite !latin1_isdecimal by (exact db_latin1 || reflexivity).
  rewrite (latin1_tolower db 66%N db_latin1) by reflexivity.
  split; reflexivity.
Qed.

Lemma currency_not_inside :
  forall k1 k2 o2,
    u " BRL " = k1 ++ k2 -> k2 <> [] ->
    ~ matches_prefix db true currency_pattern (k2 ++ o2).
Proof.
  intros k1 k2 o2 Hk Hk2 HM.
  apply currency_head in HM. destruct HM as [c1 [rest [Hs Hc1]]].
  pose proof (In_tails _ _ _ Hk Hk2) as Hin.
  cbn in Hin.
  destruct Hin as [<-|[<-|[<-|[<-|[<-|[]]]]]]; cbn [app] in Hs;
    injection Hs as Hc Hs; try discriminate Hs.
  subst c1. rewrite (latin1_tolower db 32%N db_latin1) in Hc1 by reflexivity.
  discriminate Hc1.
Qed.

Lemma currency_transfer :
  forall (W : str -> Prop) s o,
    rewritten (matches_prefix db true currency_pattern) W (u " BRL ") s o ->
    matches_prefix db true currency_pattern o ->
    matches_prefix db true currency_pattern s.
Proof.
  intros W s o Hr [w [rest [Ho Hw]]].
  destruct (currency_last w Hw) as [Hne Hlast].
  pose proof (consumes_only db true currency_pattern w (currency_char db)
                Hw currency_accepts) as Hall.
  destruct (rewritten_prefix _ W 32%N 66%N [82; 76; 32]%N
              (currency_char db) (isdecimal db)
              (or_intror BRL_stops) s o Hr w rest Ho Hall (fun _ => Hlast))
    as [s' ->].
  apply consumes_prefix. exact Hw.
Qed.

(** The currency stage is idempotent. *)
Lemma currency_stage_idempotent :
  forall text,
    stage db currency_substitution (stage db currency_substitution text)
    = stage db currency_substitution text.
Proof.
  intros text.
  change (stage db currency_substitution)
    with (sub db true currency_pattern (u " BRL ")).
  apply (sub_nowhere_prefix db true currency_pattern
           (proj1 currency_ordinary)).
  apply (nowhere_after
           (matches_prefix db true currency_pattern)
           (word_of (fun _ => true)) (u " BRL ")
           (matches_prefix db true currency_pattern)
           currency_not_inside
           (currency_transfer _)
           (fun s H => H)
           (matches_prefix_nil db true currency_pattern
              (proj2 currency_ordinary))
           ltac:(discriminate)
           text).
  apply (sub_rewritten_prefix db true currency_pattern
           (proj1 currency_ordinary) (proj2 currency_ordinary)
           (fun _ => true) (accepts_anything db true currency_pattern)).
Qed.

End Currency.

(** ** The LaTeX stage *)

Lemma accepts_only_weaken :
  forall db ic (P P' : char -> bool) r,
    (forall t, P t = true -> P' t = true) ->
    accepts_only db ic P r -> accepts_only db ic P' r.
Proof.
  intros db ic P P' r HPP'.
  induction r; cbn [accepts_only]; try tauto;
    try (intros H t Ht; apply HPP', H, Ht).
Qed.

Lemma rewritten_cons_inv :
  forall (M W : str -> Prop) repl s c o,
    rewritten M W repl s (c :: o) ->
    (exists s1, s = c :: s1 /\ rewritten M W repl s1 o) \/
    (exists w s1 o1, s = w ++ s1 /\ W w /\ c :: o = repl ++ o1 /\
                     rewritten M W repl s1 o1).
Proof.
  intros M W repl s c o H.
  inversion H as [|c' s1 o1 Hc Hr|w s1 o1 Hw Hr]; subst.
  - left. exists s1. split; [reflexivity|exact Hr].
  - right. exists w, s1, o1. repeat split; assumption.
Qed.

Section Latex.

Variable db : database.
Hypothesis db_latin1 : latin1 db.

Variable M : str -> Prop.

(** A kept character: one that is not the blank a token starts with. *)
Lemma latexed_kept :
  forall s c o,
    latexed M s (c :: o) -> c <> 32%N ->
    exists s1, s = c :: s1 /\ latexed M s1 o.
Proof.
  intros s c o H Hc.
  destruct (rewritten_cons_inv _ _ _ _ _ _ H)
    as [Hk|[w [s1 [o1 [_ [_ [Ho _]]]]]]]; [exact Hk|].
  cbn in Ho. injection Ho as Hc' _. contradiction.
Qed.

(** A token, or a kept blank. *)
Lemma latexed_blank :
  forall s o,
    latexed M s (32%N :: o) ->
    (exists s1, s = 32%N :: s1 /\ latexed M s1 o) \/
    (exists w s1 o1, s = w ++ s1 /\ word_of not_newline w /\
                     o = u "latex " ++ o1 /\ latexed M s1 o1).
Proof.
  intros s o H.
  destruct (rewritten_cons_inv _ _ _ _ _ _ H)
    as [Hk|[w [s1 [o1 [Hs [Hw [Ho Hr]]]]]]]; [left; exact Hk|].
  right. exists w, s1, o1. cbn in Ho. injection Ho as Ho.
  repeat split; try assumption; apply Hw.
Qed.

Lemma closes_cons :
  forall closing c o,
    not_newline c = true -> closes closing o -> closes closing (c :: o).
Proof.
  intros closing c o Hc [y [rest [-> Hy]]].
  exists (c :: y), rest. split; [reflexivity|].
  cbn [forallb]. rewrite Hc, Hy. reflexivity.
Qed.

Lemma closes_app :
  forall closing w o,
    forallb not_newline w = true -> closes closing o ->
    closes closing (w ++ o).
Proof.
  intros closing w o Hw Ho. induction w as [|c w IH]; [exact Ho|].
  cbn [forallb] in Hw. apply andb_true_iff in Hw. destruct Hw as [Hc Hw].
  cbn [app]. apply closes_cons; [exact Hc|apply IH; exact Hw].
Qed.

(** What [closes] means at the first character. *)
Lemma closes_inv :
  forall closing c o,
    closes closing (c :: o) ->
    (c = 92%N /\ exists rest, o = closing :: rest) \/
    (not_newline c = true /\ closes closing o).
Proof.
  intros closing c o [y [rest [Ho Hy]]].
  destruct y as [|c' y].
  - cbn in Ho. injection Ho as -> ->. left. split; [reflexivity|].
    exists rest. reflexivity.
  - cbn [app] in Ho. injection Ho as <- ->.
    cbn [forallb] in Hy. apply andb_true_iff in Hy. destruct Hy as [Hc Hy].
    right. split; [exact Hc|]. exists y, rest. split; [reflexivity|exact Hy].
Qed.

Lemma closes_skip :
  forall closing k o,
    closes closing (k ++ o) -> ~ In 92%N k -> closes closing o.
Proof.
  intros closing k o. induction k as [|c k IH]; intros H Hk; [exact H|].
  cbn [app] in H. apply closes_inv in H.
  destruct H as [[-> _]|[_ H]].
  - exfalso. apply Hk. left. reflexivity.
  - apply IH; [exact H|]. intros Hin. apply Hk. right. exact Hin.
Qed.

(** The closing bracket is found in the original as in the result. *)
Lemma closes_transfer :
  forall closing s o,
    closing <> 32%N ->
    latexed M s o -> closes closing o -> closes closing s.
Proof.
  intros closing s o Hclosing H.
  induction H as [|c s o Hc H IH|w s o Hw H IH]; intros Hcl.
  - destruct Hcl as [[|? ?] [rest [Ho _]]]; discriminate.
  - apply closes_inv in Hcl. destruct Hcl as [[-> [rest ->]]|[Hnl Hcl]].
    + destruct (latexed_kept _ _ _ H Hclosing) as [s1 [-> _]].
      exists [], s1. split; reflexivity.
    + apply closes_cons; [exact Hnl|apply IH; exact Hcl].
  - apply closes_app; [apply Hw|]. apply IH.
    apply (closes_skip closing (u " latex ") o Hcl).
    cbn. intuition discriminate.
Qed.

(** A delimited formula of the result is one of the original. *)
Lemma delimited_transfer :
  forall opening closing s o,
    opening <> 32%N -> closing <> 32%N ->
    latexed M s o -> delimited opening closing o ->
    delimited opening closing s.
Proof.
  intros opening closing s o Hop Hcl H [c [rest [-> [Hc Hrest]]]].
  destruct (latexed_kept _ _ _ H ltac:(discriminate)) as [s1 [-> H1]].
  destruct (latexed_kept _ _ _ H1 Hop) as [s2 [-> H2]].
  destruct (N.eq_dec c 32) as [->|Hc32].
  - destruct (latexed_blank _ _ H2)
      as [[s3 [-> H3]]|[w [s3 [o3 [-> [[Hw Hwnl] [-> H3]]]]]]].
    + exists 32%N, s3. split; [reflexivity|]. split; [reflexivity|].
      apply (closes_transfer closing s3 rest Hcl H3 Hrest).
    + destruct w as [|x w]; [contradiction|].
      cbn [forallb] in Hwnl. apply andb_true_iff in Hwnl.
      destruct Hwnl as [Hx Hwnl].
      exists x, (w ++ s3). split; [reflexivity|]. split; [exact Hx|].
      apply closes_app; [exact Hwnl|].
      apply (closes_transfer closing s3 o3 Hcl H3).
      apply (closes_skip closing (u "latex ") o3 Hrest).
      cbn. intuition discriminate.
  - destruct (latexed_kept _ _ _ H2 Hc32) as [s3 [-> H3]].
    exists c, s3. split; [reflexivity|]. split; [exact Hc|].
    apply (closes_transfer closing s3 rest Hcl H3 Hrest).
Qed.

End Latex.

Lemma takes_step :
  forall (ok : char -> bool) before s st',
    takes ok (before, s) st' ->
    exists t s', s = t :: s' /\ st' = (t :: before, s') /\ ok t = true.
Proof.
  intros ok before s st' [t [Hstep Hok]].
  unfold step in Hstep. cbn [snd fst] in Hstep.
  destruct s as [|c s]; [discriminate|].
  injection Hstep as <- <-. exists c, s. repeat split. exact Hok.
Qed.

Section LatexPatterns.

Variable db : database.
Hypothesis db_latin1 : latin1 db.

Variable opening closing : char.
Hypothesis opening_latin1 : (opening < 256)%N.
Hypothesis closing_latin1 : (closing < 256)%N.
Hypothesis opening_uncased : ref_iscased opening = false.
Hypothesis closing_uncased : ref_iscased closing = false.

Lemma literal_self :
  forall c, (c < 256)%N -> ref_iscased c = false ->
            literal_matches db true c c = true.
Proof.
  intros c Hc Hcase.
  rewrite (literal_uncased db db_latin1 true c c Hc Hcase).
  apply char_eqb_refl.
Qed.

(** The delimited patterns match exactly the delimited formulas. *)
Lemma delimited_sound :
  forall s,
    matches_prefix db true (latex_delimited opening closing) s ->
    delimited opening closing s.
Proof.
  intros s [w [rest [-> Hw]]]. specialize (Hw [] rest).
  destruct Hw as [m1 [H1 [m2 [H2 [m3 [H3 [m4 [H4 H5]]]]]]]].
  apply takes_step in H1. destruct H1 as [t1 [s1 [Hs1 [-> Ht1]]]].
  apply takes_step in H2. destruct H2 as [t2 [s2 [Hs2 [-> Ht2]]]].
  apply (literal_exact db db_latin1) in Ht1; [|reflexivity|reflexivity].
  apply (literal_exact db db_latin1) in Ht2;
    [|exact opening_latin1|exact opening_uncased].
  subst t1 t2.
  pose proof (matches_word db true (MIN_REPEAT 1 None ANY) _ _ H3)
    as [y [Hm [_ Hy]]].
  pose proof (moved_shorter y _ _ Hm
                (matches_strict db true (MIN_REPEAT 1 None ANY) _ _
                   eq_refl H3)) as Hne.
  specialize (Hy not_newline (fun t Ht => Ht)).
  destruct Hm as [Hs3 Hb3]. cbn [snd fst] in Hs3, Hb3.
  destruct m3 as [b3 s3]. cbn [snd fst] in Hs3, Hb3.
  apply takes_step in H4. destruct H4 as [t4 [s4 [Hs4 [-> Ht4]]]].
  apply takes_step in H5. destruct H5 as [t5 [s5' [Hs5 [_ Ht5]]]].
  apply (literal_exact db db_latin1) in Ht4; [|reflexivity|reflexivity].
  apply (literal_exact db db_latin1) in Ht5;
    [|exact closing_latin1|exact closing_uncased].
  subst t4 t5.
  destruct y as [|c y]; [contradiction|].
  cbn [forallb] in Hy. apply andb_true_iff in Hy. destruct Hy as [Hc Hy].
  exists c, (y ++ 92%N :: closing :: s5').
  split; [|split; [exact Hc|exists y, s5'; split; [reflexivity|exact Hy]]].
  rewrite Hs1, Hs2, Hs3, Hs4, Hs5. reflexivity.
Qed.

Lemma delimited_complete :
  forall s,
    delimited opening closing s ->
    matches_prefix db true (latex_delimited opening closing) s.
Proof.
  intros s [c [rest [-> [Hc [y [rest' [-> Hy]]]]]]].
  replace (92%N :: opening :: c :: y ++ 92%N :: closing :: rest')
    with ((92%N :: opening :: (c :: y) ++ [92%N; closing]) ++ rest')
    by (cbn [app]; rewrite <- app_assoc; reflexivity).
  apply consumes_prefix. intros before s.
  exists (92%N :: before, (opening :: (c :: y) ++ [92%N; closing]) ++ s).
  split; [apply takes_intro, literal_self; reflexivity|].
  exists (opening :: 92%N :: before, ((c :: y) ++ [92%N; closing]) ++ s).
  split; [apply takes_intro, literal_self; assumption|].
  exists (rev (c :: y) ++ opening :: 92%N :: before, [92%N; closing] ++ s).
  split.
  { rewrite <- app_assoc.
    apply (reps_takes_intro (fun t => negb (char_eqb t 10%N)) 1 (c :: y) 0).
    - cbn [forallb]. fold (not_newline c). rewrite Hc. exact Hy.
    - cbn. lia. }
  exists (92%N :: rev (c :: y) ++ opening :: 92%N :: before, closing :: s).
  split; [apply takes_intro, literal_self; reflexivity|].
  replace (rev (92%N :: opening :: (c :: y) ++ [92%N; closing]) ++ before)
    with (closing :: 92%N :: rev (c :: y) ++ opening :: 92%N :: before).
  - apply takes_intro, literal_self; assumption.
  - cbn [rev]. rewrite !rev_app_distr. cbn [rev app].
    rewrite <- !app_assoc. reflexivity.
Qed.

Lemma delimited_ordinary :
  context_free (latex_delimited opening closing) = true /\
  nullable (latex_delimited opening closing) = false.
Proof. split; reflexivity. Qed.

Hypothesis opening_not_newline : opening <> 10%N.
Hypothesis closing_not_newline : closing <> 10%N.

Lemma delimited_accepts :
  accepts_only db true not_newline (latex_delimited opening closing).
Proof.
  unfold latex_delimited, seq_of, lazy_plus. cbn [accepts_only].
  repeat split; intros t Ht; try exact Ht;
    apply (literal_exact db db_latin1) in Ht;
    try reflexivity; try assumption; subst t; unfold not_newline;
    apply negb_true_iff, N.eqb_neq; try assumption; discriminate.
Qed.

End LatexPatterns.

Section LatexStage.

Variable db : database.
Hypothesis db_latin1 : latin1 db.

Lemma lower_in_formula :
  forall t l,
    char_eqb (tolower db t) l = true -> l <> 32%N -> l <> 10%N ->
    in_formula t = true.
Proof.
  intros t l Ht H32 H10. apply char_eqb_eq in Ht.
  unfold in_formula, not_blank, not_newline.
  apply andb_true_iff. split; apply negb_true_iff, N.eqb_neq; intros ->;
    rewrite (latin1_tolower db _ db_latin1) in Ht by reflexivity;
    cbn in Ht; congruence.
Qed.

Lemma word_set_matches :
  forall t,
    set_matches db true false word_set t
    = (isword db t || (isdecimal db t || (char_eqb 95 t || false))).
Proof.
  intros t. unfold set_matches, word_set. cbn [existsb item_cased].
  rewrite (latin1_iscased db db_latin1) by reflexivity.
  reflexivity.
Qed.

Lemma word_set_in_formula :
  forall t, set_matches db true false word_set t = true -> in_formula t = true.
Proof.
  intros t Ht. rewrite word_set_matches in Ht.
  unfold in_formula, not_blank, not_newline.
  apply andb_true_iff. split; apply negb_true_iff, N.eqb_neq; intros ->;
    rewrite (latin1_isword db db_latin1) in Ht by reflexivity;
    rewrite (latin1_isdecimal db db_latin1) in Ht by reflexivity;
    cbn in Ht; discriminate.
Qed.

Lemma letter_in_formula :
  forall c t,
    (c < 256)%N -> ref_iscased c = true ->
    (ref_tolower c < 256)%N -> ref_extra_cases (ref_tolower c) = [] ->
    ref_tolower c <> 32%N -> ref_tolower c <> 10%N ->
    literal_matches db true c t = true -> in_formula t = true.
Proof.
  intros c t Hc Hcase Hl Hextra H32 H10 Ht.
  rewrite (literal_cased db db_latin1 c t (ref_tolower c) Hc Hcase eq_refl
             Hl Hextra) in Ht.
  apply (lower_in_formula t _ Ht H32 H10).
Qed.

Lemma symbol_in_formula :
  forall c t,
    (c < 256)%N -> ref_iscased c = false -> in_formula c = true ->
    literal_matches db true c t = true -> in_formula t = true.
Proof.
  intros c t Hc Hcase Hin Ht.
  apply (literal_exact db db_latin1 c t Hc Hcase) in Ht. subst t. exact Hin.
Qed.

Lemma frac_accepts : accepts_only db true in_formula latex_frac.
Proof.
  unfold latex_frac.
  change (lit (u "frac"))
    with (SEQ (LITERAL 102%N)
            (SEQ (LITERAL 114%N) (SEQ (LITERAL 97%N) (LITERAL 99%N)))).
  unfold seq_of, plus. cbn [accepts_only].
  repeat split; intros t Ht;
    try (apply word_set_in_formula; exact Ht);
    match type of Ht with
    | literal_matches _ _ ?c _ = true =>
        first
          [ apply (symbol_in_formula c t); [reflexivity|reflexivity
                                           |reflexivity|exact Ht]
          | apply (letter_in_formula c t);
            [reflexivity|reflexivity|reflexivity|reflexivity
            |discriminate|discriminate|exact Ht] ]
    end.
Qed.

Lemma frac_ordinary :
  context_free latex_frac = true /\ nullable latex_frac = false.
Proof. split; reflexivity. Qed.

Lemma frac_head :
  forall s,
    matches_prefix db true latex_frac s -> exists rest, s = 92%N :: rest.
Proof.
  intros s [w [rest [-> Hw]]]. specialize (Hw [] rest).
  destruct Hw as [m1 [H1 _]].
  apply takes_step in H1. destruct H1 as [t1 [s1 [Hs1 [_ Ht1]]]].
  apply (literal_exact db db_latin1) in Ht1; [|reflexivity|reflexivity].
  subst t1. exists s1. exact Hs1.
Qed.

(** No formula starts inside the token, which has no backslash. *)
Lemma latex_not_inside :
  forall (M' : str -> Prop),
    (forall s, M' s -> exists rest, s = 92%N :: rest) ->
    forall k1 k2 o2,
      u " latex " = k1 ++ k2 -> k2 <> [] -> ~ M' (k2 ++ o2).
Proof.
  intros M' Hhead k1 k2 o2 Hk Hk2 HM.
  apply Hhead in HM. destruct HM as [rest Hs].
  pose proof (In_tails _ _ _ Hk Hk2) as Hin. cbn in Hin.
  repeat (destruct Hin as [<-|Hin]; [discriminate Hs|]).
  destruct Hin.
Qed.

Lemma delimited_head :
  forall opening closing s,
    delimited opening closing s -> exists rest, s = 92%N :: rest.
Proof.
  intros opening closing s [c [rest [-> _]]]. eexists. reflexivity.
Qed.

Lemma frac_transfer :
  forall M s o,
    latexed M s o ->
    matches_prefix db true latex_frac o ->
    matches_prefix db true latex_frac s.
Proof.
  intros M s o Hr [w [rest [Ho Hw]]].
  pose proof (consumes_only db true latex_frac w in_formula Hw frac_accepts)
    as Hall.
  destruct (rewritten_prefix M (word_of not_newline) 32%N 108%N
              [97; 116; 101; 120; 32]%N in_formula (fun _ => true)
              (or_introl eq_refl) s o Hr w rest Ho Hall (fun _ => eq_refl))
    as [s' ->].
  apply consumes_prefix. exact Hw.
Qed.

Lemma display_transfer :
  forall M s o, latexed M s o -> (display_at db) o -> (display_at db) s.
Proof.
  intros M s o Hr H. unfold display_at, latex_display in *.
  apply delimited_complete; try exact db_latin1; try reflexivity.
  apply delimited_sound in H; try exact db_latin1; try reflexivity.
  apply (delimited_transfer M (ch "[") (ch "]") s o); try discriminate;
    assumption.
Qed.

Lemma inline_transfer :
  forall M s o, latexed M s o -> (inline_at db) o -> (inline_at db) s.
Proof.
  intros M s o Hr H. unfold inline_at, latex_inline in *.
  apply delimited_complete; try exact db_latin1; try reflexivity.
  apply delimited_sound in H; try exact db_latin1; try reflexivity.
  apply (delimited_transfer M (ch "(") (ch ")") s o); try discriminate;
    assumption.
Qed.

Lemma display_head :
  forall s, (display_at db) s -> exists rest, s = 92%N :: rest.
Proof.
  intros s H. unfold display_at, latex_display in H.
  apply delimited_sound in H; try exact db_latin1; try reflexivity.
  apply (delimited_head _ _ _ H).
Qed.

Lemma inline_head :
  forall s, (inline_at db) s -> exists rest, s = 92%N :: rest.
Proof.
  intros s H. unfold inline_at, latex_inline in H.
  apply delimited_sound in H; try exact db_latin1; try reflexivity.
  apply (delimited_head _ _ _ H).
Qed.

Lemma display_latexed :
  forall text,
    latexed (display_at db) text (sub db true latex_display (u " latex ") text).
Proof.
  intros text.
  apply (sub_rewritten_prefix db true latex_display eq_refl eq_refl
           not_newline).
  apply delimited_accepts; try exact db_latin1; try reflexivity;
    discriminate.
Qed.

Lemma inline_latexed :
  forall text,
    latexed (inline_at db) text (sub db true latex_inline (u " latex ") text).
Proof.
  intros text.
  apply (sub_rewritten_prefix db true latex_inline eq_refl eq_refl
           not_newline).
  apply delimited_accepts; try exact db_latin1; try reflexivity;
    discriminate.
Qed.

Lemma frac_latexed :
  forall text,
    latexed (frac_at db) text (sub db true latex_frac (u " latex ") text).
Proof.
  intros text.
  apply (sub_rewritten_prefix db true latex_frac eq_refl eq_refl
           not_newline).
  apply (accepts_only_weaken db true in_formula not_newline latex_frac);
    [|exact frac_accepts].
  intros t Ht. unfold in_formula in Ht. apply andb_true_iff in Ht. apply Ht.
Qed.

(** The LaTeX stage is idempotent. *)
Lemma latex_stage_idempotent :
  forall text,
    stage db latex_substitution (stage db latex_substitution text)
    = stage db latex_substitution text.
Proof.
  intros text.
  set (x1 := sub db true latex_display (u " latex ") text).
  set (x2 := sub db true latex_inline (u " latex ") x1).
  set (x3 := sub db true latex_frac (u " latex ") x2).
  change (stage db latex_substitution text) with x3.
  assert (D1 : nowhere (display_at db) x1).
  { apply (nowhere_after (display_at db) (word_of not_newline) (u " latex ")
             (display_at db) (latex_not_inside (display_at db) display_head)
             (display_transfer (display_at db)) (fun s H => H)
             (matches_prefix_nil db true latex_display eq_refl)
             ltac:(discriminate) text).
    apply display_latexed. }
  assert (D2 : nowhere (display_at db) x2).
  { apply (nowhere_preserved (inline_at db) (word_of not_newline) (u " latex ")
             (display_at db) (latex_not_inside (display_at db) display_head)
             (display_transfer (inline_at db)) x1 x2 (inline_latexed x1) D1). }
  assert (D3 : nowhere (display_at db) x3).
  { apply (nowhere_preserved (frac_at db) (word_of not_newline) (u " latex ")
             (display_at db) (latex_not_inside (display_at db) display_head)
             (display_transfer (frac_at db)) x2 x3 (frac_latexed x2) D2). }
  assert (I2 : nowhere (inline_at db) x2).
  { apply (nowhere_after (inline_at db) (word_of not_newline) (u " latex ")
             (inline_at db) (latex_not_inside (inline_at db) inline_head)
             (inline_transfer (inline_at db)) (fun s H => H)
             (matches_prefix_nil db true latex_inline eq_refl)
             ltac:(discriminate) x1).
    apply inline_latexed. }
  assert (I3 : nowhere (inline_at db) x3).
  { apply (nowhere_preserved (frac_at db) (word_of not_newline) (u " latex ")
             (inline_at db) (latex_not_inside (inline_at db) inline_head)
             (inline_transfer (frac_at db)) x2 x3 (frac_latexed x2) I2). }
  assert (F3 : nowhere (frac_at db) x3).
  { apply (nowhere_after (frac_at db) (word_of not_newline) (u " latex ")
             (frac_at db) (latex_not_inside (frac_at db) frac_head)
             (frac_transfer (frac_at db)) (fun s H => H)
             (matches_prefix_nil db true latex_frac eq_refl)
             ltac:(discriminate) x2).
    apply frac_latexed. }
  change (stage db latex_substitution x3)
    with (sub db true latex_frac (u " latex ")
            (sub db true latex_inline (u " latex ")
               (sub db true latex_display (u " latex ") x3))).
  rewrite (sub_nowhere_prefix db true latex_display eq_refl _ x3 D3).
  rewrite (sub_nowhere_prefix db true latex_inline eq_refl _ x3 I3).
  apply (sub_nowhere_prefix db true latex_frac eq_refl _ x3 F3).
Qed.

End LatexStage.

(** ** Idempotence of the single stages *)

(** C6.  The URL stage is not idempotent, through a slip in
    [url_pattern]: the pattern is a raw triple-quoted string broken
    over lines and compiled without [re.X], so the group of top-level
    domains does not open with [(?:com|...] but with a newline, an optional
    tab and [:com].  The stage therefore leaves [example.com] in the text
    (it removes [example.net]), and in the text below the removal of [a.net]
    joins [x.], the newline and [:com] into a match of the second pass,
    which deletes what the first pass left. *)
Theorem url_stage_not_idempotent :
  stage Unicode.ref url_removal (u "x." ++ [10%N] ++ u "a.net:com")
    = u "x." ++ [10%N] ++ u ":com" /\
  stage Unicode.ref url_removal
    (stage Unicode.ref url_removal (u "x." ++ [10%N] ++ u "a.net:com"))
    = [] /\
  stage Unicode.ref url_removal
    (stage Unicode.ref url_removal (u "x." ++ [10%N] ++ u "a.net:com"))
  <> stage Unicode.ref url_removal (u "x." ++ [10%N] ++ u "a.net:com") /\
  stage Unicode.ref url_removal (u "example.com") = u "example.com" /\
  stage Unicode.ref url_removal (u "example.net") = [].
Proof.
  repeat split; vm_compute; first [reflexivity|discriminate].
Qed.

(** X13.  For every Unicode database that agrees with the table on
    Latin-1 and for every text, the LaTeX stage, the currency stage and the
    numeric stage are each idempotent: applied to its own output, a stage
    changes nothing. *)
Theorem substitution_stages_idempotent :
  forall db,
    latin1 db ->
    forall text,
      stage db latex_substitution (stage db latex_substitution text)
      = stage db latex_substitution text /\
      stage db currency_substitution (stage db currency_substitution text)
      = stage db currency_substitution text /\
      stage db numeric_substitution (stage db numeric_substitution text)
      = stage db numeric_substitution text.
Proof.
  intros db Hdb text. split; [|split].
  - apply latex_stage_idempotent. exact Hdb.
  - apply currency_stage_idempotent. exact Hdb.
  - apply numeric_stage_idempotent. exact Hdb.
Qed.

Lemma substitution_stages_idempotent_witness :
  let text := u "\(a\) custa R$ 1.234,56 ou 10% de \frac{x}{y}" in
  stage Unicode.ref latex_substitution
    (stage Unicode.ref latex_substitution text)
  = stage Unicode.ref latex_substitution text /\
  stage Unicode.ref currency_substitution
    (stage Unicode.ref currency_substitution text)
  = stage Unicode.ref currency_substitution text /\
  stage Unicode.ref numeric_substitution
    (stage Unicode.ref numeric_substitution text)
  = stage Unicode.ref numeric_substitution text.
Proof.
  intros text.
  apply (substitution_stages_idempotent Unicode.ref ref_latin1 text).
Defined.

(** * Further properties *)

(** ** Whitespace in the outputs *)

Lemma squeeze_space_blank :
  forall s b c, In c (squeeze b s) -> isspace c = true -> c = 32%N.
Proof.
  induction s as [|x s IH]; intros b c Hin Hc; cbn in Hin.
  - destruct Hin.
  - destruct (isspace x) eqn:Hx.
    + destruct b.
      * apply (IH true c Hin Hc).
      * destruct Hin as [<-|Hin]; [reflexivity|apply (IH true c Hin Hc)].
    + destruct Hin as [<-|Hin]; [congruence|apply (IH false c Hin Hc)].
Qed.

Lemma length_squeeze :
  forall s b, List.length (squeeze b s) <= List.length s.
Proof.
  induction s as [|x s IH]; intros b; cbn.
  - lia.
  - destruct (isspace x); [destruct b|]; cbn.
    + specialize (IH true). lia.
    + specialize (IH true). lia.
    + specialize (IH false). lia.
Qed.

Lemma squeeze_adjacent :
  forall pre a b suf b0,
    isspace a = true -> isspace b = true ->
    List.length (squeeze b0 (pre ++ a :: b :: suf))
    < List.length (pre ++ a :: b :: suf).
Proof.
  induction pre as [|x pre IH]; intros a b suf b0 Ha Hb.
  - cbn [app squeeze]. rewrite Ha, Hb.
    pose proof (length_squeeze suf true) as H.
    destruct b0; cbn [List.length]; lia.
  - cbn [app squeeze List.length].
    destruct (isspace x); [destruct b0|]; cbn [List.length].
    + specialize (IH a b suf true Ha Hb). lia.
    + specialize (IH a b suf true Ha Hb). lia.
    + specialize (IH a b suf false Ha Hb). lia.
Qed.

Lemma length_rstrip : forall s, List.length (rstrip s) <= List.length s.
Proof.
  intros s. unfold rstrip. rewrite length_rev.
  pose proof (length_lstrip (rev s)) as H. rewrite length_rev in H. exact H.
Qed.

Lemma rstrip_app_space :
  forall pre c, isspace c = true -> rstrip (pre ++ [c]) = rstrip pre.
Proof.
  intros pre c Hc. unfold rstrip. rewrite rev_app_distr. cbn.
  rewrite Hc. reflexivity.
Qed.

(** What is left by the collapse of the whitespace and the trim. *)
Lemma strip_squeeze_single_spaced :
  forall x, single_spaced (strip (squeeze false x)).
Proof.
  intros x. set (t := strip (squeeze false x)).
  assert (Hsq : squeeze false t = t).
  { unfold t. rewrite squeeze_strip.
    rewrite (proj1 (squeeze_squeeze x)). reflexivity. }
  assert (Hl : lstrip t = t).
  { unfold t, strip. apply lstrip_rstrip_fixed. apply lstrip_idem. }
  assert (Hr : rstrip t = t).
  { unfold t, strip. apply rstrip_idem. }
  repeat split.
  - intros c Hin Hc. rewrite <- Hsq in Hin.
    apply (squeeze_space_blank t false c Hin Hc).
  - intros pre a b suf Ht Ha. destruct (isspace b) eqn:Hb; [|reflexivity].
    pose proof (squeeze_adjacent pre a b suf false Ha Hb) as H.
    rewrite <- Ht, Hsq in H. lia.
  - intros c rest Ht. destruct (isspace c) eqn:Hc; [|reflexivity].
    pose proof (length_lstrip rest) as H.
    assert (E : lstrip t = lstrip rest) by (rewrite Ht; cbn; rewrite Hc; reflexivity).
    rewrite Hl in E. rewrite <- E, Ht in H. cbn in H. lia.
  - intros pre c Ht. destruct (isspace c) eqn:Hc; [|reflexivity].
    pose proof (length_rstrip pre) as H.
    assert (E : rstrip t = rstrip pre)
      by (rewrite Ht; apply rstrip_app_space; exact Hc).
    rewrite Hr in E. rewrite <- E, Ht in H.
    rewrite length_app in H. cbn in H. lia.
Qed.

(** X1.  The output of [clean_enunciado] is single-spaced: it neither starts
    nor ends with whitespace, its only whitespace character is the blank, and
    no two blanks are adjacent. *)
Theorem clean_enunciado_single_spaced :
  forall db parser html, single_spaced (clean_enunciado db parser html).
Proof.
  intros db parser html. unfold clean_enunciado, clean_text.
  rewrite sub_spaces. apply strip_squeeze_single_spaced.
Qed.

(** X2.  The output of [remove_special_chars] is single-spaced, in whatever
    order the set of special characters is iterated: the blanks that the
    replacements put around their words never add up. *)
Theorem remove_special_chars_single_spaced :
  forall db caracteres text,
    single_spaced (remove_special_chars_in db caracteres text).
Proof.
  intros db caracteres text. unfold remove_special_chars_in.
  rewrite sub_spaces. apply strip_squeeze_single_spaced.
Qed.

(** ** Digits *)

Lemma replacement_chars_latin1 :
  forall key new c,
    In (key, new) to_replace -> In c new ->
    (c < 256)%N /\ ref_isdecimal c = false.
Proof.
  intros key new c Hin Hc.
  assert (H : forallb
                (fun kv : string * list N =>
                   forallb (fun c => (c <? 256)%N && negb (ref_isdecimal c))
                           (snd kv))
                to_replace = true) by (vm_compute; reflexivity).
  rewrite forallb_forall in H. specialize (H (key, new) Hin).
  cbn [snd] in H. rewrite forallb_forall in H. specialize (H c Hc).
  apply andb_true_iff in H. destruct H as [H1 H2].
  apply N.ltb_lt in H1. apply negb_true_iff in H2. split; assumption.
Qed.

Lemma clean_text_no_digit :
  forall db text c,
    latin1 db -> In c (clean_text db text) -> isdecimal db c = false.
Proof.
  intros db text c Hdb Hin. unfold clean_text in Hin.
  rewrite sub_spaces in Hin.
  apply In_strip, In_squeeze in Hin. destruct Hin as [->|Hin].
  - rewrite (latin1_isdecimal db Hdb 32%N) by reflexivity. reflexivity.
  - apply (numeric_stage_no_digit db Hdb _ c Hin).
Qed.

(** X3.  No decimal digit is left in the output of [clean_enunciado], nor in
    the text that [remove_special_chars] makes of it: the numeric stage
    consumes every digit, and no token and no entry of [to_replace] brings
    one in. *)
Theorem cleaned_text_has_no_digit :
  forall db parser html caracteres c,
    latin1 db ->
    iteration_of
      (special_chars db (clean_enunciado db parser html)) caracteres ->
    (In c (clean_enunciado db parser html) -> isdecimal db c = false) /\
    (In c (remove_special_chars_in db caracteres
             (clean_enunciado db parser html)) ->
     isdecimal db c = false).
Proof.
  intros db parser html caracteres c Hdb Horder.
  assert (Hclean : forall x, In x (clean_enunciado db parser html) ->
                             isdecimal db x = false).
  { intros x Hx. apply (clean_text_no_digit db _ x Hdb Hx). }
  split; [apply Hclean|].
  intros Hin. rewrite (remove_special_chars_in_spec db caracteres _ Horder) in Hin.
  apply In_strip, In_squeeze in Hin. destruct Hin as [->|Hin].
  - rewrite (latin1_isdecimal db Hdb 32%N) by reflexivity. reflexivity.
  - apply in_flat_map in Hin. destruct Hin as [x [Hx Hc]].
    apply In_transliterate in Hc.
    destruct Hc as [[-> _]|[new [Hnew Hc]]].
    + apply Hclean, Hx.
    + apply dict_get_In in Hnew.
      destruct (replacement_chars_latin1 _ _ c Hnew Hc) as [Hlt Hd].
      rewrite (latin1_isdecimal db Hdb c Hlt). exact Hd.
Qed.

Lemma cleaned_text_has_no_digit_witness :
  let parser := fun _ : str => [Tag (u "p") [Text NavigableString (u "2+2")]] in
  (In 110%N (clean_enunciado Unicode.ref parser (u "<p>2+2</p>")) ->
   isdecimal Unicode.ref 110%N = false) /\
  (In 110%N (remove_special_chars_in Unicode.ref [32; 43]%N
               (clean_enunciado Unicode.ref parser (u "<p>2+2</p>"))) ->
   isdecimal Unicode.ref 110%N = false).
Proof.
  intros parser.
  apply (cleaned_text_has_no_digit Unicode.ref parser (u "<p>2+2</p>")
           [32; 43]%N 110%N ref_latin1).
  split.
  - repeat constructor; cbn; intuition discriminate.
  - intros c. vm_compute. tauto.
Defined.

(** ** What a stage leaves alone, and what it leaves behind *)

Lemma absent_nowhere :
  forall (M : str -> Prop) (P : char -> Prop) text,
    (forall s, M s -> exists c rest, s = c :: rest /\ P c) ->
    (forall c, In c text -> ~ P c) ->
    nowhere M text.
Proof.
  intros M P text Hhead Hno pre suf Ht HM.
  destruct (Hhead suf HM) as [c [rest [-> Hc]]].
  apply (Hno c); [|exact Hc].
  rewrite Ht. apply in_or_app. right. left. reflexivity.
Qed.

(** X4.  A stage changes nothing in a text that lacks the character its
    patterns start with: the LaTeX stage needs a backslash, the currency
    stage a dollar sign, the numeric stage a decimal digit. *)
Theorem stages_need_their_first_character :
  forall db text,
    latin1 db ->
    (~ In 92%N text -> stage db latex_substitution text = text) /\
    (~ In 36%N text -> stage db currency_substitution text = text) /\
    ((forall c, In c text -> isdecimal db c = false) ->
     stage db numeric_substitution text = text).
Proof.
  intros db text Hdb. split; [|split].
  - intros Hno.
    assert (Hback : forall M : str -> Prop,
               (forall s, M s -> exists rest, s = 92%N :: rest) ->
               nowhere M text).
    { intros M HM. apply (absent_nowhere M (fun c => c = 92%N)).
      - intros s Hs. destruct (HM s Hs) as [rest ->].
        exists 92%N, rest. split; reflexivity.
      - intros c Hc ->. apply Hno, Hc. }
    change (stage db latex_substitution text)
      with (sub db true latex_frac (u " latex ")
              (sub db true latex_inline (u " latex ")
                 (sub db true latex_display (u " latex ") text))).
    rewrite (sub_nowhere_prefix db true latex_display eq_refl _ text
               (Hback _ (display_head db Hdb))).
    rewrite (sub_nowhere_prefix db true latex_inline eq_refl _ text
               (Hback _ (inline_head db Hdb))).
    apply (sub_nowhere_prefix db true latex_frac eq_refl _ text
             (Hback _ (frac_head db Hdb))).
  - intros Hno.
    change (stage db currency_substitution text)
      with (sub db true currency_pattern (u " BRL ") text).
    apply (sub_nowhere_prefix db true currency_pattern
             (proj1 currency_ordinary)).
    intros pre suf Ht HM.
    destruct (currency_head db Hdb suf HM) as [c1 [rest [-> _]]].
    apply Hno. rewrite Ht. apply in_or_app. right. right. left. reflexivity.
  - intros Hno.
    change (stage db numeric_substitution text)
      with (sub db true number_pattern (u " número ")
              (sub db true percent_pattern (u " número ") text)).
    rewrite (sub_nowhere_prefix db true percent_pattern
               (proj1 percent_pattern_ordinary) (u " número ") text).
    + apply (sub_nowhere_prefix db true number_pattern
               (proj1 number_pattern_ordinary)).
      apply no_digit_nowhere; [right; left; reflexivity|exact Hno].
    + apply no_digit_nowhere; [left; reflexivity|exact Hno].
Qed.

Lemma stages_need_their_first_character_witness :
  stage Unicode.ref latex_substitution (u "r$ 5,00 e 10%") = u "r$ 5,00 e 10%" /\
  stage Unicode.ref currency_substitution (u "\(x\) e 10%") = u "\(x\) e 10%" /\
  stage Unicode.ref numeric_substitution (u "\(x\) e r$") = u "\(x\) e r$".
Proof.
  split; [|split].
  - apply (stages_need_their_first_character Unicode.ref (u "r$ 5,00 e 10%")
             ref_latin1).
    vm_compute. intuition discriminate.
  - apply (stages_need_their_first_character Unicode.ref (u "\(x\) e 10%")
             ref_latin1).
    vm_compute. intuition discriminate.
  - apply (stages_need_their_first_character Unicode.ref (u "\(x\) e r$")
             ref_latin1).
    intros c Hc. vm_compute in Hc.
    repeat (destruct Hc as [<-|Hc]; [reflexivity|]). destruct Hc.
Defined.

Lemma latex_stage_nowhere :
  forall db text,
    latin1 db ->
    nowhere (display_at db) (stage db latex_substitution text) /\
    nowhere (inline_at db) (stage db latex_substitution text) /\
    nowhere (frac_at db) (stage db latex_substitution text).
Proof.
  intros db text Hdb.
  set (x1 := sub db true latex_display (u " latex ") text).
  set (x2 := sub db true latex_inline (u " latex ") x1).
  set (x3 := sub db true latex_frac (u " latex ") x2).
  change (stage db latex_substitution text) with x3.
  assert (D1 : nowhere (display_at db) x1).
  { apply (nowhere_after (display_at db) (word_of not_newline) (u " latex ")
             (display_at db)
             (latex_not_inside (display_at db) (display_head db Hdb))
             (display_transfer db Hdb (display_at db)) (fun s H => H)
             (matches_prefix_nil db true latex_display eq_refl)
             ltac:(discriminate) text).
    apply display_latexed, Hdb. }
  assert (D2 : nowhere (display_at db) x2).
  { apply (nowhere_preserved (inline_at db) (word_of not_newline) (u " latex ")
             (display_at db)
             (latex_not_inside (display_at db) (display_head db Hdb))
             (display_transfer db Hdb (inline_at db)) x1 x2
             (inline_latexed db Hdb x1) D1). }
  assert (I2 : nowhere (inline_at db) x2).
  { apply (nowhere_after (inline_at db) (word_of not_newline) (u " latex ")
             (inline_at db)
             (latex_not_inside (inline_at db) (inline_head db Hdb))
             (inline_transfer db Hdb (inline_at db)) (fun s H => H)
             (matches_prefix_nil db true latex_inline eq_refl)
             ltac:(discriminate) x1).
    apply inline_latexed, Hdb. }
  split; [|split].
  - apply (nowhere_preserved (frac_at db) (word_of not_newline) (u " latex ")
             (display_at db)
             (latex_not_inside (display_at db) (display_head db Hdb))
             (display_transfer db Hdb (frac_at db)) x2 x3
             (frac_latexed db Hdb x2) D2).
  - apply (nowhere_preserved (frac_at db) (word_of not_newline) (u " latex ")
             (inline_at db)
             (latex_not_inside (inline_at db) (inline_head db Hdb))
             (inline_transfer db Hdb (frac_at db)) x2 x3
             (frac_latexed db Hdb x2) I2).
  - apply (nowhere_after (frac_at db) (word_of not_newline) (u " latex ")
             (frac_at db)
             (latex_not_inside (frac_at db) (frac_head db Hdb))
             (frac_transfer db Hdb (frac_at db)) (fun s H => H)
             (matches_prefix_nil db true latex_frac eq_refl)
             ltac:(discriminate) x2).
    apply frac_latexed, Hdb.
Qed.

Lemma nowhere_no_match :
  forall db r text,
    context_free r = true ->
    nowhere (matches_prefix db true r) text ->
    forall pre suf,
      text = pre ++ suf -> match_at db true r (rev pre, suf) = None.
Proof.
  intros db r text Hfree Hno pre suf Ht.
  destruct (match_at db true r (rev pre, suf)) eqn:E; [|reflexivity].
  exfalso. apply (Hno pre suf Ht).
  apply (match_at_prefix db true r (rev pre) suf Hfree).
  rewrite E. discriminate.
Qed.

(** X5.  After the LaTeX, the currency or the numeric stage, no pattern of
    that stage matches at any position of the stage's output: a search for
    the pattern in the output finds nothing. *)
Theorem stage_output_has_no_match :
  forall db text rule p pre suf,
    latin1 db ->
    In rule [latex_substitution; currency_substitution;
             numeric_substitution] ->
    In p (rule_patterns rule) ->
    stage db rule text = pre ++ suf ->
    match_at db true p (rev pre, suf) = None.
Proof.
  intros db text rule p pre suf Hdb Hrule Hp Hsplit.
  destruct Hrule as [<-|[<-|[<-|[]]]].
  - destruct (latex_stage_nowhere db text Hdb) as [D [I F]].
    destruct Hp as [<-|[<-|[<-|[]]]].
    + apply (nowhere_no_match db latex_display _ eq_refl D pre suf Hsplit).
    + apply (nowhere_no_match db latex_inline _ eq_refl I pre suf Hsplit).
    + apply (nowhere_no_match db latex_frac _ eq_refl F pre suf Hsplit).
  - destruct Hp as [<-|[]].
    refine (nowhere_no_match db currency_pattern _
              (proj1 currency_ordinary) _ pre suf Hsplit).
    change (stage db currency_substitution text)
      with (sub db true currency_pattern (u " BRL ") text).
    apply (nowhere_after
             (matches_prefix db true currency_pattern)
             (word_of (fun _ => true)) (u " BRL ")
             (matches_prefix db true currency_pattern)
             (currency_not_inside db Hdb)
             (currency_transfer db Hdb _)
             (fun s H => H)
             (matches_prefix_nil db true currency_pattern
                (proj2 currency_ordinary))
             ltac:(discriminate)
             text).
    apply (sub_rewritten_prefix db true currency_pattern
             (proj1 currency_ordinary) (proj2 currency_ordinary)
             (fun _ => true) (accepts_anything db true currency_pattern)).
  - assert (Hno : forall c, In c (stage db numeric_substitution text) ->
                            isdecimal db c = false)
      by (intros c; apply numeric_stage_no_digit, Hdb).
    destruct Hp as [<-|[<-|[]]].
    + refine (nowhere_no_match db percent_pattern _
                (proj1 percent_pattern_ordinary) _ pre suf Hsplit).
      apply no_digit_nowhere; [left; reflexivity|exact Hno].
    + refine (nowhere_no_match db number_pattern _
                (proj1 number_pattern_ordinary) _ pre suf Hsplit).
      apply no_digit_nowhere; [right; left; reflexivity|exact Hno].
Qed.

Lemma stage_output_has_no_match_witness :
  match_at Unicode.ref true currency_pattern
    (rev (u "custa "), u " BRL  hoje") = None.
Proof.
  apply (stage_output_has_no_match Unicode.ref (u "custa R$ 1,50 hoje")
           currency_substitution currency_pattern
           (u "custa ") (u " BRL  hoje") ref_latin1).
  - right. left. reflexivity.
  - left. reflexivity.
  - vm_compute. reflexivity.
Defined.

(** ** The transliterator *)

(** X6.  The result of [remove_special_chars] does not depend on the order
    in which the set [caracteres] is iterated, an order that Python leaves
    open: every character of the text is rewritten on its own, and the
    whitespace is collapsed afterwards. *)
Theorem remove_special_chars_order_is_immaterial :
  forall db text order1 order2,
    iteration_of (special_chars db text) order1 ->
    iteration_of (special_chars db text) order2 ->
    remove_special_chars_in db order1 text
    = remove_special_chars_in db order2 text /\
    remove_special_chars_in db order1 text
    = strip (sub db true spaces (u " ") (flat_map (transliterate db) text)).
Proof.
  intros db text order1 order2 H1 H2.
  rewrite (remove_special_chars_in_spec db order1 text H1).
  rewrite (remove_special_chars_in_spec db order2 text H2).
  rewrite sub_spaces. split; reflexivity.
Qed.

Lemma remove_special_chars_order_is_immaterial_witness :
  remove_special_chars_in Unicode.ref [59; 36; 32]%N (u "a;b $ c")
  = remove_special_chars_in Unicode.ref [32; 59; 36]%N (u "a;b $ c") /\
  remove_special_chars_in Unicode.ref [59; 36; 32]%N (u "a;b $ c")
  = strip (sub Unicode.ref true spaces (u " ")
             (flat_map (transliterate Unicode.ref) (u "a;b $ c"))).
Proof.
  apply (remove_special_chars_order_is_immaterial Unicode.ref (u "a;b $ c")
           [59; 36; 32]%N [32; 59; 36]%N).
  - split.
    + repeat constructor; cbn; intuition discriminate.
    + intros c. vm_compute. tauto.
  - split.
    + repeat constructor; cbn; intuition discriminate.
    + intros c. vm_compute. tauto.
Defined.

(** X7.  A character that has an entry in [to_replace] and is not matched
    by the set of kept characters never occurs in the output of
    [remove_special_chars]: no replacement brings back a character that
    another entry removes. *)
Theorem replaced_chars_are_gone :
  forall db caracteres text c new,
    iteration_of (special_chars db text) caracteres ->
    dict_get (unicode_escape c) to_replace = Some new ->
    kept db c = false ->
    ~ In c (remove_special_chars_in db caracteres text).
Proof.
  intros db caracteres text c new Horder Hnew Hkept Hin.
  rewrite (remove_special_chars_in_spec db caracteres text Horder) in Hin.
  rewrite (result_chars_have_no_entry db text c Hin Hkept) in Hnew.
  discriminate.
Qed.

Lemma replaced_chars_are_gone_witness :
  ~ In 36%N (remove_special_chars_in Unicode.ref [36; 32; 62]%N
               (u "custa $ 5 > 4")).
Proof.
  apply (replaced_chars_are_gone Unicode.ref [36; 32; 62]%N
           (u "custa $ 5 > 4") 36%N (u " dólar ")).
  - split.
    + repeat constructor; cbn; intuition discriminate.
    + intros c. vm_compute. tauto.
  - vm_compute. reflexivity.
  - vm_compute. reflexivity.
Defined.

Lemma occurrences_app :
  forall c a b, occurrences c (a ++ b) = occurrences c a + occurrences c b.
Proof.
  intros c a b. unfold occurrences. rewrite filter_app, length_app.
  reflexivity.
Qed.

Lemma occurrences_visible :
  forall c s, isspace c = false -> occurrences c (visible s) = occurrences c s.
Proof.
  intros c s Hc. induction s as [|x s IH].
  - reflexivity.
  - rewrite visible_cons. destruct (isspace x) eqn:Hx.
    + rewrite IH. unfold occurrences. cbn [filter].
      destruct (char_eqb c x) eqn:E; [|reflexivity].
      apply char_eqb_eq in E. congruence.
    + unfold occurrences in *. cbn [filter].
      destruct (char_eqb c x); cbn [List.length]; rewrite IH; reflexivity.
Qed.

Lemma occurrences_transliterate :
  forall db c text,
    transliterate db c = [c] ->
    occurrences c text <= occurrences c (flat_map (transliterate db) text).
Proof.
  intros db c text Hc. induction text as [|x text IH].
  - apply Nat.le_refl.
  - cbn [flat_map]. rewrite occurrences_app.
    change (x :: text) with ([x] ++ text). rewrite occurrences_app.
    apply Nat.add_le_mono; [|exact IH].
    destruct (char_eqb c x) eqn:E.
    + apply char_eqb_eq in E. subst x. rewrite Hc. apply Nat.le_refl.
    + unfold occurrences at 1. cbn [filter]. rewrite E. apply Nat.le_0_l.
Qed.

Lemma occurrences_remove_special_chars :
  forall db caracteres text c,
    iteration_of (special_chars db text) caracteres ->
    transliterate db c = [c] ->
    isspace c = false ->
    occurrences c text
    <= occurrences c (remove_special_chars_in db caracteres text).
Proof.
  intros db caracteres text c Horder Hc Hspace.
  rewrite (remove_special_chars_in_spec db caracteres text Horder).
  rewrite <- (occurrences_visible c (strip _) Hspace).
  rewrite visible_strip, visible_squeeze.
  rewrite (occurrences_visible c _ Hspace).
  apply occurrences_transliterate. exact Hc.
Qed.

(** X8.  A character matched by the set of kept characters is never
    removed: it occurs in the output of [remove_special_chars] at least as
    often as in the text, whatever [to_replace] says about it. *)
Theorem kept_chars_survive :
  forall db caracteres text c,
    iteration_of (special_chars db text) caracteres ->
    kept db c = true ->
    isspace c = false ->
    occurrences c text
    <= occurrences c (remove_special_chars_in db caracteres text).
Proof.
  intros db caracteres text c Horder Hkept Hspace.
  apply (occurrences_remove_special_chars db caracteres text c Horder);
    [|exact Hspace].
  unfold transliterate. rewrite Hkept. reflexivity.
Qed.

Lemma kept_chars_survive_witness :
  dict_get (unicode_escape 95%N) to_replace = Some (u " ") /\
  occurrences 95%N (u "a_b_c;")
  <= occurrences 95%N
       (remove_special_chars_in Unicode.ref [59]%N (u "a_b_c;")).
Proof.
  split; [vm_compute; reflexivity|].
  apply (kept_chars_survive Unicode.ref [59]%N (u "a_b_c;") 95%N).
  - split.
    + repeat constructor; cbn; intuition discriminate.
    + intros c. vm_compute. tauto.
  - vm_compute. reflexivity.
  - reflexivity.
Defined.

Lemma length_append :
  forall a b : string,
    String.length (a ++ b) = String.length a + String.length b.
Proof.
  induction a as [|x a IH]; intros b; cbn.
  - reflexivity.
  - rewrite IH. reflexivity.
Qed.

Lemma length_hex : forall width n, String.length (hex width n) = width.
Proof.
  induction width as [|w IH]; intros n; cbn [hex].
  - reflexivity.
  - rewrite length_append, IH. cbn. lia.
Qed.

Lemma unicode_escape_length :
  forall c, In (String.length (unicode_escape c)) [1; 2; 4; 6; 10].
Proof.
  intros c. unfold unicode_escape.
  repeat match goal with
         | |- context [if ?b then _ else _] => destruct b
         end;
    rewrite ?length_append, ?length_hex; cbn; tauto.
Qed.

Lemma menos_key :
  forall key, In (key, u " menos ") to_replace -> key = "\2212"%string.
Proof.
  intros key Hin.
  assert (H : forallb
                (fun kv : string * list N =>
                   negb (str_eqb (snd kv) (u " menos "))
                   || String.eqb (fst kv) "\2212")
                to_replace = true) by (vm_compute; reflexivity).
  rewrite forallb_forall in H. specialize (H _ Hin). cbn [fst snd] in H.
  replace (str_eqb (u " menos ") (u " menos ")) with true in H
    by (vm_compute; reflexivity).
  apply String.eqb_eq in H. exact H.
Qed.

(** X9.  The entry of [to_replace] for the minus sign is keyed [\2212],
    without the [u] of an escape: no character encodes to that key, so
    " menos " is never put into a text, and the minus sign U+2212 stays where
    it is. *)
Theorem minus_sign_entry_is_never_used :
  forall db caracteres text,
    iteration_of (special_chars db text) caracteres ->
    In ("\2212"%string, u " menos ") to_replace /\
    (forall c, unicode_escape c <> "\2212"%string) /\
    (forall c, dict_get (unicode_escape c) to_replace <> Some (u " menos ")) /\
    occurrences 8722%N text
    <= occurrences 8722%N (remove_special_chars_in db caracteres text).
Proof.
  intros db caracteres text Horder.
  assert (Hkey : forall c, unicode_escape c <> "\2212"%string).
  { intros c H. pose proof (unicode_escape_length c) as Hl.
    rewrite H in Hl. cbn in Hl. intuition discriminate. }
  split; [|split; [exact Hkey|split]].
  - vm_compute. tauto.
  - intros c H. apply dict_get_In, menos_key in H. apply (Hkey c H).
  - apply (occurrences_remove_special_chars db caracteres text _ Horder);
      [|reflexivity].
    apply transliterate_no_entry. vm_compute. reflexivity.
Qed.

Lemma minus_sign_entry_is_never_used_witness :
  occurrences 8722%N [53; 8722; 51]%N
  <= occurrences 8722%N
       (remove_special_chars_in Unicode.ref [8722]%N [53; 8722; 51]%N).
Proof.
  apply (minus_sign_entry_is_never_used Unicode.ref [8722]%N
           [53; 8722; 51]%N).
  split.
  - repeat constructor; cbn; intuition discriminate.
  - intros c. vm_compute. tauto.
Defined.

(** ** The extractor *)

Lemma visible_join :
  forall parts, visible (join (u " ") parts) = flat_map visible parts.
Proof.
  induction parts as [|p parts IH].
  - reflexivity.
  - destruct parts as [|q parts].
    + cbn. rewrite app_nil_r. reflexivity.
    + change (join (u " ") (p :: q :: parts))
        with (p ++ u " " ++ join (u " ") (q :: parts)).
      rewrite !visible_app, IH. reflexivity.
Qed.

(** X10.  The extractor loses nothing but whitespace and adds nothing but
    blanks: the characters of its output that are not whitespace are those
    of the string nodes of the document, of every class and under every tag,
    in document order. *)
Theorem text_from_soup_keeps_every_string :
  forall doc,
    visible (text_from_soup doc)
    = flat_map (fun element => visible (element_text element))
               (findAll_text doc).
Proof.
  intros doc. unfold text_from_soup. rewrite visible_join.
  induction (findAll_text doc) as [|e l IH].
  - reflexivity.
  - cbn [map flat_map]. rewrite IH, visible_strip. reflexivity.
Qed.

(** ** The files of the driver *)

Lemma str_eqb_eq : forall a b, str_eqb a b = true <-> a = b.
Proof.
  induction a as [|x a IH]; destruct b as [|y b]; cbn; split;
    try discriminate; try reflexivity.
  - intros H. apply andb_true_iff in H. destruct H as [H1 H2].
    apply char_eqb_eq in H1. apply IH in H2. congruence.
  - intros H. injection H as -> ->. rewrite char_eqb_refl. cbn.
    apply IH. reflexivity.
Qed.

Lemma str_eqb_refl : forall a, str_eqb a a = true.
Proof. intros a. apply str_eqb_eq. reflexivity. Qed.

Lemma str_eqb_neq : forall a b, a <> b -> str_eqb a b = false.
Proof.
  intros a b H. destruct (str_eqb a b) eqn:E; [|reflexivity].
  apply str_eqb_eq in E. contradiction.
Qed.

Lemma lookup_remove :
  forall p q fs,
    lookup_path p (remove_path q fs)
    = if str_eqb q p then None else lookup_path p fs.
Proof.
  intros p q fs. unfold remove_path.
  induction fs as [|[r e] fs IH]; cbn [filter lookup_path fst].
  - destruct (str_eqb q p); reflexivity.
  - destruct (str_eqb r q) eqn:Erq; cbn [negb].
    + rewrite IH. apply str_eqb_eq in Erq. subst r.
      destruct (str_eqb q p); reflexivity.
    + cbn [lookup_path]. rewrite IH.
      destruct (str_eqb r p) eqn:Erp; [|reflexivity].
      apply str_eqb_eq in Erp. subst r.
      destruct (str_eqb q p) eqn:E; [|reflexivity].
      apply str_eqb_eq in E. subst q.
      rewrite str_eqb_refl in Erq. discriminate.
Qed.

Lemma lookup_write_file :
  forall w path content p,
    lookup_path p (files (write_file w path content))
    = if str_eqb path p then Some (RegularFile content)
      else lookup_path p (files w).
Proof.
  intros w path content p. cbn [write_file with_files files lookup_path].
  rewrite lookup_remove. destruct (str_eqb path p); reflexivity.
Qed.

Lemma rename_downloaded_file_done :
  forall w original_file new_file content,
    lookup_path original_file (files w) = Some (RegularFile content) ->
    exists w',
      rename_downloaded_file w original_file new_file = Done w' /\
      submitted w' = submitted w /\
      has_text_area w' = has_text_area w /\
      has_export_button w' = has_export_button w /\
      forall p,
        lookup_path p (files w')
        = if str_eqb new_file p then Some (RegularFile content)
          else if str_eqb original_file p then None
          else lookup_path p (files w).
Proof.
  intros w original_file new_file content H.
  unfold rename_downloaded_file. rewrite H.
  eexists. split; [reflexivity|]. repeat split.
  intros p. cbn [with_files files lookup_path].
  rewrite !lookup_remove.
  destruct (str_eqb new_file p); reflexivity.
Qed.

(** X11.  When the download stands at the original path as a regular file
    (and no directory stands at the new path, which [os.rename] refuses),
    [rename_downloaded_file] returns and has moved the file: the new path
    holds the content, the original path is free, every other path and the
    submissions are as before.  If the new path was free, renaming back
    restores every path. *)
Theorem rename_downloaded_file_moves_the_file :
  forall w original_file new_file content,
    lookup_path original_file (files w) = Some (RegularFile content) ->
    lookup_path new_file (files w) <> Some Directory ->
    exists w',
      rename_downloaded_file w original_file new_file = Done w' /\
      submitted w' = submitted w /\
      lookup_path new_file (files w') = Some (RegularFile content) /\
      (original_file <> new_file -> path_exists w' original_file = false) /\
      (forall p,
         p <> original_file -> p <> new_file ->
         lookup_path p (files w') = lookup_path p (files w)) /\
      (lookup_path new_file (files w) = None ->
       exists w'',
         rename_downloaded_file w' new_file original_file = Done w'' /\
         forall p, lookup_path p (files w'') = lookup_path p (files w)).
Proof.
  intros w original_file new_file content H _.
  destruct (rename_downloaded_file_done w original_file new_file content H)
    as [w' [H1 [H2 [_ [_ H3]]]]].
  assert (Hnew : lookup_path new_file (files w') = Some (RegularFile content)).
  { rewrite H3, str_eqb_refl. reflexivity. }
  exists w'. split; [exact H1|]. split; [exact H2|]. split; [exact Hnew|].
  split; [|split].
  - intros Hne. unfold path_exists. rewrite H3.
    rewrite (str_eqb_neq new_file original_file)
      by (intros E; apply Hne; symmetry; exact E).
    rewrite str_eqb_refl. reflexivity.
  - intros p Hp1 Hp2. rewrite H3.
    rewrite (str_eqb_neq new_file p)
      by (intros E; apply Hp2; symmetry; exact E).
    rewrite (str_eqb_neq original_file p)
      by (intros E; apply Hp1; symmetry; exact E).
    reflexivity.
  - intros Hfree.
    destruct (rename_downloaded_file_done w' new_file original_file content
                Hnew) as [w'' [B1 [_ [_ [_ B3]]]]].
    exists w''. split; [exact B1|].
    intros p. rewrite B3.
    destruct (str_eqb original_file p) eqn:Eo.
    + apply str_eqb_eq in Eo. subst p. symmetry. exact H.
    + destruct (str_eqb new_file p) eqn:En.
      * apply str_eqb_eq in En. subst p. symmetry. exact Hfree.
      * rewrite H3, En, Eo. reflexivity.
Qed.

Lemma rename_downloaded_file_moves_the_file_witness :
  exists w',
    rename_downloaded_file Examples.resumed
      (u "/home/enunciados/coh-metrix/q1.csv") (u "/home/q1") = Done w' /\
    submitted w' = submitted Examples.resumed /\
    lookup_path (u "/home/q1") (files w') = Some (RegularFile (u "metrics")) /\
    path_exists w' (u "/home/enunciados/coh-metrix/q1.csv") = false /\
    (forall p,
       p <> u "/home/enunciados/coh-metrix/q1.csv" -> p <> u "/home/q1" ->
       lookup_path p (files w') = lookup_path p (files Examples.resumed)) /\
    exists w'',
      rename_downloaded_file w' (u "/home/q1")
        (u "/home/enunciados/coh-metrix/q1.csv") = Done w'' /\
      forall p,
        lookup_path p (files w'') = lookup_path p (files Examples.resumed).
Proof.
  destruct (rename_downloaded_file_moves_the_file Examples.resumed
              (u "/home/enunciados/coh-metrix/q1.csv") (u "/home/q1")
              (u "metrics"))
    as [w' [H1 [H2 [H3 [H4 [H5 H6]]]]]].
  - vm_compute. reflexivity.
  - vm_compute. discriminate.
  - exists w'. split; [exact H1|]. split; [exact H2|]. split; [exact H3|].
    split; [apply H4; vm_compute; discriminate|]. split; [exact H5|].
    apply H6. vm_compute. reflexivity.
Defined.

(** ** The loop of the driver *)

Lemma txt_not_download :
  forall cwd a b, txt_dir cwd ++ a <> download_dir cwd ++ b.
Proof.
  intros cwd a b H. unfold txt_dir, download_dir in H.
  rewrite <- !app_assoc in H. apply app_inv_head in H.
  vm_compute in H. discriminate.
Qed.

Lemma renamed_not_metrics :
  forall cwd id1 id2, id1 = id2 ++ u ".csv" \/ id2 = id1 ++ u ".csv" ->
    renamed_path cwd id1 <> renamed_path cwd id2.
Proof.
  intros cwd id1 id2 Hid H. unfold renamed_path in H.
  apply app_inv_head in H. apply app_inv_head in H.
  destruct Hid as [E|E]; rewrite E in H; apply (f_equal (@List.length N)) in H;
    rewrite length_app in H; cbn in H; lia.
Qed.

(** The files and the submissions after a statement has gone through the
    page. *)
Lemma process_fresh :
  forall db parser cwd metrics_of w q id0 raw,
    strip q <> [] ->
    split q (u "#;#;#") = [id0; raw] ->
    path_exists w (metrics_path cwd (strip id0)) = false ->
    has_text_area w = true ->
    has_export_button w = true ->
    exists w',
      process db parser cwd metrics_of w q = Done w' /\
      submitted w'
      = submitted w
        ++ [remove_special_chars db (clean_enunciado db parser raw)] /\
      has_text_area w' = true /\
      has_export_button w' = true /\
      forall p,
        lookup_path p (files w')
        = if str_eqb (renamed_path cwd (strip id0)) p
          then Some (RegularFile
                       (metrics_of
                          (remove_special_chars db
                             (clean_enunciado db parser raw))))
          else if str_eqb (download_dir cwd ++ u "/" ++ filename) p
          then None
          else if str_eqb (txt_path cwd (strip id0)) p
          then Some (RegularFile
                       (remove_special_chars db
                          (clean_enunciado db parser raw)))
          else lookup_path p (files w).
Proof.
  intros db parser cwd metrics_of w q id0 raw Hq Hsplit Hnew Hta Heb.
  unfold process.
  destruct (strip q) as [|c rest] eqn:Hs; [congruence|].
  cbn [List.length Nat.ltb Nat.leb]. rewrite Hsplit, Hnew. cbn [negb].
  set (text := remove_special_chars db (clean_enunciado db parser raw)).
  set (w1 := write_file w (txt_path cwd (strip id0)) text).
  unfold submit. change (has_text_area w1) with (has_text_area w).
  rewrite Hta. cbn [bind].
  set (w2 := {| files := files w1; submitted := submitted w1 ++ [text];
                has_text_area := true;
                has_export_button := has_export_button w1 |}).
  unfold click_export. change (has_export_button w2) with (has_export_button w).
  rewrite Heb. cbn [bind].
  set (data := download_dir cwd ++ u "/" ++ filename).
  set (w3 := write_file w2 data (metrics_of text)).
  assert (Hdata : lookup_path data (files w3)
                  = Some (RegularFile (metrics_of text))).
  { unfold w3. rewrite lookup_write_file, str_eqb_refl. reflexivity. }
  destruct (rename_downloaded_file_done w3 data
              (renamed_path cwd (strip id0)) _ Hdata)
    as [w' [H1 [H2 [H3 [H4 H5]]]]].
  exists w'. split; [exact H1|]. split; [exact H2|].
  split; [rewrite H3; reflexivity|]. split; [rewrite H4; exact Heb|].
  intros p. rewrite H5. unfold w3. rewrite lookup_write_file.
  change (files w2) with (files w1). unfold w1.
  rewrite lookup_write_file.
  destruct (str_eqb (renamed_path cwd (strip id0)) p); [reflexivity|].
  destruct (str_eqb data p); reflexivity.
Qed.

(** X12.  A statement that is well formed and has no [<id>.csv] in the
    download directory goes through the whole round: its cleaned text is
    submitted once and written to [<id>.txt], the metrics of that text end up
    under [<id>] in the download directory, the default download name is
    free again, and no other path changes.  The path [<id>.csv] that the
    next run tests is still missing.  (The world has the two output
    directories; no directory stands at a path that is written.) *)
Theorem process_fresh_statement :
  forall db parser cwd metrics_of w q id0 raw,
    strip q <> [] ->
    split q (u "#;#;#") = [id0; raw] ->
    path_exists w (metrics_path cwd (strip id0)) = false ->
    has_text_area w = true ->
    has_export_button w = true ->
    (forall p,
       In p [txt_path cwd (strip id0); renamed_path cwd (strip id0);
             download_dir cwd ++ u "/" ++ filename] ->
       lookup_path p (files w) <> Some Directory) ->
    exists w',
      process db parser cwd metrics_of w q = Done w' /\
      submitted w'
      = submitted w
        ++ [remove_special_chars db (clean_enunciado db parser raw)] /\
      (forall p,
         lookup_path p (files w')
         = if str_eqb (renamed_path cwd (strip id0)) p
           then Some (RegularFile
                        (metrics_of
                           (remove_special_chars db
                              (clean_enunciado db parser raw))))
           else if str_eqb (download_dir cwd ++ u "/" ++ filename) p
           then None
           else if str_eqb (txt_path cwd (strip id0)) p
           then Some (RegularFile
                        (remove_special_chars db
                           (clean_enunciado db parser raw)))
           else lookup_path p (files w)) /\
      path_exists w' (metrics_path cwd (strip id0)) = false.
Proof.
  intros db parser cwd metrics_of w q id0 raw Hq Hsplit Hnew Hta Heb _.
  destruct (process_fresh db parser cwd metrics_of w q id0 raw
              Hq Hsplit Hnew Hta Heb) as [w' [H1 [H2 [_ [_ H3]]]]].
  exists w'. repeat split; try assumption.
  unfold path_exists. rewrite H3.
  rewrite (str_eqb_neq (renamed_path cwd (strip id0))
             (metrics_path cwd (strip id0))).
  - destruct (str_eqb (download_dir cwd ++ u "/" ++ filename)
                      (metrics_path cwd (strip id0))); [reflexivity|].
    rewrite (str_eqb_neq (txt_path cwd (strip id0))
               (metrics_path cwd (strip id0))).
    + exact Hnew.
    + unfold txt_path, metrics_path. apply txt_not_download.
  - change (metrics_path cwd (strip id0))
      with (renamed_path cwd (strip id0 ++ u ".csv")).
    apply renamed_not_metrics. right. reflexivity.
Qed.

Lemma process_fresh_statement_witness :
  exists w',
    process Unicode.ref Sample.parser (u "/home") (fun text => text)
            Sample.fresh (u " q1 #;#;#<p>Calcule 2+2</p>") = Done w' /\
    submitted w'
    = submitted Sample.fresh
      ++ [remove_special_chars Unicode.ref
            (clean_enunciado Unicode.ref Sample.parser
               (u "<p>Calcule 2+2</p>"))] /\
    (forall p,
       lookup_path p (files w')
       = if str_eqb (renamed_path (u "/home") (strip (u " q1 "))) p
         then Some (RegularFile
                      (remove_special_chars Unicode.ref
                         (clean_enunciado Unicode.ref Sample.parser
                            (u "<p>Calcule 2+2</p>"))))
         else if str_eqb (download_dir (u "/home") ++ u "/" ++ filename) p
         then None
         else if str_eqb (txt_path (u "/home") (strip (u " q1 "))) p
         then Some (RegularFile
                      (remove_special_chars Unicode.ref
                         (clean_enunciado Unicode.ref Sample.parser
                            (u "<p>Calcule 2+2</p>"))))
         else lookup_path p (files Sample.fresh)) /\
    path_exists w' (metrics_path (u "/home") (strip (u " q1 "))) = false.
Proof.
  apply (process_fresh_statement Unicode.ref Sample.parser (u "/home")
           (fun text => text) Sample.fresh
           (u " q1 #;#;#<p>Calcule 2+2</p>") (u " q1 ")
           (u "<p>Calcule 2+2</p>")).
  - vm_compute. discriminate.
  - vm_compute. reflexivity.
  - vm_compute. reflexivity.
  - reflexivity.
  - reflexivity.
  - intros p _. cbn. discriminate.
Defined.

Lemma process_blank_or_malformed :
  forall db parser cwd metrics_of w q,
    (strip q = [] -> process db parser cwd metrics_of w q = Done w) /\
    (strip q <> [] -> List.length (split q (u "#;#;#")) <> 2 ->
     process db parser cwd metrics_of w q = Raised ValueError).
Proof.
  intros db parser cwd metrics_of w q. split.
  - intros Hblank. unfold process. rewrite Hblank. reflexivity.
  - intros Hnonblank Hparts. unfold process.
    destruct (strip q) as [|c rest] eqn:Hs; [congruence|].
    cbn [List.length Nat.ltb Nat.leb].
    destruct (split q (u "#;#;#")) as [|a [|b [|c' l]]]; try reflexivity.
    exfalso. apply Hparts. reflexivity.
Qed.

Lemma process_missing_control :
  forall db parser cwd metrics_of w q id0 raw,
    strip q <> [] ->
    split q (u "#;#;#") = [id0; raw] ->
    path_exists w (metrics_path cwd (strip id0)) = false ->
    has_text_area w && has_export_button w = false ->
    process db parser cwd metrics_of w q = Raised NoSuchElementException.
Proof.
  intros db parser cwd metrics_of w q id0 raw Hq Hsplit Hnew Hc.
  unfold process.
  destruct (strip q) as [|c rest] eqn:Hs; [congruence|].
  cbn [List.length Nat.ltb Nat.leb]. rewrite Hsplit, Hnew. cbn [negb].
  set (text := remove_special_chars db (clean_enunciado db parser raw)).
  set (w1 := write_file w (txt_path cwd (strip id0)) text).
  unfold submit. change (has_text_area w1) with (has_text_area w).
  destruct (has_text_area w); [|reflexivity]. cbn [bind].
  unfold click_export.
  match goal with
  | |- context [has_export_button ?x] =>
      change (has_export_button x) with (has_export_button w)
  end.
  cbn [andb] in Hc. rewrite Hc. reflexivity.
Qed.

Lemma process_done_cases :
  forall db parser cwd metrics_of w q w',
    process db parser cwd metrics_of w q = Done w' ->
    w' = w \/
    exists id0 raw,
      strip q <> [] /\ split q (u "#;#;#") = [id0; raw] /\
      path_exists w (metrics_path cwd (strip id0)) = false /\
      has_text_area w = true /\ has_export_button w = true.
Proof.
  intros db parser cwd metrics_of w q w' H.
  destruct (strip q) as [|c rest] eqn:Hs.
  - left.
    destruct (process_blank_or_malformed db parser cwd metrics_of w q)
      as [Hb _].
    rewrite (Hb Hs) in H. injection H as <-. reflexivity.
  - assert (Hq : strip q <> []) by (rewrite Hs; discriminate).
    destruct (split q (u "#;#;#")) as [|id0 [|raw [|x l]]] eqn:Hsp.
    + destruct (process_blank_or_malformed db parser cwd metrics_of w q)
        as [_ Hm].
      rewrite Hm in H; [discriminate|exact Hq|rewrite Hsp; discriminate].
    + destruct (process_blank_or_malformed db parser cwd metrics_of w q)
        as [_ Hm].
      rewrite Hm in H; [discriminate|exact Hq|rewrite Hsp; discriminate].
    + destruct (path_exists w (metrics_path cwd (strip id0))) eqn:He.
      * left. unfold process in H. rewrite Hs, Hsp, He in H.
        cbn [List.length Nat.ltb Nat.leb negb] in H.
        injection H as <-. reflexivity.
      * right. exists id0, raw.
        destruct (has_text_area w && has_export_button w) eqn:Hc.
        -- apply andb_true_iff in Hc. destruct Hc as [Hta Heb].
           repeat split; first [assumption|reflexivity|discriminate].
        -- rewrite (process_missing_control db parser cwd metrics_of w q
                      id0 raw Hq Hsp He Hc) in H.
           discriminate.
    + destruct (process_blank_or_malformed db parser cwd metrics_of w q)
        as [_ Hm].
      rewrite Hm in H; [discriminate|exact Hq|rewrite Hsp; discriminate].
Qed.

(** X14.  A run in which every block is blank or names a statement whose
    [<id>.csv] stands in the download directory changes nothing: no text is
    written, nothing is submitted, no file is renamed. *)
Theorem done_statements_are_skipped :
  forall db parser cwd metrics_of w questoes,
    (forall q, In q questoes ->
       strip q = [] \/
       exists id0 raw,
         split q (u "#;#;#") = [id0; raw] /\
         path_exists w (metrics_path cwd (strip id0)) = true) ->
    process_all db parser cwd metrics_of w questoes = Done w.
Proof.
  intros db parser cwd metrics_of w questoes.
  induction questoes as [|q rest IH]; intros H.
  - reflexivity.
  - cbn [process_all].
    assert (Hq : process db parser cwd metrics_of w q = Done w).
    { destruct (H q (or_introl eq_refl)) as [Hb|[id0 [raw [Hs He]]]].
      - apply (process_blank_or_malformed db parser cwd metrics_of w q), Hb.
      - unfold process. rewrite Hs, He.
        destruct (0 <? List.length (strip q)); reflexivity. }
    rewrite Hq. cbn [bind]. apply IH.
    intros q' Hq'. apply H. right. exact Hq'.
Qed.

Lemma done_statements_are_skipped_witness :
  run Unicode.ref Sample.parser (u "/home") (fun text => text)
      Examples.resumed (u "q1#;#;#<p>Calcule 2+2</p>#!#!# ")
  = Done Examples.resumed.
Proof.
  apply (done_statements_are_skipped Unicode.ref Sample.parser (u "/home")
           (fun text => text) Examples.resumed
           [u "q1#;#;#<p>Calcule 2+2</p>"; u " "]).
  intros q [<-|[<-|[]]].
  - right. exists (u "q1"), (u "<p>Calcule 2+2</p>").
    split; vm_compute; reflexivity.
  - left. vm_compute. reflexivity.
Defined.

(** X15.  The blocks are processed in order and an exception ends the run:
    once a block raises, the run raises the same exception, whatever blocks
    follow. *)
Theorem failed_block_stops_the_run :
  forall db parser cwd metrics_of before w w1 q e after,
    process_all db parser cwd metrics_of w before = Done w1 ->
    process db parser cwd metrics_of w1 q = Raised e ->
    process_all db parser cwd metrics_of w (before ++ q :: after) = Raised e.
Proof.
  intros db parser cwd metrics_of before.
  induction before as [|b before IH]; intros w w1 q e after Hb Hq.
  - cbn in Hb. injection Hb as <-. cbn [app process_all].
    rewrite Hq. reflexivity.
  - cbn [app process_all] in *.
    destruct (process db parser cwd metrics_of w b) as [w2| |];
      cbn [bind] in *; try discriminate.
    apply (IH w2 w1 q e after Hb Hq).
Qed.

Lemma failed_block_stops_the_run_witness :
  process_all Unicode.ref Sample.parser (u "/home") (fun text => text)
              Sample.fresh
              ([u " "] ++ u "sem delimitador"
                 :: [u "q1#;#;#<p>Calcule 2+2</p>"])
  = Raised ValueError.
Proof.
  apply (failed_block_stops_the_run Unicode.ref Sample.parser (u "/home")
           (fun text => text) [u " "] Sample.fresh Sample.fresh).
  - vm_compute. reflexivity.
  - vm_compute. reflexivity.
Defined.

Lemma process_step :
  forall db parser cwd metrics_of w q w',
    process db parser cwd metrics_of w q = Done w' ->
    has_text_area w' = has_text_area w /\
    has_export_button w' = has_export_button w /\
    (exists texts,
       submitted w' = submitted w ++ texts /\ List.length texts <= 1) /\
    (forall p,
       p <> download_dir cwd ++ u "/" ++ filename ->
       path_exists w p = true -> path_exists w' p = true).
Proof.
  intros db parser cwd metrics_of w q w' H.
  destruct (process_done_cases db parser cwd metrics_of w q w' H)
    as [->|[id0 [raw [Hq [Hs [He [Hta Heb]]]]]]].
  - repeat split; try reflexivity; try (intros; assumption).
    exists []. rewrite app_nil_r. split; [reflexivity|cbn; lia].
  - destruct (process_fresh db parser cwd metrics_of w q id0 raw
                Hq Hs He Hta Heb) as [w2 [H1 [H2 [H3 [H4 H5]]]]].
    rewrite H in H1. injection H1 as <-.
    split; [congruence|]. split; [congruence|]. split.
    + eexists. split; [exact H2|]. cbn. lia.
    + intros p Hp Hex. unfold path_exists in *. rewrite H5.
      destruct (str_eqb (renamed_path cwd (strip id0)) p); [reflexivity|].
      rewrite (str_eqb_neq (download_dir cwd ++ u "/" ++ filename) p)
        by (intros E; apply Hp; symmetry; exact E).
      destruct (str_eqb (txt_path cwd (strip id0)) p); [reflexivity|].
      exact Hex.
Qed.

(** X16.  In a run that ends normally the page keeps its controls, the
    submissions of before stay in place with at most one new text for each
    block after them, and no file is lost but the download under its default
    name: every other path that existed before the run exists after it. *)
Theorem run_keeps_what_was_there :
  forall db parser cwd metrics_of questoes w w',
    process_all db parser cwd metrics_of w questoes = Done w' ->
    has_text_area w' = has_text_area w /\
    has_export_button w' = has_export_button w /\
    (exists texts,
       submitted w' = submitted w ++ texts /\
       List.length texts <= List.length questoes) /\
    (forall p,
       p <> download_dir cwd ++ u "/" ++ filename ->
       path_exists w p = true -> path_exists w' p = true).
Proof.
  intros db parser cwd metrics_of questoes.
  induction questoes as [|q rest IH]; intros w w' H.
  - cbn in H. injection H as <-.
    repeat split; try reflexivity; try (intros; assumption).
    exists []. rewrite app_nil_r. split; [reflexivity|cbn; lia].
  - cbn [process_all] in H.
    destruct (process db parser cwd metrics_of w q) as [w1| |] eqn:Hq;
      cbn [bind] in H; try discriminate.
    destruct (process_step db parser cwd metrics_of w q w1 Hq)
      as [A1 [A2 [[t1 [A3 A4]] A5]]].
    destruct (IH w1 w' H) as [B1 [B2 [[t2 [B3 B4]] B5]]].
    split; [congruence|]. split; [congruence|]. split.
    + exists (t1 ++ t2). split.
      * rewrite B3, A3, app_assoc. reflexivity.
      * rewrite length_app. cbn [List.length]. lia.
    + intros p Hp Hex. apply (B5 p Hp), (A5 p Hp), Hex.
Qed.

Lemma run_keeps_what_was_there_witness :
  let w' := {| files := [(u "/home/enunciados/coh-metrix/q1",
                          RegularFile (u "calcule número mais número"));
                         (u "/home/enunciados/txt/q1.txt",
                          RegularFile (u "calcule número mais número"))];
               submitted := [u "calcule número mais número"];
               has_text_area := true; has_export_button := true |} in
  has_text_area w' = has_text_area Sample.fresh /\
  has_export_button w' = has_export_button Sample.fresh /\
  (exists texts,
     submitted w' = submitted Sample.fresh ++ texts /\
     List.length texts
     <= List.length [u "q1#;#;#<p>Calcule 2+2</p>"; u ""]) /\
  (forall p,
     p <> download_dir (u "/home") ++ u "/" ++ filename ->
     path_exists Sample.fresh p = true -> path_exists w' p = true).
Proof.
  intros w'.
  apply (run_keeps_what_was_there Unicode.ref Sample.parser (u "/home")
           (fun text => text)
           [u "q1#;#;#<p>Calcule 2+2</p>"; u ""] Sample.fresh w').
  vm_compute. reflexivity.
Defined.

(** ** The metrics aggregator *)

Import Aggregator.

Section MergeFacts.

Variable read_csv : str -> result frame.

Lemma column_drop :
  forall labels label df,
    existsb (str_eqb label) labels = false ->
    column label
      (filter (fun col : str * list str =>
                 negb (existsb (str_eqb (fst col)) labels)) df)
    = column label df.
Proof.
  intros labels label df Hl.
  induction df as [|[l cells] df IH]; cbn [filter column fst].
  - reflexivity.
  - destruct (str_eqb l label) eqn:E.
    + apply str_eqb_eq in E. subst l. rewrite Hl. cbn [negb column].
      rewrite str_eqb_refl. reflexivity.
    + destruct (existsb (str_eqb l) labels); cbn [negb column].
      * exact IH.
      * rewrite E. exact IH.
Qed.

Lemma column_set_column :
  forall label values cols label',
    column label' (set_column label values cols)
    = if str_eqb label label' then Some values else column label' cols.
Proof.
  intros label values cols label'.
  induction cols as [|[l old] cols IH]; cbn [set_column column].
  - destruct (str_eqb label label'); reflexivity.
  - destruct (str_eqb l label) eqn:E; cbn [column].
    + apply str_eqb_eq in E. subst l.
      destruct (str_eqb label label'); reflexivity.
    + rewrite IH. destruct (str_eqb l label') eqn:E'; [|reflexivity].
      apply str_eqb_eq in E'. subst l.
      destruct (str_eqb label label') eqn:E''; [|reflexivity].
      apply str_eqb_eq in E''. subst label'.
      rewrite str_eqb_refl in E. discriminate.
Qed.

Lemma In_set_column :
  forall label values cols l v,
    In (l, v) (set_column label values cols) ->
    (l = label /\ v = values) \/ In (l, v) cols.
Proof.
  intros label values cols l v.
  induction cols as [|[l0 old] cols IH]; cbn [set_column]; intros H.
  - destruct H as [H|[]]. injection H as <- <-. left. split; reflexivity.
  - destruct (str_eqb l0 label) eqn:E.
    + apply str_eqb_eq in E. subst l0.
      destruct H as [H|H].
      * injection H as <- <-. left. split; reflexivity.
      * right. right. exact H.
    + destruct H as [H|H].
      * right. left. exact H.
      * destruct (IH H) as [H1|H1]; [left; exact H1|right; right; exact H1].
Qed.

Lemma labels_set_column :
  forall label values cols l,
    In l (map fst (set_column label values cols))
    <-> l = label \/ In l (map fst cols).
Proof.
  intros label values cols l.
  induction cols as [|[l0 old] cols IH]; cbn [set_column map fst In].
  - intuition.
  - destruct (str_eqb l0 label) eqn:E; cbn [map fst In].
    + apply str_eqb_eq in E. subst l0. intuition.
    + rewrite IH. intuition.
Qed.

Lemma NoDup_set_column :
  forall label values cols,
    NoDup (map fst cols) -> NoDup (map fst (set_column label values cols)).
Proof.
  intros label values cols.
  induction cols as [|[l0 old] cols IH]; cbn [set_column map fst]; intros H.
  - constructor; [intros []|constructor].
  - destruct (str_eqb l0 label) eqn:E; cbn [map fst].
    + exact H.
    + inversion H as [|x xs Hx Hxs]; subst. constructor.
      * intros Hin. apply labels_set_column in Hin. destruct Hin as [->|Hin].
        -- rewrite str_eqb_refl in E. discriminate.
        -- apply Hx, Hin.
      * apply IH, Hxs.
Qed.


Lemma map_fst_blank :
  forall (cols : list (str * list str)) k,
    map fst (map (fun col : str * list str => (fst col, repeat missing k)) cols)
    = map fst cols.
Proof.
  intros cols k. rewrite map_map. reflexivity.
Qed.

Lemma length_positions : forall n, List.length (positions n) = n.
Proof.
  intros n. unfold positions. rewrite length_map, length_seq. reflexivity.
Qed.

(** The two ways in which an assignment succeeds. *)
Lemma assign_ok :
  forall label values d d',
    assign label values d = Ok d' ->
    (List.length values = List.length (index d) /\
     index d' = index d /\
     columns d' = set_column label values (columns d)) \/
    (index d = [] /\ values <> [] /\
     index d' = positions (List.length values) /\
     columns d'
     = set_column label values
         (map (fun col : str * list str =>
                 (fst col, repeat missing (List.length values)))
              (columns d))).
Proof.
  intros label values d d' H. unfold assign in H.
  destruct ((List.length (index d) =? 0) && (0 <? List.length values))
    eqn:Hempty.
  - right. injection H as <-. apply andb_true_iff in Hempty.
    destruct Hempty as [H0 Hv]. apply Nat.eqb_eq in H0. apply Nat.ltb_lt in Hv.
    split; [destruct (index d); [reflexivity|discriminate]|].
    split; [intros ->; cbn in Hv; lia|]. split; reflexivity.
  - left. destruct (List.length values =? List.length (index d)) eqn:Hlen;
      [|discriminate].
    injection H as <-. apply Nat.eqb_eq in Hlen.
    split; [exact Hlen|]. split; reflexivity.
Qed.

Lemma assign_same_length :
  forall label values d,
    List.length values = List.length (index d) ->
    assign label values d
    = Ok {| index := index d;
            columns := set_column label values (columns d) |}.
Proof.
  intros label values d Hlen. unfold assign.
  destruct ((List.length (index d) =? 0) && (0 <? List.length values))
    eqn:Hempty.
  - apply andb_true_iff in Hempty. destruct Hempty as [H0 Hv].
    apply Nat.eqb_eq in H0. apply Nat.ltb_lt in Hv. lia.
  - rewrite (proj2 (Nat.eqb_eq _ _) Hlen). reflexivity.
Qed.

Lemma assign_facts :
  forall label values d d',
    assign label values d = Ok d' ->
    List.length values = List.length (index d') /\
    column label (columns d') = Some values /\
    (index d' = index d \/ index d = []) /\
    (index d <> [] ->
     forall l, l <> label -> column l (columns d') = column l (columns d)) /\
    (forall l, In l (map fst (columns d'))
               <-> l = label \/ In l (map fst (columns d))) /\
    (rectangular d -> rectangular d').
Proof.
  intros label values d d' H.
  destruct (assign_ok label values d d' H)
    as [[Hlen [Hidx Hcols]]|[Hnil [Hv [Hidx Hcols]]]].
  - split; [congruence|]. split.
    { rewrite Hcols, column_set_column, str_eqb_refl. reflexivity. }
    split; [left; exact Hidx|]. split.
    { intros _ l Hl. rewrite Hcols, column_set_column.
      rewrite str_eqb_neq; [reflexivity|congruence]. }
    split.
    { intros l. rewrite Hcols. apply labels_set_column. }
    intros [Hrect Hnd]. split.
    + intros l v Hin. rewrite Hcols in Hin. rewrite Hidx.
      apply In_set_column in Hin. destruct Hin as [[_ ->]|Hin].
      * exact Hlen.
      * apply (Hrect l v Hin).
    + rewrite Hcols. apply NoDup_set_column, Hnd.
  - split; [rewrite Hidx, length_positions; reflexivity|]. split.
    { rewrite Hcols, column_set_column, str_eqb_refl. reflexivity. }
    split; [right; exact Hnil|]. split; [intros Hne; contradiction|].
    split.
    { intros l. rewrite Hcols, labels_set_column, map_fst_blank.
      reflexivity. }
    intros [Hrect Hnd]. split.
    + intros l v Hin. rewrite Hcols in Hin. rewrite Hidx, length_positions.
      apply In_set_column in Hin. destruct Hin as [[_ ->]|Hin].
      * reflexivity.
      * apply in_map_iff in Hin. destruct Hin as [col [E _]].
        injection E as _ <-. apply repeat_length.
    + rewrite Hcols. apply NoDup_set_column. rewrite map_fst_blank.
      exact Hnd.
Qed.

(** The frame to which an entry is assigned: the one collected so far, or
    the empty frame indexed by the metrics of the entry. *)
Lemma merge_entry_ok :
  forall path df name df',
    merge_entry read_csv path df name = Ok df' ->
    exists csv values d0 d',
      well_formed read_csv path name csv values /\
      df' = Some d' /\
      assign (question name) values d0 = Ok d' /\
      match df with
      | Some d => d0 = d
      | None =>
          exists metric,
            column (u "Metric") csv = Some metric /\
            d0 = {| index := metric; columns := [] |}
      end.
Proof.
  intros path df name df' H. unfold merge_entry in H.
  destruct (read_csv (path ++ u "/" ++ name)) as [csv|e] eqn:Hread;
    cbn [bind] in H; [|discriminate].
  unfold drop in H.
  destruct (forallb (has_column csv) [u "Unnamed: 0"; u "Group"]) eqn:Hcols;
    cbn [bind] in H; [|discriminate].
  cbn [forallb] in Hcols. apply andb_true_iff in Hcols.
  destruct Hcols as [Hc1 Hc2]. rewrite andb_true_r in Hc2.
  unfold attribute in H.
  rewrite !column_drop in H by (vm_compute; reflexivity).
  destruct df as [d|].
  - cbn [bind] in H.
    destruct (column (u "Value") csv) as [values|] eqn:Hv;
      cbn [bind] in H; [|discriminate].
    destruct (assign (question name) values d) as [d'|e] eqn:Ha;
      cbn [bind] in H; [|discriminate].
    injection H as <-.
    exists csv, values, d, d'. split; [repeat split; assumption|].
    split; [reflexivity|]. split; [exact Ha|reflexivity].
  - destruct (column (u "Metric") csv) as [metric|] eqn:Hm;
      cbn [bind] in H; [|discriminate].
    destruct (column (u "Value") csv) as [values|] eqn:Hv;
      cbn [bind] in H; [|discriminate].
    destruct (assign (question name) values
                     {| index := metric; columns := [] |}) as [d'|e] eqn:Ha;
      cbn [bind] in H; [|discriminate].
    injection H as <-.
    exists csv, values, {| index := metric; columns := [] |}, d'.
    split; [repeat split; assumption|].
    split; [reflexivity|]. split; [exact Ha|].
    exists metric. split; [exact Hm|reflexivity].
Qed.

Lemma merge_entries_app :
  forall path before after df,
    merge_entries read_csv path df (before ++ after)
    = bind (merge_entries read_csv path df before)
           (fun df => merge_entries read_csv path df after).
Proof.
  intros path before after.
  induction before as [|n before IH]; intros df.
  - reflexivity.
  - cbn [app merge_entries].
    destruct (merge_entry read_csv path df n) as [df1|e]; cbn [bind].
    + apply IH.
    + reflexivity.
Qed.

(** The loop from a frame that is there. *)
Lemma merge_entries_some :
  forall path names d df',
    merge_entries read_csv path (Some d) names = Ok df' ->
    exists d',
      df' = Some d' /\
      (rectangular d -> rectangular d') /\
      (index d' = index d \/ index d = []) /\
      (forall id,
         In id (map fst (columns d'))
         <-> In id (map fst (columns d))
             \/ exists name, In name names /\ question name = id) /\
      (forall name, In name names ->
         exists csv values,
           well_formed read_csv path name csv values /\
           (values = [] \/ List.length values = List.length (index d'))) /\
      (index d <> [] ->
       forall id,
         (forall name, In name names -> question name <> id) ->
         column id (columns d') = column id (columns d)).
Proof.
  intros path names.
  induction names as [|n rest IH]; intros d df' H.
  - cbn in H. injection H as <-. exists d.
    split; [reflexivity|]. split; [intros Hd; exact Hd|].
    split; [left; reflexivity|]. split; [|split].
    + intros id. split; [intros Hin; left; exact Hin|].
      intros [Hin|[name [[] _]]]. exact Hin.
    + intros name [].
    + reflexivity.
  - cbn [merge_entries] in H.
    destruct (merge_entry read_csv path (Some d) n) as [df1|e] eqn:Hn;
      cbn [bind] in H; [|discriminate].
    destruct (merge_entry_ok path (Some d) n df1 Hn)
      as [csv [values [d0 [d1 [Hwf [-> [Ha ->]]]]]]].
    destruct (assign_facts (question n) values d d1 Ha)
      as [A1 [A2 [A3 [A4 [A5 A6]]]]].
    destruct (IH d1 df' H) as [d' [-> [I1 [I2 [I3 [I4 I5]]]]]].
    exists d'. split; [reflexivity|].
    split; [intros Hd; apply I1, A6, Hd|]. split; [|split; [|split]].
    + destruct A3 as [A3|A3]; [|right; exact A3].
      destruct I2 as [I2|I2]; [left; congruence|right; congruence].
    + intros id. rewrite I3, A5. split.
      * intros [[->|Hin]|[name [Hin E]]].
        -- right. exists n. split; [left; reflexivity|reflexivity].
        -- left. exact Hin.
        -- right. exists name. split; [right; exact Hin|exact E].
      * intros [Hin|[name [[->|Hin] E]]].
        -- left. right. exact Hin.
        -- left. left. symmetry. exact E.
        -- right. exists name. split; assumption.
    + intros name [<-|Hin].
      * exists csv, values. split; [exact Hwf|].
        destruct I2 as [I2|I2].
        -- right. congruence.
        -- left. rewrite I2 in A1. destruct values; [reflexivity|discriminate].
      * apply (I4 name Hin).
    + intros Hne id Hno.
      assert (Hidx : index d1 = index d)
        by (destruct A3 as [A3|A3]; [exact A3|contradiction]).
      rewrite I5.
      * apply (A4 Hne). intros E. apply (Hno n (or_introl eq_refl)).
        symmetry. exact E.
      * rewrite Hidx. exact Hne.
      * intros name Hin. apply Hno. right. exact Hin.
Qed.

Lemma rectangular_empty :
  forall metric, rectangular {| index := metric; columns := [] |}.
Proof.
  intros metric. split; cbn.
  - intros l v [].
  - constructor.
Qed.

(** The loop from the start. *)
Lemma merge_entries_none :
  forall path first rest df',
    merge_entries read_csv path None (first :: rest) = Ok df' ->
    exists csv metric d',
      read_csv (path ++ u "/" ++ first) = Ok csv /\
      column (u "Metric") csv = Some metric /\
      df' = Some d' /\
      rectangular d' /\
      (metric <> [] -> index d' = metric) /\
      (forall id,
         In id (map fst (columns d'))
         <-> exists name, In name (first :: rest) /\ question name = id) /\
      (forall name, In name (first :: rest) ->
         exists csv values,
           well_formed read_csv path name csv values /\
           (values = [] \/ List.length values = List.length (index d'))).
Proof.
  intros path first rest df' H. cbn [merge_entries] in H.
  destruct (merge_entry read_csv path None first) as [df1|e] eqn:H1;
    cbn [bind] in H; [|discriminate].
  destruct (merge_entry_ok path None first df1 H1)
    as [csv [values [d0 [d1 [Hwf [-> [Ha [metric [Hm ->]]]]]]]]].
  destruct (assign_facts (question first) values _ d1 Ha)
    as [A1 [A2 [A3 [A4 [A5 A6]]]]].
  cbn [index columns map] in A3, A5.
  destruct (merge_entries_some path rest d1 df' H)
    as [d' [-> [I1 [I2 [I3 [I4 I5]]]]]].
  exists csv, metric, d'. split; [apply Hwf|]. split; [exact Hm|].
  split; [reflexivity|].
  split; [apply I1, A6, rectangular_empty|]. split; [|split].
  - intros Hne. destruct A3 as [A3|A3]; [|contradiction].
    destruct I2 as [I2|I2]; congruence.
  - intros id. rewrite I3, A5. split.
    + intros [[->|[]]|[name [Hin E]]].
      * exists first. split; [left; reflexivity|reflexivity].
      * exists name. split; [right; exact Hin|exact E].
    + intros [name [[<-|Hin] E]].
      * left. left. symmetry. exact E.
      * right. exists name. split; assumption.
  - intros name [<-|Hin].
    + exists csv, values. split; [exact Hwf|].
      destruct I2 as [I2|I2].
      * right. congruence.
      * left. rewrite I2 in A1. destruct values; [reflexivity|discriminate].
    + apply (I4 name Hin).
Qed.

(** The values of an entry that no later entry overwrites. *)
Lemma merge_entries_values :
  forall path before name after df df',
    merge_entries read_csv path df (before ++ name :: after) = Ok df' ->
    (forall later, In later after -> question later <> question name) ->
    exists csv values,
      well_formed read_csv path name csv values /\
      (values <> [] ->
       exists d',
         df' = Some d' /\
         column (question name) (columns d') = Some values).
Proof.
  intros path before name after df df' H Hlater.
  rewrite merge_entries_app in H.
  destruct (merge_entries read_csv path df before) as [dfb|e];
    cbn [bind] in H; [|discriminate].
  cbn [merge_entries] in H.
  destruct (merge_entry read_csv path dfb name) as [df1|e] eqn:H1;
    cbn [bind] in H; [|discriminate].
  destruct (merge_entry_ok path dfb name df1 H1)
    as [csv [values [d0 [d1 [Hwf [-> [Ha _]]]]]]].
  destruct (assign_facts (question name) values d0 d1 Ha)
    as [A1 [A2 _]].
  destruct (merge_entries_some path after d1 df' H)
    as [d' [-> [_ [_ [_ [_ I5]]]]]].
  exists csv, values. split; [exact Hwf|].
  intros Hv. exists d'. split; [reflexivity|].
  rewrite I5; [exact A2| |exact Hlater].
  intros E. rewrite E in A1. destruct values; [contradiction|discriminate].
Qed.

Lemma merge_entry_complete :
  forall path df name csv values,
    well_formed read_csv path name csv values ->
    match df with
    | Some d => List.length values = List.length (index d)
    | None =>
        exists metric,
          column (u "Metric") csv = Some metric /\
          List.length values = List.length metric
    end ->
    exists d',
      merge_entry read_csv path df name = Ok (Some d') /\
      match df with
      | Some d => index d' = index d
      | None => column (u "Metric") csv = Some (index d')
      end.
Proof.
  intros path df name csv values [W1 [W2 [W3 W4]]] Hdf.
  unfold merge_entry. rewrite W1. cbn [bind]. unfold drop.
  cbn [forallb]. rewrite W2, W3. cbn [andb bind]. unfold attribute.
  rewrite !column_drop by (vm_compute; reflexivity). rewrite W4.
  destruct df as [d|].
  - cbn [bind]. rewrite (assign_same_length _ _ _ Hdf). cbn [bind].
    eexists. split; reflexivity.
  - destruct Hdf as [metric [Hm Hlen]]. rewrite Hm. cbn [bind].
    rewrite (assign_same_length _ _ {| index := metric; columns := [] |} Hlen).
    cbn [bind]. eexists. split; reflexivity.
Qed.

Lemma merge_entries_complete :
  forall path names d,
    (forall name, In name names ->
       exists csv values,
         well_formed read_csv path name csv values /\
         List.length values = List.length (index d)) ->
    exists d',
      merge_entries read_csv path (Some d) names = Ok (Some d') /\
      index d' = index d.
Proof.
  intros path names.
  induction names as [|n rest IH]; intros d H.
  - exists d. split; reflexivity.
  - destruct (H n (or_introl eq_refl)) as [csv [values [Hwf Hlen]]].
    destruct (merge_entry_complete path (Some d) n csv values Hwf Hlen)
      as [d1 [H1 Hidx]].
    destruct (IH d1) as [d' [H' Hidx']].
    + intros name Hin. rewrite Hidx. apply H. right. exact Hin.
    + exists d'. cbn [merge_entries]. rewrite H1. cbn [bind].
      split; [exact H'|congruence].
Qed.

Variable scandir : str -> list str.

Lemma merge_metrix_files_ok :
  forall path merged_filename file tbl,
    merge_metrix_files scandir read_csv path merged_filename
    = Ok (file, tbl) ->
    file = merged_filename /\
    exists first rest,
      scandir path = first :: rest /\
      merge_entries read_csv path None (first :: rest)
      = Ok (Some {| index := header tbl; columns := rows tbl |}).
Proof.
  intros path merged_filename file tbl H. unfold merge_metrix_files in H.
  destruct (scandir path) as [|first rest] eqn:Hdir.
  - cbn in H. discriminate.
  - destruct (merge_entries read_csv path None (first :: rest))
      as [[d'|]|e] eqn:H1; cbn [bind] in H; try discriminate.
    injection H as <- <-. split; [reflexivity|].
    exists first, rest. split; [reflexivity|]. destruct d'; exact H1.
Qed.

End MergeFacts.

(** X17.  When [merge_metrix_files] writes its table, the directory was
    not empty; the header of the table is the column [Metric] of the entry
    listed first, provided that column has a cell; every row has as many
    cells as the header, no two rows have the same label, and the labels are
    the names of the entries with every [.csv] taken out. *)
Theorem merged_table_shape :
  forall scandir read_csv path merged_filename file tbl,
    merge_metrix_files scandir read_csv path merged_filename
    = Ok (file, tbl) ->
    file = merged_filename /\
    (exists first rest csv metric,
       scandir path = first :: rest /\
       read_csv (path ++ u "/" ++ first) = Ok csv /\
       column (u "Metric") csv = Some metric /\
       (metric <> [] -> header tbl = metric)) /\
    (forall id values,
       In (id, values) (rows tbl) ->
       List.length values = List.length (header tbl)) /\
    NoDup (map fst (rows tbl)) /\
    (forall id,
       In id (map fst (rows tbl))
       <-> exists name, In name (scandir path) /\ question name = id).
Proof.
  intros scandir read_csv path merged_filename file tbl H.
  destruct (merge_metrix_files_ok read_csv scandir path merged_filename
              file tbl H) as [Hfile [first [rest [Hdir Hloop]]]].
  destruct (merge_entries_none read_csv path first rest _ Hloop)
    as [csv [metric [d' [Hread [Hm [E [[R1 R2] [Hidx [Hlabels _]]]]]]]]].
  injection E as <-. cbn [index columns] in *.
  split; [exact Hfile|]. split; [|split; [|split]].
  - exists first, rest, csv, metric. repeat split; assumption.
  - exact R1.
  - exact R2.
  - intros id. rewrite Hdir. apply Hlabels.
Qed.

Lemma merged_table_shape_witness :
  u "/out.csv" = u "/out.csv" /\
  (exists first rest csv metric,
     Examples.scandir (u "/m") = first :: rest /\
     Examples.read_csv (u "/m" ++ u "/" ++ first) = Ok csv /\
     column (u "Metric") csv = Some metric /\
     (metric <> [] -> header Examples.merged = metric)) /\
  (forall id values,
     In (id, values) (rows Examples.merged) ->
     List.length values = List.length (header Examples.merged)) /\
  NoDup (map fst (rows Examples.merged)) /\
  (forall id,
     In id (map fst (rows Examples.merged))
     <-> exists name,
           In name (Examples.scandir (u "/m")) /\ question name = id).
Proof.
  apply (merged_table_shape Examples.scandir Examples.read_csv (u "/m")
           (u "/out.csv") (u "/out.csv") Examples.merged).
  vm_compute. reflexivity.
Defined.

(** X18.  [merge_metrix_files] writes a table only if every entry of the
    directory is read as a table that has the columns [Unnamed: 0], [Group]
    and [Value], with as many values as the table has metrics or with none:
    one entry that is not so makes the whole merge raise. *)
Theorem merge_requires_well_formed_files :
  forall scandir read_csv path merged_filename file tbl name,
    merge_metrix_files scandir read_csv path merged_filename
    = Ok (file, tbl) ->
    In name (scandir path) ->
    exists csv values,
      read_csv (path ++ u "/" ++ name) = Ok csv /\
      has_column csv (u "Unnamed: 0") = true /\
      has_column csv (u "Group") = true /\
      column (u "Value") csv = Some values /\
      (values = [] \/ List.length values = List.length (header tbl)).
Proof.
  intros scandir read_csv path merged_filename file tbl name H Hin.
  destruct (merge_metrix_files_ok read_csv scandir path merged_filename
              file tbl H) as [Hfile [first [rest [Hdir Hloop]]]].
  destruct (merge_entries_none read_csv path first rest _ Hloop)
    as [_ [_ [d' [_ [_ [E [_ [_ [_ Hall]]]]]]]]].
  injection E as <-. cbn [index columns] in *.
  rewrite Hdir in Hin.
  destruct (Hall name Hin) as [csv [values [[W1 [W2 [W3 W4]]] Hlen]]].
  exists csv, values. repeat split; assumption.
Qed.

Lemma merge_requires_well_formed_files_witness :
  exists csv values,
    Examples.read_csv (u "/m" ++ u "/" ++ u "q2.csv") = Ok csv /\
    has_column csv (u "Unnamed: 0") = true /\
    has_column csv (u "Group") = true /\
    column (u "Value") csv = Some values /\
    (values = [] \/ List.length values = List.length (header Examples.merged)).
Proof.
  apply (merge_requires_well_formed_files Examples.scandir Examples.read_csv
           (u "/m") (u "/out.csv") (u "/out.csv") Examples.merged
           (u "q2.csv")).
  - vm_compute. reflexivity.
  - vm_compute. tauto.
Defined.

(** X19.  The row of a question holds the column [Value] of its entry, cell
    by cell in the order of the file, whatever the column [Metric] of that
    file says; of several entries with one label, the one listed last
    wins. *)
Theorem merged_rows_hold_the_values :
  forall scandir read_csv path merged_filename file tbl before name after,
    merge_metrix_files scandir read_csv path merged_filename
    = Ok (file, tbl) ->
    scandir path = before ++ name :: after ->
    (forall later, In later after -> question later <> question name) ->
    exists csv values,
      read_csv (path ++ u "/" ++ name) = Ok csv /\
      column (u "Value") csv = Some values /\
      (values <> [] -> column (question name) (rows tbl) = Some values).
Proof.
  intros scandir read_csv path merged_filename file tbl before name after
         H Hsplit Hlater.
  destruct (merge_metrix_files_ok read_csv scandir path merged_filename
              file tbl H) as [Hfile [first [rest [Hdir Hloop]]]].
  rewrite <- Hdir, Hsplit in Hloop.
  destruct (merge_entries_values read_csv path before name after _ _
              Hloop Hlater) as [csv [values [[W1 [_ [_ W4]]] Hrow]]].
  exists csv, values. split; [exact W1|]. split; [exact W4|].
  intros Hv. destruct (Hrow Hv) as [d' [E Hcol]].
  injection E as <-. exact Hcol.
Qed.

Lemma merged_rows_hold_the_values_witness :
  exists csv values,
    Examples.read_csv (u "/m" ++ u "/" ++ u "q2.csv") = Ok csv /\
    column (u "Value") csv = Some values /\
    (values <> [] ->
     column (question (u "q2.csv")) (rows Examples.merged) = Some values).
Proof.
  apply (merged_rows_hold_the_values Examples.scandir Examples.read_csv
           (u "/m") (u "/out.csv") (u "/out.csv") Examples.merged
           [u "q1"] (u "q2.csv") []).
  - vm_compute. reflexivity.
  - vm_compute. reflexivity.
  - intros later [].
Defined.

(** X20.  On a directory that is not empty and whose entries are all
    tables with the three columns and as many values as the first entry has
    metrics, [merge_metrix_files] raises nothing and writes a table under
    the given name, headed by the metrics of the first entry. *)
Theorem merge_succeeds_on_well_formed_files :
  forall scandir read_csv path merged_filename first rest metric,
    scandir path = first :: rest ->
    (exists csv,
       read_csv (path ++ u "/" ++ first) = Ok csv /\
       column (u "Metric") csv = Some metric) ->
    (forall name, In name (first :: rest) ->
       exists csv values,
         read_csv (path ++ u "/" ++ name) = Ok csv /\
         has_column csv (u "Unnamed: 0") = true /\
         has_column csv (u "Group") = true /\
         column (u "Value") csv = Some values /\
         List.length values = List.length metric) ->
    exists tbl,
      merge_metrix_files scandir read_csv path merged_filename
      = Ok (merged_filename, tbl) /\
      header tbl = metric.
Proof.
  intros scandir read_csv path merged_filename first rest metric
         Hdir [csv0 [Hr0 Hm0]] Hall.
  unfold merge_metrix_files. rewrite Hdir. cbn [merge_entries].
  destruct (Hall first (or_introl eq_refl))
    as [csv [values [W1 [W2 [W3 [W4 Hlen]]]]]].
  assert (E : csv = csv0) by congruence. subst csv0.
  destruct (merge_entry_complete read_csv path None first csv values
              (conj W1 (conj W2 (conj W3 W4))))
    as [d1 [H1 Hidx]].
  { exists metric. split; assumption. }
  rewrite H1. cbn [bind].
  assert (Hidx1 : index d1 = metric) by congruence.
  destruct (merge_entries_complete read_csv path rest d1) as [d' [H' Hidx']].
  - intros name Hin.
    destruct (Hall name (or_intror Hin))
      as [csv' [values' [V1 [V2 [V3 [V4 Hl]]]]]].
    exists csv', values'. split; [repeat split; assumption|].
    rewrite Hidx1. exact Hl.
  - rewrite H'. cbn [bind]. eexists. split; [reflexivity|].
    cbn [transpose header]. congruence.
Qed.

Lemma merge_succeeds_on_well_formed_files_witness :
  exists tbl,
    merge_metrix_files Examples.scandir Examples.read_csv (u "/m")
                       (u "/out.csv")
    = Ok (u "/out.csv", tbl) /\
    header tbl = [u "words"; u "sentences"].
Proof.
  apply (merge_succeeds_on_well_formed_files Examples.scandir
           Examples.read_csv (u "/m") (u "/out.csv")
           (u "q1") [u "q2.csv"] [u "words"; u "sentences"]).
  - vm_compute. reflexivity.
  - exists (Examples.metrics_file (u "10") (u "2")).
    split; vm_compute; reflexivity.
  - intros name [<-|[<-|[]]].
    + exists (Examples.metrics_file (u "10") (u "2")), [u "10"; u "2"].
      repeat split; vm_compute; reflexivity.
    + exists (Examples.metrics_file (u "7") (u "1")), [u "7"; u "1"].
      repeat split; vm_compute; reflexivity.
Defined.
